(** * GSQL: the compilation pipeline, embedded and checked against its specification

    GSQL compiles a schema language with generic table templates ("concepts")
    into PostgreSQL DDL.  This development embeds the parts of the pipeline the
    specification makes promises about:

    - [Js]        the string and regular-expression operations the sources use;
    - [Ast]       the declaration tree of [types.ts], as the parser fills it;
    - [Lexer]     the token table of [lexer.ts] and the scanning loop that runs it;
    - [Generator] [generator.ts]: symbol collection, template expansion, mixin
                  resolution, instantiation and the final assembly;
    - [Compiler]  [parse] and [compile], over the shared parser instance.
    - [Cli]       [cli.ts]: the argument loop and [main], over a host that
                  stands for the file system and the path functions.

    Strings are sequences of code units; the model is exact for code units
    below 128, which is all the lexer admits in names, keywords and data types.
    Lookup tables ([Map] used through get/has/set only) are [gmap]s, the
    "already generated" sets are [gset]s, and the template-substitution map,
    whose iteration order is observable, is an insertion-ordered list. *)

From Stdlib Require Import String Ascii.
From stdpp Require Import gmap strings list pretty.

#[local] Set Warnings "-register-all".

(* ===================================================================== *)
(** ** JavaScript strings and the regular expressions of the sources      *)
(* ===================================================================== *)

Module Js.

(** The line feed, written [\n] in the sources. *)
Definition nl : string := String (ascii_of_nat 10) EmptyString.

(** The double quote. *)
Definition dquote : string := String (ascii_of_nat 34) EmptyString.

Definition code (c : ascii) : nat := nat_of_ascii c.

Definition isUpper (c : ascii) : bool := ((65 <=? code c) && (code c <=? 90))%nat.
Definition isLower (c : ascii) : bool := ((97 <=? code c) && (code c <=? 122))%nat.
Definition isDigit (c : ascii) : bool := ((48 <=? code c) && (code c <=? 57))%nat.

(** [\w], that is [[A-Za-z0-9_]]. *)
Definition isWord (c : ascii) : bool :=
  isUpper c || isLower c || isDigit c || (code c =? 95)%nat.

(** [\s] on code units below 256: tab, LF, VT, FF, CR, space and NBSP. *)
Definition isSpace (c : ascii) : bool :=
  (((9 <=? code c) && (code c <=? 13)) || (code c =? 32) || (code c =? 160))%nat.

(** The characters [.] refuses: LF and CR (U+2028 and U+2029 are not below 256). *)
Definition isLineTerminator (c : ascii) : bool := ((code c =? 10) || (code c =? 13))%nat.

Definition toUpperChar (c : ascii) : ascii :=
  if isLower c then ascii_of_nat (code c - 32) else c.
Definition toLowerChar (c : ascii) : ascii :=
  if isUpper c then ascii_of_nat (code c + 32) else c.

Fixpoint mapChars (f : ascii -> ascii) (s : string) : string :=
  match s with
  | EmptyString => EmptyString
  | String c s' => String (f c) (mapChars f s')
  end.

(** [String.prototype.toUpperCase] and [toLowerCase]. *)
Definition toUpperCase : string -> string := mapChars toUpperChar.
Definition toLowerCase : string -> string := mapChars toLowerChar.

(** [Array.prototype.join]. *)
Fixpoint join (sep : string) (l : list string) : string :=
  match l with
  | [] => EmptyString
  | [x] => x
  | x :: rest => x +:+ sep +:+ join sep rest
  end.

Fixpoint takeWhile (p : ascii -> bool) (s : string) : string :=
  match s with
  | EmptyString => EmptyString
  | String c s' => if p c then String c (takeWhile p s') else EmptyString
  end.

Fixpoint allChars (p : ascii -> bool) (s : string) : bool :=
  match s with
  | EmptyString => true
  | String c s' => p c && allChars p s'
  end.

Fixpoint drop (n : nat) (s : string) : string :=
  match n, s with
  | 0, _ => s
  | S k, String _ s' => drop k s'
  | S _, EmptyString => EmptyString
  end.

Fixpoint take (n : nat) (s : string) : string :=
  match n, s with
  | 0, _ => EmptyString
  | S k, String c s' => String c (take k s')
  | S _, EmptyString => EmptyString
  end.

(** [needle] is at the head of [s]. *)
Fixpoint startsWith (needle s : string) : bool :=
  match needle, s with
  | EmptyString, _ => true
  | String _ _, EmptyString => false
  | String a needle', String b s' => Ascii.eqb a b && startsWith needle' s'
  end.

(** [String.prototype.includes]. *)
Fixpoint includes (needle s : string) : bool :=
  startsWith needle s
  || match s with
     | EmptyString => false
     | String _ s' => includes needle s'
     end.

(** A JS string in a condition: the empty string is falsy. *)
Definition truthy (s : string) : bool :=
  match s with EmptyString => false | _ => true end.

(** *** [str.replace(regex, "...")] with the [g] flag

    All global replacements below scan left to right; after a match of
    length [n] the scan resumes behind it, which the [skip] counter does. *)

(** The match of [/(\w+)::(\w+)/] anchored at the head of [s]: the two
    groups and the length of the match.  [\w+] is greedy, and giving back
    characters never helps: what follows a shorter first group is a word
    character, not a colon. *)
Definition matchQualified (s : string) : option (string * string * nat) :=
  let g1 := takeWhile isWord s in
  let rest := drop (String.length g1) s in
  if truthy g1 && startsWith "::" rest then
    let g2 := takeWhile isWord (drop 2 rest) in
    if truthy g2 then Some (g1, g2, String.length g1 + 2 + String.length g2)
    else None
  else None.

(** [value.replace(/(\w+)::(\w+)/g, "'$2'::$1")]. *)
Fixpoint replaceQualified (skip : nat) (s : string) : string :=
  match s with
  | EmptyString => EmptyString
  | String c s' =>
    match skip with
    | S k => replaceQualified k s'
    | 0 =>
      match matchQualified s with
      | Some (g1, g2, n) => "'" +:+ g2 +:+ "'::" +:+ g1 +:+ replaceQualified (n - 1) s'
      | None => String c (replaceQualified 0 s')
      end
    end
  end.

(** The match of [/([A-Z]+)([A-Z][a-z])/] anchored at the head of [s]: an
    upper-case run of at least two letters followed by a lower-case one.
    The greedy first group gives back exactly its last letter. *)
Definition matchCaps (s : string) : option (string * string * nat) :=
  let run := takeWhile isUpper s in
  let n := String.length run in
  match drop n s with
  | String l _ =>
    if (2 <=? n)%nat && isLower l
    then Some (take (n - 1) run, drop (n - 1) run +:+ String l EmptyString, n + 1)
    else None
  | EmptyString => None
  end.

(** [str.replace(/([A-Z]+)([A-Z][a-z])/g, "$1_$2")]. *)
Fixpoint replaceCaps (skip : nat) (s : string) : string :=
  match s with
  | EmptyString => EmptyString
  | String c s' =>
    match skip with
    | S k => replaceCaps k s'
    | 0 =>
      match matchCaps s with
      | Some (g1, g2, n) => g1 +:+ "_" +:+ g2 +:+ replaceCaps (n - 1) s'
      | None => String c (replaceCaps 0 s')
      end
    end
  end.

(** [str.replace(/([a-z\d])([A-Z])/g, "$1_$2")]. *)
Fixpoint replaceCamel (skip : nat) (s : string) : string :=
  match s with
  | EmptyString => EmptyString
  | String c s' =>
    match skip with
    | S k => replaceCamel k s'
    | 0 =>
      match s' with
      | String u _ =>
        if (isLower c || isDigit c) && isUpper u
        then String c (String "_" (String u (replaceCamel 1 s')))
        else String c (replaceCamel 0 s')
      | EmptyString => String c EmptyString
      end
    end
  end.

(** The replacement text of [replace] for a pattern without capture groups
    (GetSubstitution): [$$] is a dollar, [$&] the match, [$`] the text before
    it, [$'] the text after it; every other dollar stands for itself. *)
Fixpoint substitution (matched before after rep : string) : string :=
  match rep with
  | EmptyString => EmptyString
  | String c rep' =>
    match rep' with
    | String d rep'' =>
      if (code c =? 36)%nat then
        if (code d =? 36)%nat then String c (substitution matched before after rep'')
        else if (code d =? 38)%nat then matched +:+ substitution matched before after rep''
        else if (code d =? 96)%nat then before +:+ substitution matched before after rep''
        else if (code d =? 39)%nat then after +:+ substitution matched before after rep''
        else String c (substitution matched before after rep')
      else String c (substitution matched before after rep')
    | EmptyString => String c EmptyString
    end
  end.

(** [s.replace(new RegExp(escaped, "g"), rep)] where [escaped] matches the
    literal, non-empty text [pat]: [before] is what has been scanned. *)
Fixpoint replaceLiteral (pat rep : string) (before : string) (skip : nat) (s : string)
  : string :=
  match s with
  | EmptyString => EmptyString
  | String c s' =>
    match skip with
    | S k => replaceLiteral pat rep (before +:+ String c EmptyString) k s'
    | 0 =>
      if truthy pat && startsWith pat s
      then substitution pat before (drop (String.length pat) s) rep
           +:+ replaceLiteral pat rep (before +:+ String c EmptyString) (String.length pat - 1) s'
      else String c (replaceLiteral pat rep (before +:+ String c EmptyString) 0 s')
    end
  end.

(** [/^'[^']*'::\w+$/.test(value)]. *)
Definition isCastLiteral (value : string) : bool :=
  match value with
  | String q body =>
    if (code q =? 39)%nat then
      let inner := takeWhile (fun c => negb (code c =? 39)%nat) body in
      let rest := drop (String.length inner) body in
      startsWith "'::" rest
      && truthy (drop 3 rest) && allChars isWord (drop 3 rest)
    else false
  | EmptyString => false
  end.

(** [name.match(re)] for the pattern [^\{([^}]+)\}] followed by a group of
    [.*] and [$]: the parameter and the suffix. *)
Definition matchTemplate (name : string) : option (string * string) :=
  match name with
  | String b rest =>
    if (code b =? 123)%nat then
      let param := takeWhile (fun c => negb (code c =? 125)%nat) rest in
      match drop (String.length param) rest with
      | String _ suffix =>
        if truthy param && allChars (fun c => negb (isLineTerminator c)) suffix
        then Some (param, suffix) else None
      | EmptyString => None
      end
    else None
  | EmptyString => None
  end.

(** [table.match(/CREATE TABLE (\w+)/)]: the first group of the leftmost match. *)
Fixpoint matchCreateTable (s : string) : option string :=
  if startsWith "CREATE TABLE " s && truthy (takeWhile isWord (drop 13 s))
  then Some (takeWhile isWord (drop 13 s))
  else match s with
       | EmptyString => None
       | String _ s' => matchCreateTable s'
       end.

(** *** Exceptions

    What a [throw] carries: an [Error] instance with its name and message, or
    any other value, kept as the text [String(value)] gives. *)
Inductive Thrown :=
| ErrorObject (name message : string)
| OtherValue (text : string).

(** A computation that returns or throws. *)
Inductive Result (A : Type) :=
| Ok (a : A)
| Throw (e : Thrown).
Arguments Ok {A} a.
Arguments Throw {A} e.

#[global] Instance result_ret : MRet Result := fun A a => Ok a.
#[global] Instance result_bind : MBind Result :=
  fun A B f m => match m with Ok a => f a | Throw e => Throw e end.

(** The engine ends a recursion that outgrows the call stack with this error. *)
Definition stackOverflow : Thrown :=
  ErrorObject "RangeError" "Maximum call stack size exceeded".

(** *** [Map<string, string>] where iteration order is observed

    The entries in insertion order; [set] on a present key keeps its place. *)
Fixpoint mapSet (key value : string) (m : list (string * string)) : list (string * string) :=
  match m with
  | [] => [(key, value)]
  | (k, v) :: m' =>
    if decide (k = key) then (k, value) :: m' else (k, v) :: mapSet key value m'
  end.

End Js.

(* ===================================================================== *)
(** ** The declaration tree (types.ts, as filled in by the AST builder)   *)
(* ===================================================================== *)

Module Ast.

Inductive ConstraintType :=
  PrimaryKey | NotNull | Unique | Default | Reference | Check | OnDelete.

(** [ColumnConstraint]: one interface for all constraints, a tag and
    optional payload fields. *)
Record ColumnConstraint := {
  c_type : ConstraintType;
  c_value : option string;
  c_table : option string;
  c_column : option string;
  c_action : option string;
}.

Record ColumnDef := {
  col_name : string;
  col_dataType : string;
  col_constraints : list ColumnConstraint;
}.

(** [IndexDef].  The [where] field is not declared in [types.ts]; the AST
    builder ([visitIndexDef]) attaches it all the same. *)
Record IndexDef := {
  idx_columns : list string;
  idx_unique : option bool;
  idx_using : option string;
  idx_where : option string;
}.

Record CheckDef := { chk_expression : string }.

Record TriggerDef := {
  trg_name : string;
  trg_timing : string;
  trg_event : string;
  trg_forEach : string;
  trg_executeFunction : string;
}.

Inductive SchemaBodyItem :=
| ItemColumn (c : ColumnDef)
| ItemIndex (i : IndexDef)
| ItemCheck (c : CheckDef)
| ItemTrigger (t : TriggerDef).

Record ExtensionDecl := { ext_name : string }.

Record FunctionDecl := {
  fn_name : string;
  fn_returnType : string;
  fn_body : string;
}.

Record EnumDecl := {
  enum_name : string;
  enum_values : list string;
  enum_conceptScope : option string;
}.

Record SchemaDecl := {
  schema_name : string;
  schema_mixins : list string;
  schema_members : list SchemaBodyItem;
  schema_conceptScope : option string;
}.

(** The members of a concept: [(SchemaDecl | EnumDecl)[]]. *)
Inductive ConceptMember :=
| MemberSchema (s : SchemaDecl)
| MemberEnum (e : EnumDecl).

Record ConceptDecl := {
  concept_name : string;
  concept_typeParams : list string;
  concept_members : list ConceptMember;
}.

(** [InstantiationTarget] and [TypeArg] have the same shape. *)
Record TypeArg := {
  arg_tableName : string;
  arg_alias : option string;
}.
Abbreviation InstantiationTarget := TypeArg.

Record Instantiation := {
  inst_targets : list InstantiationTarget;
  inst_conceptName : string;
  inst_typeArgs : list TypeArg;
}.

(** [PerInstanceIndex].  As for [IndexDef], [where] is attached by the AST
    builder ([visitPerInstanceIndex]) without being declared in [types.ts]. *)
Record PerInstanceIndex := {
  pii_tableName : string;
  pii_columns : list string;
  pii_unique : option bool;
  pii_using : option string;
  pii_where : option string;
}.

Inductive TopLevelDeclaration :=
| DExtension (d : ExtensionDecl)
| DFunction (d : FunctionDecl)
| DSchema (d : SchemaDecl)
| DConcept (d : ConceptDecl)
| DEnum (d : EnumDecl)
| DInstantiation (d : Instantiation)
| DPerInstanceIndex (d : PerInstanceIndex).

Record GSQLProgram := { declarations : list TopLevelDeclaration }.

(** A number as positions carry it: the end-of-input token of the parser
    engine has [NaN] in its position fields. *)
Inductive JsNumber :=
| Num (n : nat)
| NaN.

Record Position := {
  pos_line : JsNumber;
  pos_column : JsNumber;
  pos_offset : JsNumber;
}.

Record SourceLocation := { loc_start : Position; loc_end : Position }.

Record CompileError := {
  message : string;
  location : option SourceLocation;
  severity : string;
}.

Record CompileResult := {
  success : bool;
  sql : option string;
  errors : list CompileError;
  ast : option GSQLProgram;
}.

End Ast.

(* ===================================================================== *)
(** ** The lexer (lexer.ts)                                               *)
(* ===================================================================== *)

Module Lexer.
Import Js.

(** The [pattern] of a token: a plain word, a plain word under the [i]
    flag, or another expression, given by the length of its match at the
    head of the input. *)
Inductive Pattern :=
| Exact (text : string)
| NoCase (text : string)
| Regex (exec : string -> option nat).

(** What [createToken] is given: [group: Lexer.SKIPPED] is [skipped]. *)
Inductive TokenType := {
  name : string;
  pattern : Pattern;
  longer_alt : option TokenType;
  skipped : bool;
}.

(** [[a-zA-Z_]]. *)
Definition isIdentStart (c : ascii) : bool :=
  isUpper c || isLower c || (code c =? 95)%nat.

(** [/\s+/]. *)
Definition execWhiteSpace (s : string) : option nat :=
  let run := takeWhile isSpace s in
  if truthy run then Some (String.length run) else None.

(** [/\/\/[^\n]*/]. *)
Definition execLineComment (s : string) : option nat :=
  if startsWith "//" s
  then Some (2 + String.length (takeWhile (fun c => negb (code c =? 10)%nat) (drop 2 s)))
  else None.

(** The offset of the first occurrence of [needle]. *)
Fixpoint indexOf (needle s : string) : option nat :=
  if startsWith needle s then Some 0
  else match s with
       | EmptyString => None
       | String _ s' => S <$> indexOf needle s'
       end.

(** [/\/\*[\s\S]*?\*\//]: lazy, so up to the first closing mark. *)
Definition execBlockComment (s : string) : option nat :=
  if startsWith "/*" s
  then (fun i => 2 + i + 2) <$> indexOf "*/" (drop 2 s)
  else None.

(** [/[a-zA-Z_][a-zA-Z0-9_]*/]. *)
Definition execIdentifier (s : string) : option nat :=
  match s with
  | String c rest =>
    if isIdentStart c then Some (1 + String.length (takeWhile isWord rest)) else None
  | EmptyString => None
  end.

(** The whole of [w] is one match of the identifier pattern. *)
Definition isIdentifier (w : string) : bool :=
  match execIdentifier w with
  | Some n => (n =? String.length w)%nat
  | None => false
  end.

(** [/\{[a-zA-Z_][a-zA-Z0-9_]*\}/]. *)
Definition execTemplateIdentifier (s : string) : option nat :=
  match s with
  | String b rest =>
    if (code b =? 123)%nat then
      match execIdentifier rest with
      | Some n => if startsWith "}" (drop n rest) then Some (1 + n + 1) else None
      | None => None
      end
    else None
  | EmptyString => None
  end.

(** The match of a plain word under the [i] flag. *)
Definition execNoCase (text s : string) : option nat :=
  if String.eqb (toLowerCase text) (toLowerCase (take (String.length text) s))
  then Some (String.length text) else None.

(** [/double\s+precision/i]. *)
Definition execDoublePrecision (s : string) : option nat :=
  match execNoCase "double" s with
  | Some n =>
    match execWhiteSpace (drop n s) with
    | Some k =>
      match execNoCase "precision" (drop (n + k) s) with
      | Some m => Some (n + k + m)
      | None => None
      end
    | None => None
    end
  | None => None
  end.

(** The body of a string literal after its opening quote: characters other
    than quote and backslash, or a backslash and one character that does not
    end a line, up to the closing quote.  [n] counts what has been read. *)
Fixpoint execStringBody (n : nat) (s : string) : option nat :=
  match s with
  | EmptyString => None
  | String c s' =>
    if (code c =? 39)%nat then Some (S n)
    else if (code c =? 92)%nat then
      match s' with
      | String d s'' => if isLineTerminator d then None else execStringBody (2 + n) s''
      | EmptyString => None
      end
    else execStringBody (S n) s'
  end.

(** [/'(?:[^'\\]|\\.)*'/]. *)
Definition execStringLiteral (s : string) : option nat :=
  match s with
  | String q rest => if (code q =? 39)%nat then execStringBody 1 rest else None
  | EmptyString => None
  end.

(** [/-?\d+(?:\.\d+)?/]. *)
Definition execNumberLiteral (s : string) : option nat :=
  let sign := if startsWith "-" s then 1 else 0 in
  let int := takeWhile isDigit (drop sign s) in
  if truthy int then
    let rest := drop (sign + String.length int) s in
    let frac := takeWhile isDigit (drop 1 rest) in
    if startsWith "." rest && truthy frac
    then Some (sign + String.length int + 1 + String.length frac)
    else Some (sign + String.length int)
  else None.

(** [/true|false/]. *)
Definition execBooleanLiteral (s : string) : option nat :=
  if startsWith "true" s then Some 4
  else if startsWith "false" s then Some 5
  else None.

(** [pattern.exec] anchored at the head of the remaining input: the length
    of the match. *)
Definition exec (p : Pattern) (s : string) : option nat :=
  match p with
  | Exact text => if startsWith text s then Some (String.length text) else None
  | NoCase text => execNoCase text s
  | Regex f => f s
  end.

(** *** Whitespace and comments *)

Definition WhiteSpace : TokenType :=
  {| name := "WhiteSpace"; pattern := Regex execWhiteSpace; longer_alt := None; skipped := true |}.
Definition LineComment : TokenType :=
  {| name := "LineComment"; pattern := Regex execLineComment; longer_alt := None; skipped := true |}.
Definition BlockComment : TokenType :=
  {| name := "BlockComment"; pattern := Regex execBlockComment; longer_alt := None; skipped := true |}.

(** *** Identifiers *)

Definition Identifier : TokenType :=
  {| name := "Identifier"; pattern := Regex execIdentifier; longer_alt := None; skipped := false |}.
Definition TemplateIdentifier : TokenType :=
  {| name := "TemplateIdentifier"; pattern := Regex execTemplateIdentifier; longer_alt := None; skipped := false |}.

(** *** Keywords, each with [longer_alt: Identifier] *)

Definition Concept : TokenType :=
  {| name := "Concept"; pattern := Exact "concept"; longer_alt := Some Identifier; skipped := false |}.
Definition Schema : TokenType :=
  {| name := "Schema"; pattern := Exact "schema"; longer_alt := Some Identifier; skipped := false |}.
Definition Mixin : TokenType :=
  {| name := "Mixin"; pattern := Exact "mixin"; longer_alt := Some Identifier; skipped := false |}.
Definition Enum : TokenType :=
  {| name := "Enum"; pattern := Exact "enum"; longer_alt := Some Identifier; skipped := false |}.
Definition Extension : TokenType :=
  {| name := "Extension"; pattern := Exact "extension"; longer_alt := Some Identifier; skipped := false |}.
Definition Function : TokenType :=
  {| name := "Function"; pattern := Exact "function"; longer_alt := Some Identifier; skipped := false |}.
Definition Func : TokenType :=
  {| name := "Func"; pattern := Exact "func"; longer_alt := Some Identifier; skipped := false |}.
Definition Trigger : TokenType :=
  {| name := "Trigger"; pattern := Exact "trigger"; longer_alt := Some Identifier; skipped := false |}.
Definition Index : TokenType :=
  {| name := "Index"; pattern := Exact "index"; longer_alt := Some Identifier; skipped := false |}.
Definition Check : TokenType :=
  {| name := "Check"; pattern := Exact "check"; longer_alt := Some Identifier; skipped := false |}.
Definition Before : TokenType :=
  {| name := "Before"; pattern := Exact "before"; longer_alt := Some Identifier; skipped := false |}.
Definition After : TokenType :=
  {| name := "After"; pattern := Exact "after"; longer_alt := Some Identifier; skipped := false |}.
Definition Ondelete : TokenType :=
  {| name := "Ondelete"; pattern := Exact "ondelete"; longer_alt := Some Identifier; skipped := false |}.
Definition On : TokenType :=
  {| name := "On"; pattern := Exact "on"; longer_alt := Some Identifier; skipped := false |}.
Definition Each : TokenType :=
  {| name := "Each"; pattern := Exact "each"; longer_alt := Some Identifier; skipped := false |}.
Definition Row : TokenType :=
  {| name := "Row"; pattern := Exact "row"; longer_alt := Some Identifier; skipped := false |}.
Definition Statement : TokenType :=
  {| name := "Statement"; pattern := Exact "statement"; longer_alt := Some Identifier; skipped := false |}.
Definition Execute : TokenType :=
  {| name := "Execute"; pattern := Exact "execute"; longer_alt := Some Identifier; skipped := false |}.
Definition Unique : TokenType :=
  {| name := "Unique"; pattern := Exact "unique"; longer_alt := Some Identifier; skipped := false |}.
Definition Gin : TokenType :=
  {| name := "Gin"; pattern := Exact "gin"; longer_alt := Some Identifier; skipped := false |}.
Definition Gist : TokenType :=
  {| name := "Gist"; pattern := Exact "gist"; longer_alt := Some Identifier; skipped := false |}.
Definition Btree : TokenType :=
  {| name := "Btree"; pattern := Exact "btree"; longer_alt := Some Identifier; skipped := false |}.
Definition Hash : TokenType :=
  {| name := "Hash"; pattern := Exact "hash"; longer_alt := Some Identifier; skipped := false |}.
Definition Pkey : TokenType :=
  {| name := "Pkey"; pattern := Exact "pkey"; longer_alt := Some Identifier; skipped := false |}.
Definition Nonull : TokenType :=
  {| name := "Nonull"; pattern := Exact "nonull"; longer_alt := Some Identifier; skipped := false |}.
Definition Default : TokenType :=
  {| name := "Default"; pattern := Exact "default"; longer_alt := Some Identifier; skipped := false |}.
Definition Ref : TokenType :=
  {| name := "Ref"; pattern := Exact "ref"; longer_alt := Some Identifier; skipped := false |}.
Definition Cascade : TokenType :=
  {| name := "Cascade"; pattern := Exact "cascade"; longer_alt := Some Identifier; skipped := false |}.
Definition Restrict : TokenType :=
  {| name := "Restrict"; pattern := Exact "restrict"; longer_alt := Some Identifier; skipped := false |}.
Definition SetNull : TokenType :=
  {| name := "SetNull"; pattern := Exact "setnull"; longer_alt := Some Identifier; skipped := false |}.
Definition SetDefault : TokenType :=
  {| name := "SetDefault"; pattern := Exact "setdefault"; longer_alt := Some Identifier; skipped := false |}.
Definition NoAction : TokenType :=
  {| name := "NoAction"; pattern := Exact "noaction"; longer_alt := Some Identifier; skipped := false |}.
Definition Update : TokenType :=
  {| name := "Update"; pattern := Exact "update"; longer_alt := Some Identifier; skipped := false |}.
Definition Insert : TokenType :=
  {| name := "Insert"; pattern := Exact "insert"; longer_alt := Some Identifier; skipped := false |}.
Definition Delete : TokenType :=
  {| name := "Delete"; pattern := Exact "delete"; longer_alt := Some Identifier; skipped := false |}.
Definition Return : TokenType :=
  {| name := "Return"; pattern := Exact "return"; longer_alt := Some Identifier; skipped := false |}.
Definition New : TokenType :=
  {| name := "New"; pattern := Exact "NEW"; longer_alt := Some Identifier; skipped := false |}.
Definition Old : TokenType :=
  {| name := "Old"; pattern := Exact "OLD"; longer_alt := Some Identifier; skipped := false |}.

(** *** Data types, case-insensitive, each with [longer_alt: Identifier] *)

Definition Serial : TokenType :=
  {| name := "Serial"; pattern := NoCase "serial"; longer_alt := Some Identifier; skipped := false |}.
Definition BigSerial : TokenType :=
  {| name := "BigSerial"; pattern := NoCase "bigserial"; longer_alt := Some Identifier; skipped := false |}.
Definition Integer : TokenType :=
  {| name := "Integer"; pattern := NoCase "integer"; longer_alt := Some Identifier; skipped := false |}.
Definition Bigint : TokenType :=
  {| name := "Bigint"; pattern := NoCase "bigint"; longer_alt := Some Identifier; skipped := false |}.
Definition SmallInt : TokenType :=
  {| name := "SmallInt"; pattern := NoCase "smallint"; longer_alt := Some Identifier; skipped := false |}.
Definition Text : TokenType :=
  {| name := "Text"; pattern := NoCase "text"; longer_alt := Some Identifier; skipped := false |}.
Definition Varchar : TokenType :=
  {| name := "Varchar"; pattern := NoCase "varchar"; longer_alt := Some Identifier; skipped := false |}.
Definition Char : TokenType :=
  {| name := "Char"; pattern := NoCase "char"; longer_alt := Some Identifier; skipped := false |}.
Definition Boolean : TokenType :=
  {| name := "Boolean"; pattern := NoCase "boolean"; longer_alt := Some Identifier; skipped := false |}.
Definition Timestamptz : TokenType :=
  {| name := "Timestamptz"; pattern := NoCase "timestamptz"; longer_alt := Some Identifier; skipped := false |}.
Definition Timestamp : TokenType :=
  {| name := "Timestamp"; pattern := NoCase "timestamp"; longer_alt := Some Identifier; skipped := false |}.
Definition Date : TokenType :=
  {| name := "Date"; pattern := NoCase "date"; longer_alt := Some Identifier; skipped := false |}.
Definition Time : TokenType :=
  {| name := "Time"; pattern := NoCase "time"; longer_alt := Some Identifier; skipped := false |}.
Definition Jsonb : TokenType :=
  {| name := "Jsonb"; pattern := NoCase "jsonb"; longer_alt := Some Identifier; skipped := false |}.
Definition Json : TokenType :=
  {| name := "Json"; pattern := NoCase "json"; longer_alt := Some Identifier; skipped := false |}.
Definition Uuid : TokenType :=
  {| name := "Uuid"; pattern := NoCase "uuid"; longer_alt := Some Identifier; skipped := false |}.
Definition Inet : TokenType :=
  {| name := "Inet"; pattern := NoCase "inet"; longer_alt := Some Identifier; skipped := false |}.
Definition Citext : TokenType :=
  {| name := "Citext"; pattern := NoCase "citext"; longer_alt := Some Identifier; skipped := false |}.
Definition Decimal : TokenType :=
  {| name := "Decimal"; pattern := NoCase "decimal"; longer_alt := Some Identifier; skipped := false |}.
Definition Numeric : TokenType :=
  {| name := "Numeric"; pattern := NoCase "numeric"; longer_alt := Some Identifier; skipped := false |}.
Definition Real : TokenType :=
  {| name := "Real"; pattern := NoCase "real"; longer_alt := Some Identifier; skipped := false |}.
Definition DoublePrecision : TokenType :=
  {| name := "DoublePrecision"; pattern := Regex execDoublePrecision; longer_alt := Some Identifier; skipped := false |}.
Definition Bytea : TokenType :=
  {| name := "Bytea"; pattern := NoCase "bytea"; longer_alt := Some Identifier; skipped := false |}.

(** *** Literals *)

Definition StringLiteral : TokenType :=
  {| name := "StringLiteral"; pattern := Regex execStringLiteral; longer_alt := None; skipped := false |}.
Definition NumberLiteral : TokenType :=
  {| name := "NumberLiteral"; pattern := Regex execNumberLiteral; longer_alt := None; skipped := false |}.
Definition BooleanLiteral : TokenType :=
  {| name := "BooleanLiteral"; pattern := Regex execBooleanLiteral; longer_alt := Some Identifier; skipped := false |}.
Definition NullLiteral : TokenType :=
  {| name := "NullLiteral"; pattern := NoCase "null"; longer_alt := Some Identifier; skipped := false |}.

(** *** Operators and punctuation *)

Definition Arrow : TokenType :=
  {| name := "Arrow"; pattern := Exact "->"; longer_alt := None; skipped := false |}.
Definition DoubleColon : TokenType :=
  {| name := "DoubleColon"; pattern := Exact "::"; longer_alt := None; skipped := false |}.
Definition LBrace : TokenType :=
  {| name := "LBrace"; pattern := Exact "{"; longer_alt := None; skipped := false |}.
Definition RBrace : TokenType :=
  {| name := "RBrace"; pattern := Exact "}"; longer_alt := None; skipped := false |}.
Definition LParen : TokenType :=
  {| name := "LParen"; pattern := Exact "("; longer_alt := None; skipped := false |}.
Definition RParen : TokenType :=
  {| name := "RParen"; pattern := Exact ")"; longer_alt := None; skipped := false |}.
Definition LBracket : TokenType :=
  {| name := "LBracket"; pattern := Exact "["; longer_alt := None; skipped := false |}.
Definition RBracket : TokenType :=
  {| name := "RBracket"; pattern := Exact "]"; longer_alt := None; skipped := false |}.
Definition LAngle : TokenType :=
  {| name := "LAngle"; pattern := Exact "<"; longer_alt := None; skipped := false |}.
Definition RAngle : TokenType :=
  {| name := "RAngle"; pattern := Exact ">"; longer_alt := None; skipped := false |}.
Definition Semicolon : TokenType :=
  {| name := "Semicolon"; pattern := Exact ";"; longer_alt := None; skipped := false |}.
Definition Comma : TokenType :=
  {| name := "Comma"; pattern := Exact ","; longer_alt := None; skipped := false |}.
Definition Dot : TokenType :=
  {| name := "Dot"; pattern := Exact "."; longer_alt := None; skipped := false |}.
Definition Equals : TokenType :=
  {| name := "Equals"; pattern := Exact "="; longer_alt := None; skipped := false |}.

(** *** The token array: order matters, the first pattern that matches wins *)

Definition allTokens : list TokenType := [
  WhiteSpace; LineComment; BlockComment;
  Arrow; DoubleColon;
  Concept; Schema; Mixin; Enum; Extension; Function; Func; Trigger; Index; Check; Before; After; Ondelete; On; Each; Row; Statement; Execute; Unique; Gin; Gist; Btree; Hash; Pkey; Nonull; Default; Ref; SetDefault; SetNull; Cascade; Restrict; NoAction; Update; Insert; Delete; Return; New; Old;
  DoublePrecision; Timestamptz; Timestamp; BigSerial; Serial; SmallInt; Bigint; Integer; Varchar; Char; Text; Boolean; Date; Time; Jsonb; Json; Uuid; Inet; Citext; Decimal; Numeric; Real; Bytea;
  StringLiteral; NumberLiteral; BooleanLiteral; NullLiteral;
  TemplateIdentifier;
  Identifier;
  LBrace; RBrace; LParen; RParen; LBracket; RBracket; LAngle; RAngle; Semicolon; Comma; Dot; Equals
].

(** *** The scanning loop of the lexer engine

    At an offset the patterns are tried in the order of the token array.  The
    first that matches is taken, unless its [longer_alt] matches a strictly
    longer text there, which then replaces it. *)
Fixpoint matchAt (tokens : list TokenType) (text : string) : option (TokenType * nat) :=
  match tokens with
  | [] => None
  | tokType :: rest =>
    match exec (pattern tokType) text with
    | Some n =>
      match longer_alt tokType with
      | Some alt =>
        match exec (pattern alt) text with
        | Some m => if (n <? m)%nat then Some (alt, m) else Some (tokType, n)
        | None => Some (tokType, n)
        end
      | None => Some (tokType, n)
      end
    | None => matchAt rest text
    end
  end.

(** A token of the output: its text, where it starts and what it is.  The
    line and column bookkeeping of the engine is left out. *)
Record IToken := {
  image : string;
  startOffset : nat;
  tokenType : TokenType;
}.

(** A run of characters no pattern accepts. *)
Record ILexingError := {
  err_offset : nat;
  err_length : nat;
}.

(** The scan: a matched text of length [n] is consumed whole ([skip] drops
    its [n - 1] further characters), a skipped token is left out of the
    output, and a character at which nothing matches is dropped and noted. *)
Fixpoint scan (tokens : list TokenType) (skip offset : nat) (text : string)
  : list IToken * list nat :=
  match text with
  | EmptyString => ([], [])
  | String _ rest =>
    match skip with
    | S k => scan tokens k (S offset) rest
    | 0 =>
      match matchAt tokens text with
      | Some (tokType, n) =>
        let '(toks, bad) := scan tokens (n - 1) (S offset) rest in
        (if skipped tokType then toks
         else {| image := take n text; startOffset := offset; tokenType := tokType |} :: toks,
         bad)
      | None =>
        let '(toks, bad) := scan tokens 0 (S offset) rest in
        (toks, offset :: bad)
      end
    end
  end.

(** Consecutive dropped characters make one error. *)
Fixpoint errorRuns (bad : list nat) : list ILexingError :=
  match bad with
  | [] => []
  | offset :: rest =>
    match errorRuns rest with
    | next :: runs =>
      if decide (err_offset next = S offset)
      then {| err_offset := offset; err_length := S (err_length next) |} :: runs
      else {| err_offset := offset; err_length := 1 |} :: next :: runs
    | [] => [{| err_offset := offset; err_length := 1 |}]
    end
  end.

Record ILexingResult := {
  tokens : list IToken;
  errors : list ILexingError;
}.

(** [GSQLLexer.tokenize(input)]. *)
Definition tokenize (input : string) : ILexingResult :=
  let '(toks, bad) := scan allTokens 0 0 input in
  {| tokens := toks; errors := errorRuns bad |}.

End Lexer.

(* ===================================================================== *)
(** ** The generator (generator.ts)                                       *)
(* ===================================================================== *)

Module Generator.
Import Js Ast.

(** *** Utility functions *)

Definition toSnakeCase (str : string) : string :=
  toLowerCase (replaceCamel 0 (replaceCaps 0 str)).

Definition formatTypeCast (value : string) : string :=
  if negb (includes "::" value) then value
  else replaceQualified 0 value.

Definition formatEnumDefault (value enumType : string) : string :=
  if decide (value = "NULL") then value
  else if isCastLiteral value then value
  else if includes "::" value then formatTypeCast value
  else "'" +:+ value +:+ "'::" +:+ enumType.

(** *** Generator context *)

Record GeneratorContext := {
  concepts : gmap string ConceptDecl;
  schemas : gmap string SchemaDecl;
  enums : gmap string EnumDecl;
  tableToSchema : gmap string string;
  templateSubs : list (string * string);
  enumSql : list string;
  tableSql : list string;
  indexSql : list string;
  triggerSql : list string;
  extensionSql : list string;
  functionSql : list string;
  perInstanceIndexSql : list string;
  generatedEnums : gset string;
  generatedTables : gset string;
}.

Definition createContext : GeneratorContext := {|
  concepts := ∅; schemas := ∅; enums := ∅; tableToSchema := ∅;
  templateSubs := [];
  enumSql := []; tableSql := []; indexSql := []; triggerSql := [];
  extensionSql := []; functionSql := []; perInstanceIndexSql := [];
  generatedEnums := ∅; generatedTables := ∅;
|}.

(** Assignments to one field of the context. *)
Definition set_concepts (v : gmap string ConceptDecl) (c : GeneratorContext) :=
  {| concepts := v; schemas := schemas c; enums := enums c;
     tableToSchema := tableToSchema c; templateSubs := templateSubs c;
     enumSql := enumSql c; tableSql := tableSql c; indexSql := indexSql c;
     triggerSql := triggerSql c; extensionSql := extensionSql c;
     functionSql := functionSql c; perInstanceIndexSql := perInstanceIndexSql c;
     generatedEnums := generatedEnums c; generatedTables := generatedTables c |}.
Definition set_schemas (v : gmap string SchemaDecl) (c : GeneratorContext) :=
  {| concepts := concepts c; schemas := v; enums := enums c;
     tableToSchema := tableToSchema c; templateSubs := templateSubs c;
     enumSql := enumSql c; tableSql := tableSql c; indexSql := indexSql c;
     triggerSql := triggerSql c; extensionSql := extensionSql c;
     functionSql := functionSql c; perInstanceIndexSql := perInstanceIndexSql c;
     generatedEnums := generatedEnums c; generatedTables := generatedTables c |}.
Definition set_enums (v : gmap string EnumDecl) (c : GeneratorContext) :=
  {| concepts := concepts c; schemas := schemas c; enums := v;
     tableToSchema := tableToSchema c; templateSubs := templateSubs c;
     enumSql := enumSql c; tableSql := tableSql c; indexSql := indexSql c;
     triggerSql := triggerSql c; extensionSql := extensionSql c;
     functionSql := functionSql c; perInstanceIndexSql := perInstanceIndexSql c;
     generatedEnums := generatedEnums c; generatedTables := generatedTables c |}.
Definition set_tableToSchema (v : gmap string string) (c : GeneratorContext) :=
  {| concepts := concepts c; schemas := schemas c; enums := enums c;
     tableToSchema := v; templateSubs := templateSubs c;
     enumSql := enumSql c; tableSql := tableSql c; indexSql := indexSql c;
     triggerSql := triggerSql c; extensionSql := extensionSql c;
     functionSql := functionSql c; perInstanceIndexSql := perInstanceIndexSql c;
     generatedEnums := generatedEnums c; generatedTables := generatedTables c |}.
Definition set_templateSubs (v : list (string * string)) (c : GeneratorContext) :=
  {| concepts := concepts c; schemas := schemas c; enums := enums c;
     tableToSchema := tableToSchema c; templateSubs := v;
     enumSql := enumSql c; tableSql := tableSql c; indexSql := indexSql c;
     triggerSql := triggerSql c; extensionSql := extensionSql c;
     functionSql := functionSql c; perInstanceIndexSql := perInstanceIndexSql c;
     generatedEnums := generatedEnums c; generatedTables := generatedTables c |}.
Definition set_enumSql (v : list string) (c : GeneratorContext) :=
  {| concepts := concepts c; schemas := schemas c; enums := enums c;
     tableToSchema := tableToSchema c; templateSubs := templateSubs c;
     enumSql := v; tableSql := tableSql c; indexSql := indexSql c;
     triggerSql := triggerSql c; extensionSql := extensionSql c;
     functionSql := functionSql c; perInstanceIndexSql := perInstanceIndexSql c;
     generatedEnums := generatedEnums c; generatedTables := generatedTables c |}.
Definition set_tableSql (v : list string) (c : GeneratorContext) :=
  {| concepts := concepts c; schemas := schemas c; enums := enums c;
     tableToSchema := tableToSchema c; templateSubs := templateSubs c;
     enumSql := enumSql c; tableSql := v; indexSql := indexSql c;
     triggerSql := triggerSql c; extensionSql := extensionSql c;
     functionSql := functionSql c; perInstanceIndexSql := perInstanceIndexSql c;
     generatedEnums := generatedEnums c; generatedTables := generatedTables c |}.
Definition set_indexSql (v : list string) (c : GeneratorContext) :=
  {| concepts := concepts c; schemas := schemas c; enums := enums c;
     tableToSchema := tableToSchema c; templateSubs := templateSubs c;
     enumSql := enumSql c; tableSql := tableSql c; indexSql := v;
     triggerSql := triggerSql c; extensionSql := extensionSql c;
     functionSql := functionSql c; perInstanceIndexSql := perInstanceIndexSql c;
     generatedEnums := generatedEnums c; generatedTables := generatedTables c |}.
Definition set_triggerSql (v : list string) (c : GeneratorContext) :=
  {| concepts := concepts c; schemas := schemas c; enums := enums c;
     tableToSchema := tableToSchema c; templateSubs := templateSubs c;
     enumSql := enumSql c; tableSql := tableSql c; indexSql := indexSql c;
     triggerSql := v; extensionSql := extensionSql c;
     functionSql := functionSql c; perInstanceIndexSql := perInstanceIndexSql c;
     generatedEnums := generatedEnums c; generatedTables := generatedTables c |}.
Definition set_extensionSql (v : list string) (c : GeneratorContext) :=
  {| concepts := concepts c; schemas := schemas c; enums := enums c;
     tableToSchema := tableToSchema c; templateSubs := templateSubs c;
     enumSql := enumSql c; tableSql := tableSql c; indexSql := indexSql c;
     triggerSql := triggerSql c; extensionSql := v;
     functionSql := functionSql c; perInstanceIndexSql := perInstanceIndexSql c;
     generatedEnums := generatedEnums c; generatedTables := generatedTables c |}.
Definition set_functionSql (v : list string) (c : GeneratorContext) :=
  {| concepts := concepts c; schemas := schemas c; enums := enums c;
     tableToSchema := tableToSchema c; templateSubs := templateSubs c;
     enumSql := enumSql c; tableSql := tableSql c; indexSql := indexSql c;
     triggerSql := triggerSql c; extensionSql := extensionSql c;
     functionSql := v; perInstanceIndexSql := perInstanceIndexSql c;
     generatedEnums := generatedEnums c; generatedTables := generatedTables c |}.
Definition set_perInstanceIndexSql (v : list string) (c : GeneratorContext) :=
  {| concepts := concepts c; schemas := schemas c; enums := enums c;
     tableToSchema := tableToSchema c; templateSubs := templateSubs c;
     enumSql := enumSql c; tableSql := tableSql c; indexSql := indexSql c;
     triggerSql := triggerSql c; extensionSql := extensionSql c;
     functionSql := functionSql c; perInstanceIndexSql := v;
     generatedEnums := generatedEnums c; generatedTables := generatedTables c |}.
Definition set_generatedEnums (v : gset string) (c : GeneratorContext) :=
  {| concepts := concepts c; schemas := schemas c; enums := enums c;
     tableToSchema := tableToSchema c; templateSubs := templateSubs c;
     enumSql := enumSql c; tableSql := tableSql c; indexSql := indexSql c;
     triggerSql := triggerSql c; extensionSql := extensionSql c;
     functionSql := functionSql c; perInstanceIndexSql := perInstanceIndexSql c;
     generatedEnums := v; generatedTables := generatedTables c |}.
Definition set_generatedTables (v : gset string) (c : GeneratorContext) :=
  {| concepts := concepts c; schemas := schemas c; enums := enums c;
     tableToSchema := tableToSchema c; templateSubs := templateSubs c;
     enumSql := enumSql c; tableSql := tableSql c; indexSql := indexSql c;
     triggerSql := triggerSql c; extensionSql := extensionSql c;
     functionSql := functionSql c; perInstanceIndexSql := perInstanceIndexSql c;
     generatedEnums := generatedEnums c; generatedTables := v |}.

(** *** First pass: collect definitions *)

(** One turn of the loop of [collectDefinitions]. *)
Definition collectDefinition (ctx : GeneratorContext) (decl : TopLevelDeclaration)
  : GeneratorContext :=
  match decl with
  | DConcept d => set_concepts (<[concept_name d := d]> (concepts ctx)) ctx
  | DSchema d => set_schemas (<[schema_name d := d]> (schemas ctx)) ctx
  | DEnum d => set_enums (<[enum_name d := d]> (enums ctx)) ctx
  | _ => ctx
  end.

Definition collectDefinitions (ast : GSQLProgram) (ctx : GeneratorContext)
  : GeneratorContext :=
  fold_left collectDefinition (declarations ast) ctx.

(** *** Template expansion *)

(** The loop of [expandTemplate] over the entries of [templateSubs]. *)
Fixpoint findReplacement (param : string) (entries : list (string * string))
  : option string :=
  match entries with
  | [] => None
  | (key, value) :: rest =>
    if decide (key = param) then Some value else findReplacement param rest
  end.

Definition expandTemplate (name : string) (ctx : GeneratorContext) : string :=
  match matchTemplate name with
  | Some (param, suffix) =>
    let replacement := findReplacement param (templateSubs ctx) in
    default (toSnakeCase param) replacement +:+ suffix
  | None => name
  end.

(** [escapeRegExp] quotes every character that is special in a pattern, so
    the expression built from [{], the escaped parameter and [}] matches
    that text literally. *)
Definition expandCheckExpression (expr : string) (ctx : GeneratorContext) : string :=
  let result :=
    fold_left (fun result '(param, value) =>
                 replaceLiteral ("{" +:+ param +:+ "}") value EmptyString 0 result)
              (templateSubs ctx) expr in
  formatTypeCast result.

(** *** SQL generation helpers *)

Definition generateEnumSql (enumDecl : EnumDecl) (ctx : GeneratorContext)
  : GeneratorContext :=
  let name := enum_name enumDecl in
  if decide (name ∈ generatedEnums ctx) then ctx
  else
    let ctx := set_generatedEnums ({[name]} ∪ generatedEnums ctx) ctx in
    let ctx := set_enums (<[name := enumDecl]> (enums ctx)) ctx in
    let values := join ", " (map (fun v => "'" +:+ v +:+ "'") (enum_values enumDecl)) in
    set_enumSql (enumSql ctx ++
      ["DO $$ BEGIN" +:+ nl
       +:+ "    CREATE TYPE " +:+ name +:+ " AS ENUM (" +:+ values +:+ ");" +:+ nl
       +:+ "EXCEPTION" +:+ nl
       +:+ "    WHEN duplicate_object THEN null;" +:+ nl
       +:+ "END $$;"]) ctx.

(** The [DEFAULT] clause of a column: the [Default] case of the switch in
    [generateColumnSql]. *)
Definition defaultClause (col : ColumnDef) (constraint : ColumnConstraint)
  (ctx : GeneratorContext) : string :=
  let defaultValue := default "NULL" (c_value constraint) in
  let enumTypeName := toLowerCase (col_dataType col) in
  let defaultValue :=
    match enums ctx !! enumTypeName with
    | Some _ => formatEnumDefault defaultValue enumTypeName
    | None => defaultValue
    end in
  "DEFAULT " +:+ defaultValue.

(** One turn of the loop over [col.constraints]: what is pushed on [parts]
    and on [postConstraints]. *)
Definition pushConstraint (col : ColumnDef) (ctx : GeneratorContext)
  (acc : list string * list string) (constraint : ColumnConstraint)
  : list string * list string :=
  let '(parts, postConstraints) := acc in
  match c_type constraint with
  | PrimaryKey => (parts ++ ["PRIMARY KEY"], postConstraints)
  | NotNull => (parts ++ ["NOT NULL"], postConstraints)
  | Unique => (parts ++ ["UNIQUE"], postConstraints)
  | Default => (parts ++ [defaultClause col constraint ctx], postConstraints)
  | Reference =>
    let tableName := default EmptyString (c_table constraint) in
    let tableName := default tableName (tableToSchema ctx !! tableName) in
    (parts,
     postConstraints ++
       ["REFERENCES " +:+ tableName +:+ "(" +:+ default "id" (c_column constraint) +:+ ")"])
  | Check =>
    (parts ++
       ["CHECK (" +:+ expandCheckExpression (default EmptyString (c_value constraint)) ctx +:+ ")"],
     postConstraints)
  | OnDelete =>
    (parts, postConstraints ++ ["ON DELETE " +:+ default "NO ACTION" (c_action constraint)])
  end.

Definition generateColumnSql (col : ColumnDef) (ctx : GeneratorContext) : string :=
  let name := expandTemplate (col_name col) ctx in
  let dataType := toUpperCase (col_dataType col) in
  let '(parts, postConstraints) :=
    fold_left (pushConstraint col ctx) (col_constraints col)
              (["    " +:+ name +:+ " " +:+ dataType], []) in
  join " " (parts ++ postConstraints).

(** Used for schema-level indexes and for per-instance indexes alike. *)
Definition generateIndexSql (tableName : string) (index : IndexDef)
  (ctx : GeneratorContext) : string :=
  let expandedColumns := map (fun c => expandTemplate c ctx) (idx_columns index) in
  let columns := join ", " expandedColumns in
  let columnNames := join "_" expandedColumns in
  let indexName := "idx_" +:+ tableName +:+ "_" +:+ columnNames in
  let unique := match idx_unique index with Some true => "UNIQUE " | _ => EmptyString end in
  let using_ :=
    match idx_using index with
    | Some u => if truthy u then "USING " +:+ u +:+ " " else EmptyString
    | None => EmptyString
    end in
  "CREATE " +:+ unique +:+ "INDEX " +:+ indexName +:+ " ON " +:+ tableName +:+ " "
  +:+ using_ +:+ "(" +:+ columns +:+ ");".

Definition generateCheckSql (_tableName : string) (check : CheckDef)
  (ctx : GeneratorContext) : string :=
  let expr := expandCheckExpression (chk_expression check) ctx in
  "    CHECK (" +:+ expr +:+ ")".

Definition generateTriggerSql (tableName : string) (trigger : TriggerDef)
  (_ctx : GeneratorContext) : string :=
  let timing := toUpperCase (trg_timing trigger) in
  let event := toUpperCase (trg_event trigger) in
  let forEach :=
    if decide (trg_forEach trigger = "row") then "FOR EACH ROW" else "FOR EACH STATEMENT" in
  "CREATE TRIGGER " +:+ trg_name trigger +:+ "_" +:+ tableName +:+ nl
  +:+ "    " +:+ timing +:+ " " +:+ event +:+ " ON " +:+ tableName +:+ nl
  +:+ "    " +:+ forEach +:+ " EXECUTE FUNCTION " +:+ trg_executeFunction trigger +:+ "();".

(** *** Schema resolution *)

Record ResolvedSchema := {
  rs_tableName : string;
  rs_columns : list ColumnDef;
  rs_indexes : list IndexDef;
  rs_checks : list CheckDef;
  rs_triggers : list TriggerDef;
}.

(** The loop of [resolveMixins] over [schema.mixins]: a mixin that names a
    collected schema contributes what [resolve], the recursive call, returns
    for it; any other name is passed over. *)
Fixpoint resolveMixinList (resolve : SchemaDecl -> Result (list SchemaBodyItem))
  (ctx : GeneratorContext) (mixins : list string) (items : list SchemaBodyItem)
  : Result (list SchemaBodyItem) :=
  match mixins with
  | [] => Ok items
  | mixinName :: rest =>
    match schemas ctx !! mixinName with
    | Some mixin =>
      inner ← resolve mixin;
      resolveMixinList resolve ctx rest (items ++ inner)
    | None => resolveMixinList resolve ctx rest items
    end
  end.

(** [resolveMixins] calls itself once per mixin that names a collected
    schema, and nothing stops a chain of mixins from coming back to a schema
    it has left.  [depth] is the number of nested calls the call stack has
    room for: a call that finds no room throws [stackOverflow]. *)
Fixpoint resolveMixins (depth : nat) (schema : SchemaDecl) (ctx : GeneratorContext)
  : Result (list SchemaBodyItem) :=
  match depth with
  | 0 => Throw stackOverflow
  | S depth' =>
    items ← resolveMixinList (fun mixin => resolveMixins depth' mixin ctx) ctx
                             (schema_mixins schema) [];
    Ok (items ++ schema_members schema)
  end.

(** The [switch (item.type)] of [resolveSchema], one selector per list. *)
Definition asColumn (item : SchemaBodyItem) : option ColumnDef :=
  match item with ItemColumn c => Some c | _ => None end.
Definition asIndex (item : SchemaBodyItem) : option IndexDef :=
  match item with ItemIndex i => Some i | _ => None end.
Definition asCheck (item : SchemaBodyItem) : option CheckDef :=
  match item with ItemCheck c => Some c | _ => None end.
Definition asTrigger (item : SchemaBodyItem) : option TriggerDef :=
  match item with ItemTrigger t => Some t | _ => None end.

Definition resolveSchema (depth : nat) (schema : SchemaDecl) (tableName : string)
  (ctx : GeneratorContext) : Result ResolvedSchema :=
  allItems ← resolveMixins depth schema ctx;
  Ok {| rs_tableName := tableName;
        rs_columns := omap asColumn allItems;
        rs_indexes := omap asIndex allItems;
        rs_checks := omap asCheck allItems;
        rs_triggers := omap asTrigger allItems |}.

(** *** Table generation *)

Definition generateTableSql (resolved : ResolvedSchema) (ctx : GeneratorContext)
  : GeneratorContext :=
  if decide (rs_tableName resolved ∈ generatedTables ctx) then ctx
  else
    let ctx := set_generatedTables ({[rs_tableName resolved]} ∪ generatedTables ctx) ctx in
    let columnsSql := map (fun c => generateColumnSql c ctx) (rs_columns resolved) in
    let checksSql :=
      map (fun c => generateCheckSql (rs_tableName resolved) c ctx) (rs_checks resolved) in
    let allColumnLines := columnsSql ++ checksSql in
    let tableBody := join ("," +:+ nl) allColumnLines in
    let ctx :=
      set_tableSql (tableSql ctx ++
        ["CREATE TABLE " +:+ rs_tableName resolved +:+ " (" +:+ nl +:+ tableBody +:+ nl +:+ ");"])
        ctx in
    let ctx :=
      fold_left (fun ctx index =>
        set_indexSql (indexSql ctx ++ [generateIndexSql (rs_tableName resolved) index ctx]) ctx)
        (rs_indexes resolved) ctx in
    fold_left (fun ctx trigger =>
      set_triggerSql (triggerSql ctx ++ [generateTriggerSql (rs_tableName resolved) trigger ctx]) ctx)
      (rs_triggers resolved) ctx.

(** *** Declaration processing *)

Definition processExtension (decl : ExtensionDecl) (ctx : GeneratorContext)
  : GeneratorContext :=
  set_extensionSql (extensionSql ctx ++
    ["CREATE EXTENSION IF NOT EXISTS " +:+ dquote +:+ ext_name decl +:+ dquote +:+ ";"]) ctx.

Definition processFunction (decl : FunctionDecl) (ctx : GeneratorContext)
  : GeneratorContext :=
  set_functionSql (functionSql ctx ++
    ["CREATE OR REPLACE FUNCTION " +:+ fn_name decl +:+ "()" +:+ nl
     +:+ "RETURNS TRIGGER AS $$" +:+ nl
     +:+ "BEGIN" +:+ nl
     +:+ "    " +:+ fn_body decl +:+ nl
     +:+ "END;" +:+ nl
     +:+ "$$ LANGUAGE plpgsql;"]) ctx.

Definition processEnum (decl : EnumDecl) (ctx : GeneratorContext) : GeneratorContext :=
  generateEnumSql decl ctx.

Definition processStandaloneSchema (decl : SchemaDecl) (ctx : GeneratorContext)
  : GeneratorContext :=
  set_schemas (<[schema_name decl := decl]> (schemas ctx)) ctx.

(** The first loop of [processInstantiation]: [typeParams[i]] against
    [typeArgs[i]], skipping an empty parameter name and stopping to bind
    where the arguments run out. *)
Fixpoint bindTypeParams (typeParams : list string) (typeArgs : list TypeArg)
  (ctx : GeneratorContext) : GeneratorContext :=
  match typeParams with
  | [] => ctx
  | param :: params =>
    let ctx :=
      match typeArgs with
      | arg :: _ =>
        if truthy param then
          let ctx :=
            set_templateSubs
              (mapSet param (default (toSnakeCase param) (arg_alias arg)) (templateSubs ctx))
              ctx in
          set_tableToSchema (<[param := arg_tableName arg]> (tableToSchema ctx)) ctx
        else ctx
      | [] => ctx
      end in
    bindTypeParams params (tail typeArgs) ctx
  end.

(** The second loop: [targets[i]] against [conceptSchemas[i]] while both
    exist.  It fills the local [schemaToTable] and the context. *)
Fixpoint bindTargets (targets : list InstantiationTarget) (conceptSchemas : list SchemaDecl)
  (schemaToTable : gmap string (string * option string)) (ctx : GeneratorContext)
  : gmap string (string * option string) * GeneratorContext :=
  match targets, conceptSchemas with
  | target :: targets', schema :: conceptSchemas' =>
    let schemaToTable :=
      <[schema_name schema := (arg_tableName target, arg_alias target)]> schemaToTable in
    let ctx :=
      set_tableToSchema (<[schema_name schema := arg_tableName target]> (tableToSchema ctx)) ctx in
    let ctx :=
      match arg_alias target with
      | Some alias =>
        if truthy alias
        then set_templateSubs (mapSet (schema_name schema) alias (templateSubs ctx)) ctx
        else set_templateSubs
               (mapSet (schema_name schema) (toSnakeCase (schema_name schema)) (templateSubs ctx))
               ctx
      | None =>
        set_templateSubs
          (mapSet (schema_name schema) (toSnakeCase (schema_name schema)) (templateSubs ctx))
          ctx
      end in
    bindTargets targets' conceptSchemas' schemaToTable ctx
  | _, _ => (schemaToTable, ctx)
  end.

(** The last loop: a table for every concept schema that got a target. *)
Fixpoint generateConceptTables (depth : nat) (conceptSchemas : list SchemaDecl)
  (schemaToTable : gmap string (string * option string)) (ctx : GeneratorContext)
  : Result GeneratorContext :=
  match conceptSchemas with
  | [] => Ok ctx
  | schema :: rest =>
    match schemaToTable !! schema_name schema with
    | Some mapping =>
      resolved ← resolveSchema depth schema (fst mapping) ctx;
      generateConceptTables depth rest schemaToTable (generateTableSql resolved ctx)
    | None => generateConceptTables depth rest schemaToTable ctx
    end
  end.

(** [concept.members.filter(m => m.type === "SchemaDecl")] and the same for
    the enums. *)
Definition conceptSchemas (concept : ConceptDecl) : list SchemaDecl :=
  omap (fun m => match m with MemberSchema s => Some s | _ => None end)
       (concept_members concept).
Definition conceptEnums (concept : ConceptDecl) : list EnumDecl :=
  omap (fun m => match m with MemberEnum e => Some e | _ => None end)
       (concept_members concept).

(** The context once [templateSubs] is cleared and both binding loops have
    run, with the local [schemaToTable]. *)
Definition bindInstantiation (concept : ConceptDecl) (decl : Instantiation)
  (ctx : GeneratorContext) : gmap string (string * option string) * GeneratorContext :=
  let ctx := set_templateSubs [] ctx in
  let ctx := bindTypeParams (concept_typeParams concept) (inst_typeArgs decl) ctx in
  bindTargets (inst_targets decl) (conceptSchemas concept) ∅ ctx.

Definition processInstantiation (depth : nat) (decl : Instantiation) (ctx : GeneratorContext)
  : Result GeneratorContext :=
  match concepts ctx !! inst_conceptName decl with
  | None =>
    match schemas ctx !! inst_conceptName decl with
    | Some schema =>
      match inst_targets decl with
      | target :: _ =>
        let tableName := arg_tableName target in
        let ctx :=
          set_tableToSchema (<[schema_name schema := tableName]> (tableToSchema ctx)) ctx in
        resolved ← resolveSchema depth schema tableName ctx;
        Ok (generateTableSql resolved ctx)
      | [] => Ok ctx
      end
    | None => Ok ctx
    end
  | Some concept =>
    let '(schemaToTable, ctx) := bindInstantiation concept decl ctx in
    let ctx := fold_left (fun ctx e => generateEnumSql e ctx) (conceptEnums concept) ctx in
    generateConceptTables depth (conceptSchemas concept) schemaToTable ctx
  end.

Definition processPerInstanceIndex (decl : PerInstanceIndex) (ctx : GeneratorContext)
  : GeneratorContext :=
  let indexDef := {|
    idx_columns := pii_columns decl;
    idx_unique := pii_unique decl;
    idx_using := pii_using decl;
    idx_where := None;
  |} in
  set_perInstanceIndexSql
    (perInstanceIndexSql ctx ++ [generateIndexSql (pii_tableName decl) indexDef ctx]) ctx.

Definition processDeclaration (depth : nat) (decl : TopLevelDeclaration)
  (ctx : GeneratorContext) : Result GeneratorContext :=
  match decl with
  | DExtension d => Ok (processExtension d ctx)
  | DFunction d => Ok (processFunction d ctx)
  | DEnum d => Ok (processEnum d ctx)
  | DSchema d => Ok (processStandaloneSchema d ctx)
  | DConcept _ => Ok ctx
  | DInstantiation d => processInstantiation depth d ctx
  | DPerInstanceIndex d => Ok (processPerInstanceIndex d ctx)
  end.

(** The second pass: the declarations in order, stopping at the first throw. *)
Fixpoint processDeclarations (depth : nat) (decls : list TopLevelDeclaration)
  (ctx : GeneratorContext) : Result GeneratorContext :=
  match decls with
  | [] => Ok ctx
  | decl :: rest =>
    ctx' ← processDeclaration depth decl ctx;
    processDeclarations depth rest ctx'
  end.

(** *** Final assembly *)

(** A table, then the indexes and the triggers whose text names it. *)
Definition tableWithIndexes (ctx : GeneratorContext) : list string :=
  flat_map (fun table =>
    (if truthy table then [table] else [])
    ++ match matchCreateTable table with
       | Some tableName =>
         filter (fun idx => includes (" ON " +:+ tableName +:+ " ") idx = true) (indexSql ctx)
         ++ filter (fun trg => includes (" ON " +:+ tableName) trg = true) (triggerSql ctx)
       | None => []
       end) (tableSql ctx).

Definition sections (ctx : GeneratorContext) : list string :=
  (if decide (0 < length (extensionSql ctx)) then [join (nl +:+ nl) (extensionSql ctx)] else [])
  ++ (if decide (0 < length (functionSql ctx)) then [join (nl +:+ nl) (functionSql ctx)] else [])
  ++ (if decide (0 < length (enumSql ctx)) then [join (nl +:+ nl) (enumSql ctx)] else [])
  ++ (if decide (0 < length (tableWithIndexes ctx))
      then [join (nl +:+ nl) (tableWithIndexes ctx)] else [])
  ++ (if decide (0 < length (perInstanceIndexSql ctx))
      then [join (nl +:+ nl) (perInstanceIndexSql ctx)] else []).

Definition assemble (ctx : GeneratorContext) : string :=
  "-- Generated SQL from Schema DSL" +:+ nl +:+ nl +:+ join (nl +:+ nl) (sections ctx) +:+ nl.

(** [generate]: a fresh context, the two passes, the assembly.  [depth] is
    the room the call stack leaves to [resolveMixins]. *)
Definition generate (depth : nat) (ast : GSQLProgram) : Result string :=
  let ctx := createContext in
  let ctx := collectDefinitions ast ctx in
  ctx ← processDeclarations depth (declarations ast) ctx;
  Ok (assemble ctx).

End Generator.

(* ===================================================================== *)
(** ** The entry points: parse (parser.ts) and compile                    *)
(* ===================================================================== *)

Module Compiler.
Import Js Ast.

(** The token a syntax error points at, with the fields [parse] reads. *)
Record ErrorToken := {
  tk_startLine : option JsNumber;
  tk_startColumn : option JsNumber;
  tk_startOffset : JsNumber;
  tk_endLine : option JsNumber;
  tk_endColumn : option JsNumber;
  tk_endOffset : option JsNumber;
}.

Record IRecognitionException := {
  exc_message : string;
  exc_token : ErrorToken;
}.

(** What the run-time supplies and the sources only call: the parsing
    engine behind [parserInstance.program()], as a function of the token
    vector it was given; the visitor that turns its tree into a program; the
    line, the column and the message the lexer engine reports for a run of
    unexpected characters; and the depth the call stack allows. *)
Record Engine := {
  CstNode : Type;
  program : list Lexer.IToken -> CstNode * list IRecognitionException;
  visit : CstNode -> GSQLProgram;
  errorLineColumn : string -> nat -> nat * nat;
  unexpectedCharactersMessage : string -> nat -> nat -> string;
  stackDepth : nat;
}.

(** [parserInstance], created once for the module and used by every call:
    the token vector it holds and the errors of its last run. *)
Record ParserInstance := {
  input : list Lexer.IToken;
  parserErrors : list IRecognitionException;
}.

(** [parserInstance.input = tokens]: the setter resets the parser. *)
Definition setInput (toks : list Lexer.IToken) (_ : ParserInstance) : ParserInstance :=
  {| input := toks; parserErrors := [] |}.

(** [parserInstance.program()]. *)
Definition runProgram (E : Engine) (p : ParserInstance) : CstNode E * ParserInstance :=
  let '(cst, errs) := program E (input p) in
  (cst, {| input := input p; parserErrors := parserErrors p ++ errs |}).

Record ParseResult := {
  pr_ast : option GSQLProgram;
  pr_errors : list CompileError;
}.

Definition lexErrorToCompileError (E : Engine) (source : string) (error : Lexer.ILexingError)
  : CompileError :=
  let '(line, column) := errorLineColumn E source (Lexer.err_offset error) in
  let pos := {| pos_line := Num line; pos_column := Num column;
                pos_offset := Num (Lexer.err_offset error) |} in
  {| message := unexpectedCharactersMessage E source (Lexer.err_offset error)
                                            (Lexer.err_length error);
     location := Some {| loc_start := pos; loc_end := pos |};
     severity := "error" |}.

Definition parseErrorToCompileError (error : IRecognitionException) : CompileError :=
  let token := exc_token error in
  {| message := exc_message error;
     location := Some {|
       loc_start := {| pos_line := default (Num 0) (tk_startLine token);
                       pos_column := default (Num 0) (tk_startColumn token);
                       pos_offset := tk_startOffset token |};
       loc_end := {| pos_line := default (Num 0) (tk_endLine token);
                     pos_column := default (Num 0) (tk_endColumn token);
                     pos_offset := default (tk_startOffset token) (tk_endOffset token) |} |};
     severity := "error" |}.

(** [parse(source)], threading the shared parser instance. *)
Definition parse (E : Engine) (source : string) (parserInstance : ParserInstance)
  : ParseResult * ParserInstance :=
  let lexResult := Lexer.tokenize source in
  let errors := map (lexErrorToCompileError E source) (Lexer.errors lexResult) in
  if decide (0 < length errors) then
    ({| pr_ast := None; pr_errors := errors |}, parserInstance)
  else
    let parserInstance := setInput (Lexer.tokens lexResult) parserInstance in
    let '(cst, parserInstance) := runProgram E parserInstance in
    let errors := errors ++ map parseErrorToCompileError (parserErrors parserInstance) in
    if decide (0 < length errors) then
      ({| pr_ast := None; pr_errors := errors |}, parserInstance)
    else
      ({| pr_ast := Some (visit E cst); pr_errors := errors |}, parserInstance).

(** [error instanceof Error ? error.message : String(error)]. *)
Definition thrownMessage (error : Thrown) : string :=
  match error with
  | ErrorObject _ msg => msg
  | OtherValue text => text
  end.

(** [compile(source)]. *)
Definition compile (E : Engine) (source : string) (parserInstance : ParserInstance)
  : CompileResult * ParserInstance :=
  let '(parseResult, parserInstance) := parse E source parserInstance in
  if decide (0 < length (pr_errors parseResult)) then
    ({| success := false; sql := None; errors := pr_errors parseResult;
        ast := pr_ast parseResult |}, parserInstance)
  else
    match pr_ast parseResult with
    | None =>
      ({| success := false; sql := None;
          errors := [{| message := "Failed to parse source code"; location := None;
                        severity := "error" |}];
          ast := None |}, parserInstance)
    | Some program =>
      match Generator.generate (stackDepth E) program with
      | Ok text =>
        ({| success := true; sql := Some text; errors := []; ast := Some program |},
         parserInstance)
      | Throw error =>
        ({| success := false; sql := None;
            errors := [{| message := "Code generation failed: " +:+ thrownMessage error;
                          location := None; severity := "error" |}];
            ast := Some program |}, parserInstance)
      end
    end.

(** [compileToSQL(source)]: the SQL text, or a throw with all messages. *)
Definition compileToSQL (E : Engine) (source : string) (parserInstance : ParserInstance)
  : Result string * ParserInstance :=
  let '(result, parserInstance) := compile E source parserInstance in
  match sql result with
  | Some text =>
    if success result && truthy text then (Ok text, parserInstance)
    else (Throw (ErrorObject "Error"
                   ("Compilation failed:" +:+ nl +:+ join nl (map message (errors result)))),
          parserInstance)
  | None =>
    (Throw (ErrorObject "Error"
              ("Compilation failed:" +:+ nl +:+ join nl (map message (errors result)))),
     parserInstance)
  end.

End Compiler.

(* ===================================================================== *)
(** ** Mixin flattening, as the specification words it                    *)
(* ===================================================================== *)

Module Spec.
Import Js Ast Generator.


(** [w] as a whole is matched by a pattern that has a [longer_alt]: a
    keyword, a data type, [true], [false] or [null]. *)
Definition isReservedWord (w : string) : bool :=
  existsb (fun tokType =>
             match Lexer.longer_alt tokType, Lexer.exec (Lexer.pattern tokType) w with
             | Some _, Some n => (n =? String.length w)%nat
             | _, _ => false
             end) Lexer.allTokens.

(** A valid identifier: the identifier pattern matches the whole word, and
    the word is not reserved. *)
Definition validIdentifier (w : string) : bool :=
  Lexer.isIdentifier w && negb (isReservedWord w).

(** A pattern that cannot start where an identifier starts. *)
Definition Blind (tokType : Lexer.TokenType) : Prop :=
  forall c rest, Lexer.isIdentStart c = true -> Lexer.exec (Lexer.pattern tokType) (String c rest) = None.

(** A pattern backed by the identifier pattern, whose token is kept. *)
Definition Guarded (tokType : Lexer.TokenType) : Prop :=
  Lexer.longer_alt tokType = Some Lexer.Identifier
  /\ Lexer.skipped tokType = false
  /\ forall s n, Lexer.exec (Lexer.pattern tokType) s = Some n -> n <= String.length s.

(** The tokens in front of [Identifier] in the token array. *)
Definition beforeIdentifier : list Lexer.TokenType := firstn 71 Lexer.allTokens.

(** [decl] puts [name] into the concept table or into the schema table. *)
Definition declares (name : string) (decl : TopLevelDeclaration) : Prop :=
  match decl with
  | DConcept d => concept_name d = name
  | DSchema d => schema_name d = name
  | _ => False
  end.


(** The mixin references of the collected schemas go down along [rank]:
    no chain of mixins returns to where it started. *)
Definition Acyclic (ctx : GeneratorContext) (rank : string -> nat) : Prop :=
  forall name schema mixinName mixin,
    schemas ctx !! name = Some schema ->
    mixinName ∈ schema_mixins schema ->
    schemas ctx !! mixinName = Some mixin ->
    rank mixinName < rank name.

(** The schemas a program declares at top level, which are the ones the
    schema table can hold, and all its schemas, those of its concepts
    included, which are the ones mixin resolution can be asked about. *)
Definition topLevelSchemas (ast : GSQLProgram) : list SchemaDecl :=
  omap (fun d => match d with DSchema s => Some s | _ => None end) (declarations ast).

Definition programConcepts (ast : GSQLProgram) : list ConceptDecl :=
  omap (fun d => match d with DConcept c => Some c | _ => None end) (declarations ast).

Definition programSchemas (ast : GSQLProgram) : list SchemaDecl :=
  topLevelSchemas ast ++ flat_map conceptSchemas (programConcepts ast).

(** The same for a program: no top-level schema reaches itself through the
    mixins of top-level schemas. *)
Definition ProgramAcyclic (ast : GSQLProgram) (rank : string -> nat) : Prop :=
  forall schema mixin,
    schema ∈ topLevelSchemas ast ->
    mixin ∈ topLevelSchemas ast ->
    schema_name mixin ∈ schema_mixins schema ->
    rank (schema_name mixin) < rank (schema_name schema).

(** What the tables of the context hold comes from the program. *)
Definition fromProgram (ast : GSQLProgram) (ctx : GeneratorContext) : Prop :=
  (forall name schema, schemas ctx !! name = Some schema ->
     schema ∈ topLevelSchemas ast /\ schema_name schema = name)
  /\ (forall name concept, concepts ctx !! name = Some concept ->
        concept ∈ programConcepts ast).

(** A stack depth that suffices for a program ranked by [rank]. *)
Definition mixinDepth (ast : GSQLProgram) (rank : string -> nat) : nat :=
  S (max_list (rank <$> flat_map schema_mixins (programSchemas ast))).

End Spec.

(* ===================================================================== *)
(** ** Sample programs                                                    *)
(* ===================================================================== *)

Module Samples.
Import Js Ast Generator.

Definition constraint (t : ConstraintType) : ColumnConstraint :=
  {| c_type := t; c_value := None; c_table := None; c_column := None; c_action := None |}.

Definition defaultOf (v : string) : ColumnConstraint :=
  {| c_type := Default; c_value := Some v; c_table := None; c_column := None;
     c_action := None |}.

Definition column (n t : string) (cs : list ColumnConstraint) : SchemaBodyItem :=
  ItemColumn {| col_name := n; col_dataType := t; col_constraints := cs |}.

Definition target (t : string) (a : option string) : TypeArg :=
  {| arg_tableName := t; arg_alias := a |}.

Definition schema (n : string) (mixins : list string) (members : list SchemaBodyItem)
  : SchemaDecl :=
  {| schema_name := n; schema_mixins := mixins; schema_members := members;
     schema_conceptScope := None |}.



Definition stateColumn : ColumnDef :=
  {| col_name := "state"; col_dataType := "status"; col_constraints := [] |}.

(** [schema Timestamps { created_at timestamptz; }] and
    [schema Users mixin Timestamps { id serial pkey; }], then [users = Users;]. *)
Definition createdAt : SchemaBodyItem := column "created_at" "timestamptz" [].
Definition idSerial : SchemaBodyItem := column "id" "serial" [constraint PrimaryKey].

Definition timestamps : SchemaDecl := schema "Timestamps" [] [createdAt].
Definition users : SchemaDecl := schema "Users" ["Timestamps"] [idSerial].

Definition usersProgram : GSQLProgram := {| declarations := [
  DSchema timestamps;
  DSchema users;
  DInstantiation {| inst_targets := [target "users" None]; inst_conceptName := "Users";
                    inst_typeArgs := [] |}
] |}.


Definition usersRank (name : string) : nat :=
  if decide (name = "Users") then 1 else 0.



(** [schema Loop mixin Loop { id serial pkey; }], then [loops = Loop;]. *)
Definition selfMixin : SchemaDecl := schema "Loop" ["Loop"] [idSerial].

Definition cyclicProgram : GSQLProgram := {| declarations := [
  DSchema selfMixin;
  DInstantiation {| inst_targets := [target "loops" None]; inst_conceptName := "Loop";
                    inst_typeArgs := [] |}
] |}.

Definition cyclicContext : GeneratorContext :=
  collectDefinitions cyclicProgram createContext.

(** [ghosts = Ghost;] where nothing is called [Ghost]. *)
Definition ghostInstantiation : Instantiation :=
  {| inst_targets := [target "ghosts" None]; inst_conceptName := "Ghost";
     inst_typeArgs := [] |}.

(** [concept Announcing<Target> { schema Announcements { {Target}_id integer; } }]
    instantiated as [exam_announcements = Announcing<exams[examLOL]>;]. *)
Definition targetId : SchemaBodyItem := column "{Target}_id" "integer" [].

Definition announcing : ConceptDecl :=
  {| concept_name := "Announcing"; concept_typeParams := ["Target"];
     concept_members := [MemberSchema (schema "Announcements" [] [targetId])] |}.

Definition examAnnouncements : Instantiation :=
  {| inst_targets := [target "exam_announcements" None]; inst_conceptName := "Announcing";
     inst_typeArgs := [target "exams" (Some "examLOL")] |}.

Definition announcingContext : GeneratorContext :=
  collectDefinitions {| declarations := [DConcept announcing] |} createContext.

(** [concept Authoring<Author> { schema Books { {Author}_id integer; } }]
    instantiated as [books = Authoring<authors>;], without an alias. *)
Definition authoring : ConceptDecl :=
  {| concept_name := "Authoring"; concept_typeParams := ["Author"];
     concept_members :=
       [MemberSchema (schema "Books" [] [column "{Author}_id" "integer" []])] |}.

Definition books : Instantiation :=
  {| inst_targets := [target "books" None]; inst_conceptName := "Authoring";
     inst_typeArgs := [target "authors" None] |}.

(** [concept Tagging<Target> { schema Target { {Target}_id integer; } }]: the
    member schema has the name of the type parameter.
    [tags = Tagging<posts[post]>;]. *)
Definition tagging : ConceptDecl :=
  {| concept_name := "Tagging"; concept_typeParams := ["Target"];
     concept_members := [MemberSchema (schema "Target" [] [targetId])] |}.

Definition tags : Instantiation :=
  {| inst_targets := [target "tags" None]; inst_conceptName := "Tagging";
     inst_typeArgs := [target "posts" (Some "post")] |}.

Definition taggingProgram : GSQLProgram :=
  {| declarations := [DConcept tagging; DInstantiation tags] |}.

(** A concept instantiation, then a schema with a template column
    instantiated directly:
    [schema Notes { {Target}_id integer; }] and [notes = Notes;]. *)
Definition notes : SchemaDecl := schema "Notes" [] [targetId].

Definition notesInstantiation : Instantiation :=
  {| inst_targets := [target "notes" None]; inst_conceptName := "Notes";
     inst_typeArgs := [] |}.




(** The program of the test "generates per-instance index with WHERE clause". *)
Definition questions : SchemaDecl :=
  schema "Questions" []
    [idSerial; column "assessment_id" "integer" []; column "position" "integer" [];
     column "deleted_at" "timestamptz" []].

Definition questionsIndex : PerInstanceIndex :=
  {| pii_tableName := "questions"; pii_columns := ["assessment_id"; "position"];
     pii_unique := Some true; pii_using := None; pii_where := Some "deleted_at is null" |}.

Definition questionsProgram : GSQLProgram := {| declarations := [
  DSchema questions;
  DInstantiation {| inst_targets := [target "questions" None];
                    inst_conceptName := "Questions"; inst_typeArgs := [] |};
  DPerInstanceIndex questionsIndex
] |}.

(** [enum user_role { admin; user; }], a schema with a column of that type that
    defaults to [user], and [users = Users;]. *)
Definition rolesProgram : GSQLProgram := {| declarations := [
  DEnum {| enum_name := "user_role"; enum_values := ["admin"; "user"];
           enum_conceptScope := None |};
  DSchema (schema "Users" []
             [idSerial;
              column "role" "user_role" [constraint NotNull; defaultOf "user"]]);
  DInstantiation {| inst_targets := [target "users" None]; inst_conceptName := "Users";
                    inst_typeArgs := [] |}
] |}.

(** [posts = Posts;] and then
    [post_announcements = Announcing<posts[post]>;] for a concept whose
    member has the column [{Target}_id integer ref(Target.id)]. *)
Definition referencingProgram : GSQLProgram := {| declarations := [
  DSchema (schema "Posts" [] [idSerial]);
  DConcept {| concept_name := "Announcing"; concept_typeParams := ["Target"];
              concept_members :=
                [MemberSchema
                   (schema "Announcements" []
                      [column "{Target}_id" "integer"
                         [{| c_type := Reference; c_value := None;
                             c_table := Some "Target"; c_column := Some "id";
                             c_action := None |}]])] |};
  DInstantiation {| inst_targets := [target "posts" None]; inst_conceptName := "Posts";
                    inst_typeArgs := [] |};
  DInstantiation {| inst_targets := [target "post_announcements" None];
                    inst_conceptName := "Announcing";
                    inst_typeArgs := [target "posts" (Some "post")] |}
] |}.

(** The text of [cyclicProgram], an engine whose parser accepts it and whose
    visitor builds it, and the parser instance before any call. *)
Definition cyclicSource : string :=
  "schema Loop mixin Loop { id serial pkey; } loops = Loop;".

Definition cyclicEngine : Compiler.Engine := {|
  Compiler.CstNode := unit;
  Compiler.program := fun _ => (tt, []);
  Compiler.visit := fun _ => cyclicProgram;
  Compiler.errorLineColumn := fun _ _ => (1, 1);
  Compiler.unexpectedCharactersMessage := fun _ _ _ => "unexpected character";
  Compiler.stackDepth := 1000;
|}.

Definition freshParser : Compiler.ParserInstance :=
  {| Compiler.input := []; Compiler.parserErrors := [] |}.

End Samples.

(* ===================================================================== *)
(** ** The command line (cli.ts)                                          *)
(* ===================================================================== *)

Module Cli.
Import Js Ast Compiler.

Record CLIOptions := {
  command : string;
  inputFile : string;
  outputFile : option string;
  verbose : bool;
  help : bool;
  version : bool;
}.

Definition HELP_TEXT : string :=
  EmptyString +:+ nl
  +:+ "GSQL - Generic SQL Compiler" +:+ nl
  +:+ "Parametric polymorphism for SQL schemas" +:+ nl
  +:+ EmptyString +:+ nl
  +:+ "Usage:" +:+ nl
  +:+ "  gsql compile <file.gsql> [-o output.sql]" +:+ nl
  +:+ "  gsql --help" +:+ nl
  +:+ "  gsql --version" +:+ nl
  +:+ EmptyString +:+ nl
  +:+ "Commands:" +:+ nl
  +:+ "  compile    Compile a GSQL file to SQL" +:+ nl
  +:+ EmptyString +:+ nl
  +:+ "Options:" +:+ nl
  +:+ "  -o, --output <file>   Write output to file (default: stdout)" +:+ nl
  +:+ "  -v, --verbose         Show verbose output" +:+ nl
  +:+ "  -h, --help            Show this help message" +:+ nl
  +:+ "  --version             Show version number" +:+ nl
  +:+ EmptyString +:+ nl
  +:+ "Examples:" +:+ nl
  +:+ "  gsql compile schema.gsql" +:+ nl
  +:+ "  gsql compile schema.gsql -o schema.sql" +:+ nl
  +:+ "  gsql compile schema.gsql > schema.sql" +:+ nl.

(** Assignments to one field of the options. *)
Definition set_command (v : string) (o : CLIOptions) : CLIOptions :=
  {| command := v; inputFile := inputFile o; outputFile := outputFile o;
     verbose := verbose o; help := help o; version := version o |}.
Definition set_inputFile (v : string) (o : CLIOptions) : CLIOptions :=
  {| command := command o; inputFile := v; outputFile := outputFile o;
     verbose := verbose o; help := help o; version := version o |}.
Definition set_outputFile (v : option string) (o : CLIOptions) : CLIOptions :=
  {| command := command o; inputFile := inputFile o; outputFile := v;
     verbose := verbose o; help := help o; version := version o |}.
Definition set_verbose (v : bool) (o : CLIOptions) : CLIOptions :=
  {| command := command o; inputFile := inputFile o; outputFile := outputFile o;
     verbose := v; help := help o; version := version o |}.
Definition set_help (v : bool) (o : CLIOptions) : CLIOptions :=
  {| command := command o; inputFile := inputFile o; outputFile := outputFile o;
     verbose := verbose o; help := v; version := version o |}.
Definition set_version (v : bool) (o : CLIOptions) : CLIOptions :=
  {| command := command o; inputFile := inputFile o; outputFile := outputFile o;
     verbose := verbose o; help := help o; version := v |}.

(** The branch of the loop for an argument that is no option. *)
Definition positional (arg : string) (options : CLIOptions) : CLIOptions :=
  if negb (truthy (command options)) then set_command arg options
  else if negb (truthy (inputFile options)) then set_inputFile arg options
  else options.

(** The loop of [parseArgs] over what lies at [parser.index] and behind it:
    [parser.next()] moves on to the argument behind the current one, and is
    [undefined] once the arguments are used up. *)
Fixpoint parseArgsFrom (args : list string) (options : CLIOptions) : CLIOptions :=
  match args with
  | [] => options
  | arg :: rest =>
    if negb (truthy arg) then parseArgsFrom rest options
    else if String.eqb arg "-h" || String.eqb arg "--help"
    then parseArgsFrom rest (set_help true options)
    else if String.eqb arg "--version" then parseArgsFrom rest (set_version true options)
    else if String.eqb arg "-v" || String.eqb arg "--verbose"
    then parseArgsFrom rest (set_verbose true options)
    else if String.eqb arg "-o" || String.eqb arg "--output" then
      match rest with
      | nextArg :: rest' =>
        parseArgsFrom rest'
          (if truthy nextArg then set_outputFile (Some nextArg) options else options)
      | [] => options
      end
    else if negb (startsWith "-" arg) then parseArgsFrom rest (positional arg options)
    else parseArgsFrom rest options
  end.

Definition parseArgs (args : list string) : CLIOptions :=
  parseArgsFrom args
    {| command := EmptyString; inputFile := EmptyString; outputFile := None;
       verbose := false; help := false; version := false |}.

(** A number in a template literal. *)
Definition numberText (n : JsNumber) : string :=
  match n with
  | Num k => pretty k
  | NaN => "NaN"
  end.

Definition formatError (message : string) (line column : option JsNumber) : string :=
  match line, column with
  | Some l, Some c =>
    "Error [" +:+ numberText l +:+ ":" +:+ numberText c +:+ "]: " +:+ message
  | _, _ => "Error: " +:+ message
  end.

(** What the process does to the outside, in order. *)
Inductive Effect :=
| ConsoleLog (text : string)
| ConsoleError (text : string)
| FileWritten (path content : string).

(** How a run ends: [None] when [main] returns, the code of [process.exit]
    otherwise. *)
Record Run := {
  effects : list Effect;
  exitCode : option nat;
}.

(** The host: the version read from [package.json], path resolution against
    the working directory, and the file system. *)
Record Host := {
  VERSION : string;
  resolve : string -> string;
  basename : string -> string;
  existsSync : string -> bool;
  readFileSync : string -> Result string;
  writeFileSync : string -> string -> Result unit;
}.

Definition reportError (error : CompileError) : Effect :=
  ConsoleError
    (formatError (message error)
       (pos_line <$> (loc_start <$> location error))
       (pos_column <$> (loc_start <$> location error))).

Definition main (E : Engine) (host : Host) (args : list string)
  (parserInstance : ParserInstance) : Run :=
  let options := parseArgs args in
  if help options then {| effects := [ConsoleLog HELP_TEXT]; exitCode := Some 0 |}
  else if version options then
    {| effects := [ConsoleLog ("gsql version " +:+ VERSION host)]; exitCode := Some 0 |}
  else if negb (truthy (command options)) then
    {| effects := [ConsoleError "Error: No command specified"; ConsoleLog HELP_TEXT];
       exitCode := Some 1 |}
  else if negb (String.eqb (command options) "compile") then
    {| effects := [ConsoleError ("Error: Unknown command '" +:+ command options +:+ "'");
                   ConsoleLog HELP_TEXT];
       exitCode := Some 1 |}
  else if negb (truthy (inputFile options)) then
    {| effects := [ConsoleError "Error: No input file specified"; ConsoleLog HELP_TEXT];
       exitCode := Some 1 |}
  else
    let inputPath := resolve host (inputFile options) in
    if negb (existsSync host inputPath) then
      {| effects := [ConsoleError ("Error: File not found: " +:+ inputFile options)];
         exitCode := Some 1 |}
    else
      match readFileSync host inputPath with
      | Throw err =>
        {| effects := [ConsoleError ("Error reading file: " +:+ thrownMessage err)];
           exitCode := Some 1 |}
      | Ok source =>
        let announced :=
          if verbose options
          then [ConsoleError ("Compiling " +:+ basename host inputPath +:+ "...")]
          else [] in
        let result := (compile E source parserInstance).1 in
        if negb (success result) then
          {| effects := announced ++ map reportError (errors result); exitCode := Some 1 |}
        else
          match outputFile options with
          | Some out =>
            if truthy out then
              let outputPath := resolve host out in
              match writeFileSync host outputPath (default EmptyString (sql result)) with
              | Ok _ =>
                {| effects :=
                     announced
                     ++ [FileWritten outputPath (default EmptyString (sql result))]
                     ++ (if verbose options
                         then [ConsoleError ("Output written to " +:+ out)] else []);
                   exitCode := None |}
              | Throw err =>
                {| effects :=
                     announced
                     ++ [ConsoleError ("Error writing file: " +:+ thrownMessage err)];
                   exitCode := Some 1 |}
              end
            else
              {| effects := announced ++ [ConsoleLog (default "undefined" (sql result))];
                 exitCode := None |}
          | None =>
            {| effects := announced ++ [ConsoleLog (default "undefined" (sql result))];
               exitCode := None |}
          end
      end.

End Cli.

(* ===================================================================== *)
(** ** Notions the further properties are stated with                     *)
(* ===================================================================== *)

Module LexerNotions.
Import Js Lexer.

(** A pattern that never matches the empty text, nor beyond the input. *)
Definition Bounded (tokType : TokenType) : Prop :=
  forall s n, exec (pattern tokType) s = Some n -> 0 < n <= String.length s.

(** A token of a scan that starts at [offset] with [skip] characters still
    to pass over: its kind, that it is kept, and where its text lies. *)
Record Placed (offset skip : nat) (text : string) (tok : IToken) : Prop := {
  placed_kind : tokenType tok ∈ allTokens;
  placed_kept : skipped (tokenType tok) = false;
  placed_nonempty : 0 < String.length (image tok);
  placed_start : offset + skip <= startOffset tok;
  placed_end : startOffset tok + String.length (image tok) <= offset + String.length text;
  placed_slice :
    take (String.length (image tok)) (drop (startOffset tok - offset) text) = image tok;
}.

(** Tokens in the order of the input, none reaching into the next. *)
Definition InOrder (toks : list IToken) : Prop :=
  forall i j t1 t2, i < j -> toks !! i = Some t1 -> toks !! j = Some t2 ->
    startOffset t1 + String.length (image t1) <= startOffset t2.

(** What a pattern can match at the head of a word in some spelling of its
    letters, told from the lower-cased word. *)
Definition foldedMatch (tokType : TokenType) (lw : string) : option nat :=
  match pattern tokType with
  | Exact text =>
    if startsWith (toLowerCase text) lw then Some (String.length text) else None
  | NoCase text => execNoCase text lw
  | Regex f => f lw
  end.

(** The name of the first pattern of [toks] with a folded match on [lw]. *)
Fixpoint firstFolded (toks : list TokenType) (lw : string) : option (string * nat) :=
  match toks with
  | [] => None
  | tokType :: rest =>
    match foldedMatch tokType lw with
    | Some n => Some (name tokType, n)
    | None => firstFolded rest lw
    end
  end.

(** The pattern called [kind] is the first of the token array with a folded
    match on the word [lw], and matches all of it. *)
Definition firstWhole (kind lw : string) : bool :=
  match firstFolded allTokens lw with
  | Some (nm, n) => String.eqb nm kind && (n =? String.length lw)%nat
  | None => false
  end.

(** No pattern of [toks] other than the one called [kind] has a folded match
    on the whole of [lw]. *)
Definition onlyWhole (kind : string) (toks : list TokenType) (lw : string) : bool :=
  forallb (fun tokType =>
             match foldedMatch tokType lw with
             | Some n => negb (n =? String.length lw)%nat || String.eqb (name tokType) kind
             | None => true
             end) toks.

(** A pattern whose matches survive lower-casing the input. *)
Definition Folds (tokType : TokenType) : Prop :=
  forall w n, exec (pattern tokType) w = Some n ->
              foldedMatch tokType (toLowerCase w) = Some n.

(** [w] is lexed without error as one token of the kind called [kind] that
    spells all of it. *)
Definition lexesAs (kind w : string) : bool :=
  match tokenize w with
  | {| tokens := [tok]; errors := [] |} =>
    String.eqb (image tok) w && (startOffset tok =? 0)%nat
    && String.eqb (name (tokenType tok)) kind
  | _ => false
  end.

(** The text behind a word: nothing, or a character that is no word
    character. *)
Definition wordEnds (post : string) : bool :=
  match post with
  | EmptyString => true
  | String c _ => negb (isWord c)
  end.

(** The scanning loop, started on [pre +:+ rest] with [skip] characters to
    pass over, comes to stand at the head of [rest]: no match begun in [pre]
    reaches beyond it. *)
Fixpoint standsAt (tokens : list TokenType) (skip : nat) (pre rest : string) : bool :=
  match pre with
  | EmptyString => (skip =? 0)%nat
  | String _ pre' =>
    match skip with
    | S k => standsAt tokens k pre' rest
    | 0 =>
      match matchAt tokens (pre +:+ rest) with
      | Some (_, n) => standsAt tokens (n - 1) pre' rest
      | None => standsAt tokens 0 pre' rest
      end
    end
  end.

(** A pattern backed by the identifier pattern that matches inside a word:
    what it matches of a word and the text behind it, it matches of the
    word alone; [double precision] is the one pattern that goes on behind
    the word [double]. *)
Definition Worded (tokType : TokenType) : Prop :=
  longer_alt tokType = Some Identifier
  /\ forall w post n,
       allChars isWord w = true -> wordEnds post = true ->
       exec (pattern tokType) (w +:+ post) = Some n ->
       (n <= String.length w /\ exec (pattern tokType) w = Some n)
       \/ toLowerCase w = "double".

End LexerNotions.

Module GeneratorNotions.
Import Js Ast Generator.

(** [s] without its underscores. *)
Fixpoint withoutUnderscores (s : string) : string :=
  match s with
  | EmptyString => EmptyString
  | String c s' =>
    if (code c =? 95)%nat then withoutUnderscores s' else String c (withoutUnderscores s')
  end.

(** A character other than the opening brace, and one that is neither an
    opening brace nor the dollar of a replacement pattern. *)
Definition notBrace (c : ascii) : bool := negb (code c =? 123)%nat.
Definition plain (c : ascii) : bool := negb (code c =? 123)%nat && negb (code c =? 36)%nat.



(** A declaration of a schema or of a concept: a template, not a table. *)
Definition isTemplate (decl : TopLevelDeclaration) : bool :=
  match decl with
  | DSchema _ | DConcept _ => true
  | _ => false
  end.

(** A declaration of an extension or of a function: each goes to a section
    of its own at the head of the output. *)
Definition isPreamble (decl : TopLevelDeclaration) : bool :=
  match decl with
  | DExtension _ | DFunction _ => true
  | _ => false
  end.

(** [ctx] with other extension and function statements. *)
Definition withPreamble (extensions functions : list string) (ctx : GeneratorContext)
  : GeneratorContext :=
  set_functionSql functions (set_extensionSql extensions ctx).

(** [decl] with other targets and type arguments. *)
Definition withArguments (decl : Instantiation) (targets : list InstantiationTarget)
  (typeArgs : list TypeArg) : Instantiation :=
  {| inst_targets := targets; inst_conceptName := inst_conceptName decl;
     inst_typeArgs := typeArgs |}.

(** The statement [generateTableSql] pushes for a table, from its name and
    the lines of its body. *)
Definition createTable (table : string * string) : string :=
  "CREATE TABLE " +:+ table.1 +:+ " (" +:+ nl +:+ table.2 +:+ nl +:+ ");".

(** The statement [generateEnumSql] pushes for an enum, from its name and
    its quoted values. *)
Definition createType (enum : string * string) : string :=
  "DO $$ BEGIN" +:+ nl
  +:+ "    CREATE TYPE " +:+ enum.1 +:+ " AS ENUM (" +:+ enum.2 +:+ ");" +:+ nl
  +:+ "EXCEPTION" +:+ nl
  +:+ "    WHEN duplicate_object THEN null;" +:+ nl
  +:+ "END $$;".

(** Two contexts with the same statements and the same record of what has
    been generated. *)
Definition sameOutput (c c' : GeneratorContext) : Prop :=
  enumSql c' = enumSql c /\ tableSql c' = tableSql c /\ indexSql c' = indexSql c
  /\ triggerSql c' = triggerSql c /\ extensionSql c' = extensionSql c
  /\ functionSql c' = functionSql c /\ perInstanceIndexSql c' = perInstanceIndexSql c
  /\ generatedEnums c' = generatedEnums c /\ generatedTables c' = generatedTables c.

(** The tables and the enums generated so far: one statement for each name
    recorded as generated, and no name twice. *)
Definition CreatedOnce (ctx : GeneratorContext) : Prop :=
  (exists tables : list (string * string),
     NoDup tables.*1 /\ tableSql ctx = createTable <$> tables
     /\ forall name, name ∈ tables.*1 <-> name ∈ generatedTables ctx)
  /\ (exists enums : list (string * string),
        NoDup enums.*1 /\ enumSql ctx = createType <$> enums
        /\ forall name, name ∈ enums.*1 <-> name ∈ generatedEnums ctx).

(** The table a template declaration is collected into holds it under its
    name. *)
Definition collected (decl : TopLevelDeclaration) (ctx : GeneratorContext) : Prop :=
  match decl with
  | DSchema d => schemas ctx !! schema_name d = Some d
  | DConcept d => concepts ctx !! concept_name d = Some d
  | _ => False
  end.


End GeneratorNotions.

Module CliNotions.
Import Js Cli.

(** [-o] and [--output]. *)
Definition isOutputFlag (arg : string) : bool :=
  String.eqb arg "-o" || String.eqb arg "--output".

(** The arguments that are no options: not empty, and no dash in front. *)
Definition positionals (args : list string) : list string :=
  List.filter (fun arg => truthy arg && negb (startsWith "-" arg)) args.

End CliNotions.

(* ===================================================================== *)
(** ** Further sample inputs                                              *)
(* ===================================================================== *)

Module Inputs.
Import Js Ast Generator.

(** The context at the end of the second pass over [Samples.usersProgram]. *)
Definition usersFinal : GeneratorContext :=
  match processDeclarations 2 (declarations Samples.usersProgram)
          (collectDefinitions Samples.usersProgram createContext) with
  | Ok ctx => ctx
  | Throw _ => createContext
  end.

(** A context in which [Target] stands for [post]. *)
Definition postContext : GeneratorContext :=
  set_templateSubs [("Target", "post")] createContext.



(** [a, b = Announcing<exams[exam], quizzes>;]: one target and one type
    argument more than the concept has schemas and parameters; and
    [users, admins = Users;]. *)
Definition crowded : Instantiation :=
  {| inst_targets := [Samples.target "a" None; Samples.target "b" None];
     inst_conceptName := "Announcing";
     inst_typeArgs := [Samples.target "exams" (Some "exam"); Samples.target "quizzes" None] |}.

Definition usersAndAdmins : Instantiation :=
  {| inst_targets := [Samples.target "users" None; Samples.target "admins" None];
     inst_conceptName := "Users"; inst_typeArgs := [] |}.

(** An engine whose parser accepts every token vector and whose visitor
    builds [Samples.usersProgram]; a host with one readable file, whatever
    its path, and a disk that takes every write. *)
Definition usersEngine : Compiler.Engine := {|
  Compiler.CstNode := unit;
  Compiler.program := fun _ => (tt, []);
  Compiler.visit := fun _ => Samples.usersProgram;
  Compiler.errorLineColumn := fun _ _ => (1, 1);
  Compiler.unexpectedCharactersMessage := fun _ _ _ => "unexpected character";
  Compiler.stackDepth := 100;
|}.

Definition usersSource : string :=
  "schema Timestamps { created_at timestamptz; } "
  +:+ "schema Users mixin Timestamps { id serial pkey; } users = Users;".

Definition usersHost : Cli.Host := {|
  Cli.VERSION := "0.1.0";
  Cli.resolve := fun path => "/work/" +:+ path;
  Cli.basename := fun path => path;
  Cli.existsSync := fun _ => true;
  Cli.readFileSync := fun _ => Ok usersSource;
  Cli.writeFileSync := fun _ _ => Ok tt;
|}.





End Inputs.

(* ===================================================================== *)
(** ** Facts about the string operations                                  *)
(* ===================================================================== *)

Module JsFacts.
Import Js.

Lemma append_empty (t : string) : EmptyString +:+ t = t.
Proof. reflexivity. Qed.

Lemma append_cons (c : ascii) (s t : string) : String c s +:+ t = String c (s +:+ t).
Proof. reflexivity. Qed.


Lemma drop_append (s t : string) : drop (String.length s) (s +:+ t) = t.
Proof. induction s as [|c s IH]; simpl; [by destruct t | exact IH]. Qed.

Lemma takeWhile_app_stop (p : ascii -> bool) (s t : string) :
  allChars p s = true ->
  match t with String c _ => p c = false | EmptyString => True end ->
  takeWhile p (s +:+ t) = s.
Proof.
  intros Hs Ht. induction s as [|c s IH]; simpl in *.
  - destruct t as [|d t]; [reflexivity | simpl; by rewrite Ht].
  - apply andb_prop in Hs as [Hc Hs]. rewrite Hc. by rewrite IH.
Qed.


Lemma startsWith_app (s t : string) : startsWith s (s +:+ t) = true.
Proof.
  induction s as [|c s IH]; [by destruct t|].
  rewrite append_cons. simpl. by rewrite Ascii.eqb_refl.
Qed.




(** Facts about single characters, by running through all of them. *)
Ltac each_char c := destruct c as [[] [] [] [] [] [] [] []]; vm_compute; try done.



End JsFacts.

(* ===================================================================== *)
(** ** Facts about the generator                                          *)
(* ===================================================================== *)

Module GeneratorFacts.
Import Js Ast Generator JsFacts.





Lemma append_assoc (a b c : string) : (a +:+ b) +:+ c = a +:+ b +:+ c.
Proof. induction a as [|x a IH]; [done|]. rewrite !append_cons. by rewrite IH. Qed.






Lemma formatEnumDefault_null (enumType : string) : formatEnumDefault "NULL" enumType = "NULL".
Proof. reflexivity. Qed.


(** The examples of the sources' own comments. *)
Example toSnakeCase_examples :
  map toSnakeCase ["MyTarget"; "Author"; "UserID"; "HTTPServer"; "myVariableName"]
  = ["my_target"; "author"; "user_id"; "http_server"; "my_variable_name"].
Proof. reflexivity. Qed.

Example formatTypeCast_examples :
  map formatTypeCast ["status::active"; "'active'::status"; "42"]
  = ["'active'::status"; "'active'::status"; "42"].
Proof. reflexivity. Qed.

(** The end-to-end scenarios of the specification. *)
Example extension_scenario :
  generate 1 {| declarations := [DExtension {| ext_name := "citext" |}] |}
  = Ok ("-- Generated SQL from Schema DSL" +:+ nl +:+ nl
        +:+ "CREATE EXTENSION IF NOT EXISTS " +:+ dquote +:+ "citext" +:+ dquote +:+ ";"
        +:+ nl).
Proof. vm_compute. reflexivity. Qed.

Example empty_program_scenario :
  generate 1 {| declarations := [] |}
  = Ok ("-- Generated SQL from Schema DSL" +:+ nl +:+ nl +:+ nl).
Proof. vm_compute. reflexivity. Qed.

Example enum_default_scenario :
  generate 1 Samples.rolesProgram
  = Ok ("-- Generated SQL from Schema DSL" +:+ nl +:+ nl
        +:+ "DO $$ BEGIN" +:+ nl
        +:+ "    CREATE TYPE user_role AS ENUM ('admin', 'user');" +:+ nl
        +:+ "EXCEPTION" +:+ nl
        +:+ "    WHEN duplicate_object THEN null;" +:+ nl
        +:+ "END $$;" +:+ nl +:+ nl
        +:+ "CREATE TABLE users (" +:+ nl
        +:+ "    id SERIAL PRIMARY KEY," +:+ nl
        +:+ "    role USER_ROLE NOT NULL DEFAULT 'user'::user_role" +:+ nl
        +:+ ");" +:+ nl).
Proof. vm_compute. reflexivity. Qed.

Example reference_scenario :
  generate 1 Samples.referencingProgram
  = Ok ("-- Generated SQL from Schema DSL" +:+ nl +:+ nl
        +:+ "CREATE TABLE posts (" +:+ nl
        +:+ "    id SERIAL PRIMARY KEY" +:+ nl
        +:+ ");" +:+ nl +:+ nl
        +:+ "CREATE TABLE post_announcements (" +:+ nl
        +:+ "    post_id INTEGER REFERENCES posts(id)" +:+ nl
        +:+ ");" +:+ nl).
Proof. vm_compute. reflexivity. Qed.

Lemma takeWhile_length_all (p : ascii -> bool) (s : string) :
  String.length (takeWhile p s) = String.length s -> allChars p s = true.
Proof.
  induction s as [|c s IH]; [done|]. cbn [takeWhile allChars].
  destruct (p c); [|done]. cbn [String.length]. intros [= H]. by rewrite IH.
Qed.

Lemma identStart_word (c : ascii) : Lexer.isIdentStart c = true -> isWord c = true.
Proof. each_char c. Qed.

Lemma identifier_word (w : string) :
  Lexer.isIdentifier w = true -> truthy w = true /\ allChars isWord w = true.
Proof.
  unfold Lexer.isIdentifier, Lexer.execIdentifier. destruct w as [|c w]; [done|].
  destruct (Lexer.isIdentStart c) eqn:Hc; [|done].
  intros H%Nat.eqb_eq. cbn [String.length] in H. split; [done|].
  cbn [allChars]. rewrite (identStart_word c Hc). apply takeWhile_length_all. lia.
Qed.

End GeneratorFacts.

(* ===================================================================== *)
(** ** Mixin resolution                                                   *)
(* ===================================================================== *)

Module MixinFacts.
Import Js Ast Generator Spec.

Lemma resolveMixins_step (depth : nat) (schema : SchemaDecl) (ctx : GeneratorContext) :
  resolveMixins (S depth) schema ctx
  = (items ← resolveMixinList (fun mixin => resolveMixins depth mixin ctx) ctx
               (schema_mixins schema) [];
     Ok (items ++ schema_members schema)).
Proof. reflexivity. Qed.



Lemma resolveMixinList_returns (resolve : SchemaDecl -> Result (list SchemaBodyItem))
  (ctx : GeneratorContext) (mixins : list string) :
  (forall name mixin, name ∈ mixins -> schemas ctx !! name = Some mixin ->
     exists items, resolve mixin = Ok items) ->
  forall acc, exists result, resolveMixinList resolve ctx mixins acc = Ok result.
Proof.
  induction mixins as [|name rest IH]; intros Hres acc; [by eexists|].
  cbn [resolveMixinList]. destruct (schemas ctx !! name) as [mixin|] eqn:Hl.
  - destruct (Hres name mixin) as [inner ->]; [left | done |]. cbn.
    apply IH. intros n m Hn. apply Hres. by right.
  - apply IH. intros n m Hn. apply Hres. by right.
Qed.

(** With room for more calls than the ranks of its mixins, resolution returns. *)
Lemma resolveMixins_returns (ctx : GeneratorContext) (rank : string -> nat) :
  Acyclic ctx rank ->
  forall bound schema,
    (forall name mixin, name ∈ schema_mixins schema -> schemas ctx !! name = Some mixin ->
       rank name < bound) ->
    forall depth, bound < depth ->
    exists items, resolveMixins depth schema ctx = Ok items.
Proof.
  intros Hacyclic bound. induction bound as [bound IH] using lt_wf_ind.
  intros schema Hrank depth Hdepth.
  destruct depth as [|depth]; [lia|]. rewrite resolveMixins_step.
  destruct (resolveMixinList_returns (fun mixin => resolveMixins depth mixin ctx) ctx
              (schema_mixins schema)) with (acc := @nil SchemaBodyItem) as [inherited ->].
  - intros name mixin Hin Hl.
    apply (IH (rank name)); [by eapply Hrank | | by specialize (Hrank _ _ Hin Hl); lia].
    intros name' mixin' Hin' Hl'. by eapply Hacyclic.
  - by eexists.
Qed.



Lemma resolveMixinList_ext (f g : SchemaDecl -> Result (list SchemaBodyItem))
  (c1 c2 : GeneratorContext) :
  schemas c1 = schemas c2 -> (forall m, f m = g m) ->
  forall mixins acc, resolveMixinList f c1 mixins acc = resolveMixinList g c2 mixins acc.
Proof.
  intros Hs Hfg mixins. induction mixins as [|name rest IH]; intros acc; [done|].
  cbn [resolveMixinList]. rewrite Hs. destruct (schemas c2 !! name); [|apply IH].
  rewrite Hfg. destruct (g s); [|done]. cbn. apply IH.
Qed.

(** Mixin resolution reads nothing of the context but the schema table. *)
Lemma resolveMixins_ext (c1 c2 : GeneratorContext) :
  schemas c1 = schemas c2 ->
  forall depth schema, resolveMixins depth schema c1 = resolveMixins depth schema c2.
Proof.
  intros Hs depth. induction depth as [|depth IH]; intros schema; [done|].
  rewrite !resolveMixins_step. by rewrite (resolveMixinList_ext _ _ c1 c2 Hs IH).
Qed.

Lemma selfMixin_overflows (ctx : GeneratorContext) :
  schemas ctx !! "Loop" = Some Samples.selfMixin ->
  forall depth, resolveMixins depth Samples.selfMixin ctx = Throw stackOverflow.
Proof.
  intros Hl depth. induction depth as [|depth IH]; [done|].
  rewrite resolveMixins_step. cbn [Samples.selfMixin Samples.schema schema_mixins resolveMixinList].
  rewrite Hl. fold Samples.selfMixin. 
  change (Samples.schema "Loop" ["Loop"] [Samples.idSerial]) with Samples.selfMixin.
  by rewrite IH.
Qed.

Lemma cyclic_generate (depth : nat) :
  generate depth Samples.cyclicProgram = Throw stackOverflow.
Proof.
  unfold generate.
  cbn [Samples.cyclicProgram declarations processDeclarations processDeclaration].
  set (ctx1 := processStandaloneSchema _ _).
  cbn [mbind result_bind].
  unfold processInstantiation.
  replace (concepts ctx1 !! _) with (@None ConceptDecl) by reflexivity.
  cbn [inst_conceptName]. 
  replace (schemas ctx1 !! "Loop") with (Some Samples.selfMixin) by reflexivity.
  cbn [inst_targets Samples.target arg_tableName].
  unfold resolveSchema. rewrite selfMixin_overflows; [done | reflexivity].
Qed.


(** The pushes of indexes and triggers leave the table list alone. *)
Lemma generateTableSql_tableSql (resolved : ResolvedSchema) (ctx : GeneratorContext) :
  rs_tableName resolved ∉ generatedTables ctx ->
  tableSql (generateTableSql resolved ctx)
  = tableSql ctx ++
    ["CREATE TABLE " +:+ rs_tableName resolved +:+ " (" +:+ nl
     +:+ join ("," +:+ nl)
           (map (fun c => generateColumnSql c
                            (set_generatedTables
                               ({[rs_tableName resolved]} ∪ generatedTables ctx) ctx))
                (rs_columns resolved)
            ++ map (fun c => generateCheckSql (rs_tableName resolved) c
                               (set_generatedTables
                                  ({[rs_tableName resolved]} ∪ generatedTables ctx) ctx))
                   (rs_checks resolved))
     +:+ nl +:+ ");"].
Proof.
  intros Hnew. unfold generateTableSql. destruct (decide _) as [|_]; [done|].
  set (ctx1 := set_tableSql _ _).
  assert (forall l c, tableSql (fold_left (fun ctx trigger =>
            set_triggerSql (triggerSql ctx ++
              [generateTriggerSql (rs_tableName resolved) trigger ctx]) ctx) l c)
          = tableSql c) as Htrg.
  { intros l. induction l as [|t l IH]; intros c; [done|]. cbn [fold_left]. by rewrite IH. }
  assert (forall l c, tableSql (fold_left (fun ctx index =>
            set_indexSql (indexSql ctx ++
              [generateIndexSql (rs_tableName resolved) index ctx]) ctx) l c)
          = tableSql c) as Hidx.
  { intros l. induction l as [|t l IH]; intros c; [done|]. cbn [fold_left]. by rewrite IH. }
  by rewrite Htrg, Hidx.
Qed.

(** C4, as it is stated, does not hold: a schema that names itself as a
    mixin is accepted by the grammar, and its resolution never returns,
    however deep the call stack; the generation of a program that
    instantiates it ends in the stack overflow of the engine. *)
Lemma mixin_recursion_unbounded :
  ~ (exists depth items,
       resolveMixins depth Samples.selfMixin Samples.cyclicContext = Ok items)
  /\ ~ (exists depth text, generate depth Samples.cyclicProgram = Ok text).
Proof.
  split.
  - intros (depth & items & H). by rewrite selfMixin_overflows in H.
  - intros (depth & text & H). by rewrite cyclic_generate in H.
Qed.




End MixinFacts.

(* ===================================================================== *)
(** ** What processing a declaration keeps of the context                 *)
(* ===================================================================== *)

Module ContextFacts.
Import Js Ast Generator Spec JsFacts MixinFacts.

(** What a step keeps of the context: the concept and schema tables and the
    template substitutions. *)
Definition keeps (c c' : GeneratorContext) : Prop :=
  concepts c' = concepts c /\ schemas c' = schemas c /\ templateSubs c' = templateSubs c.

Lemma keeps_refl c : keeps c c.
Proof. done. Qed.

Lemma keeps_trans c1 c2 c3 : keeps c1 c2 -> keeps c2 c3 -> keeps c1 c3.
Proof. intros (?&?&?) (?&?&?). repeat split; congruence. Qed.

Lemma fold_left_keeps {A} (f : GeneratorContext -> A -> GeneratorContext) :
  (forall c x, keeps c (f c x)) -> forall l c, keeps c (fold_left f l c).
Proof.
  intros Hf l. induction l as [|x l IH]; intros c; [done|].
  cbn [fold_left]. eapply keeps_trans; [apply Hf | apply IH].
Qed.

Lemma generateEnumSql_keeps e c : keeps c (generateEnumSql e c).
Proof. unfold generateEnumSql. by destruct (decide _). Qed.

Lemma generateTableSql_keeps r c : keeps c (generateTableSql r c).
Proof.
  unfold generateTableSql. destruct (decide _); [done|].
  eapply keeps_trans; [|apply fold_left_keeps; by intros].
  eapply keeps_trans; [|apply fold_left_keeps; by intros]. done.
Qed.

Lemma generateConceptTables_keeps depth conceptSchemas schemaToTable :
  forall c c', generateConceptTables depth conceptSchemas schemaToTable c = Ok c' ->
               keeps c c'.
Proof.
  induction conceptSchemas as [|s rest IH]; intros c c' H.
  - by injection H as <-.
  - cbn [generateConceptTables] in H. destruct (schemaToTable !! schema_name s).
    + destruct (resolveSchema depth s p.1 c) as [r|e]; [|done]. cbn in H.
      eapply keeps_trans; [apply generateTableSql_keeps | by apply IH].
    + by apply IH.
Qed.

Lemma bindTypeParams_tables typeParams : forall typeArgs c,
  concepts (bindTypeParams typeParams typeArgs c) = concepts c
  /\ schemas (bindTypeParams typeParams typeArgs c) = schemas c.
Proof.
  induction typeParams as [|p ps IH]; intros typeArgs c; [done|].
  cbn [bindTypeParams]. destruct typeArgs as [|a args]; [apply IH|].
  destruct (truthy p); [|apply IH].
  destruct (IH (tail (a :: args)) (set_tableToSchema (<[p:=arg_tableName a]> (tableToSchema
     (set_templateSubs (mapSet p (default (toSnakeCase p) (arg_alias a)) (templateSubs c)) c)))
     (set_templateSubs (mapSet p (default (toSnakeCase p) (arg_alias a)) (templateSubs c)) c)))
    as [-> ->]. done.
Qed.

Lemma bindTargets_tables targets : forall conceptSchemas m c,
  concepts (bindTargets targets conceptSchemas m c).2 = concepts c
  /\ schemas (bindTargets targets conceptSchemas m c).2 = schemas c.
Proof.
  induction targets as [|t ts IH]; intros conceptSchemas m c; [done|].
  destruct conceptSchemas as [|s ss]; [done|]. cbn [bindTargets].
  match goal with |- context [bindTargets ts ss ?m' ?c'] =>
    destruct (IH ss m' c') as [-> ->] end.
  by destruct (arg_alias t) as [alias|]; [destruct (truthy alias)|].
Qed.

Lemma processInstantiation_tables depth decl c c' :
  processInstantiation depth decl c = Ok c' ->
  concepts c' = concepts c /\ schemas c' = schemas c.
Proof.
  unfold processInstantiation. destruct (concepts c !! inst_conceptName decl) as [concept|].
  - destruct (bindInstantiation concept decl c) as [m c1] eqn:Hb. intros H.
    apply generateConceptTables_keeps in H as (Hc & Hs & _).
    rewrite Hc, Hs.
    destruct (fold_left_keeps (fun ctx e => generateEnumSql e ctx)
                (fun c x => generateEnumSql_keeps x c) (conceptEnums concept) c1)
      as (-> & -> & _).
    unfold bindInstantiation in Hb.
    match type of Hb with bindTargets ?t ?s ?m ?c0 = _ =>
      destruct (bindTargets_tables t s m c0) as [H1 H2]; rewrite Hb in H1, H2 end.
    cbn [snd] in H1, H2. rewrite H1, H2.
    match goal with |- context [bindTypeParams ?p ?a ?c0] =>
      destruct (bindTypeParams_tables p a c0) as [-> ->] end. done.
  - destruct (schemas c !! inst_conceptName decl) as [schema|]; [|by intros [= <-]].
    destruct (inst_targets decl) as [|t ts]; [by intros [= <-]|].
    destruct (resolveSchema _ _ _ _) as [r|e]; [|done]. cbn. intros [= <-].
    by destruct (generateTableSql_keeps r
                  (set_tableToSchema (<[schema_name schema:=arg_tableName t]> (tableToSchema c)) c))
      as (-> & -> & _).
Qed.



(** The concept path ends with the substitutions the binding loops built. *)
Lemma processInstantiation_concept_subs depth decl concept c c' :
  concepts c !! inst_conceptName decl = Some concept ->
  processInstantiation depth decl c = Ok c' ->
  templateSubs c' = templateSubs (bindInstantiation concept decl c).2.
Proof.
  unfold processInstantiation. intros ->.
  destruct (bindInstantiation concept decl c) as [m c1]. intros H.
  apply generateConceptTables_keeps in H as (_ & _ & ->).
  by destruct (fold_left_keeps (fun ctx e => generateEnumSql e ctx)
                (fun c x => generateEnumSql_keeps x c) (conceptEnums concept) c1)
    as (_ & _ & ->).
Qed.

Lemma processDeclaration_lookups depth name decl c c' :
  ~ Spec.declares name decl ->
  processDeclaration depth decl c = Ok c' ->
  concepts c' = concepts c
  /\ (schemas c !! name = None -> schemas c' !! name = None).
Proof.
  intros Hd. destruct decl as [d|d|d|d|d|d|d]; cbn [processDeclaration].
  - by intros [= <-].
  - by intros [= <-].
  - intros [= <-]. split; [done|]. intros Hn. cbn. by rewrite lookup_insert_ne.
  - by intros [= <-].
  - intros [= <-]. unfold processEnum. by destruct (generateEnumSql_keeps d c) as (-> & -> & _).
  - intros H. by destruct (processInstantiation_tables _ _ _ _ H) as [-> ->].
  - by intros [= <-].
Qed.

Lemma processDeclarations_lookups depth name decls : forall c c',
  Forall (fun d => ~ Spec.declares name d) decls ->
  processDeclarations depth decls c = Ok c' ->
  concepts c' = concepts c
  /\ (schemas c !! name = None -> schemas c' !! name = None).
Proof.
  induction decls as [|d rest IH]; intros c c' Hall H.
  - by injection H as <-.
  - apply Forall_cons in Hall as [Hd Hrest]. cbn [processDeclarations] in H.
    destruct (processDeclaration depth d c) as [c1|e] eqn:H1; [|done]. cbn in H.
    destruct (processDeclaration_lookups _ _ _ _ _ Hd H1) as [Hc Hs].
    destruct (IH _ _ Hrest H) as [Hc' Hs']. split; [congruence | auto].
Qed.

Lemma processDeclarations_app depth l1 l2 c :
  processDeclarations depth (l1 ++ l2) c
  = (c' ← processDeclarations depth l1 c; processDeclarations depth l2 c').
Proof.
  revert c. induction l1 as [|d l1 IH]; intros c; [done|].
  cbn [app processDeclarations]. destruct (processDeclaration depth d c); [|done].
  cbn. apply IH.
Qed.

Lemma collect_lookups name decls : forall c,
  Forall (fun d => ~ Spec.declares name d) decls ->
  concepts c !! name = None -> schemas c !! name = None ->
  concepts (fold_left collectDefinition decls c) !! name = None
  /\ schemas (fold_left collectDefinition decls c) !! name = None.
Proof.
  induction decls as [|d rest IH]; intros c Hall Hc Hs; [done|].
  apply Forall_cons in Hall as [Hd Hrest]. cbn [fold_left]. apply IH; [done| |].
  - destruct d; cbn; try done. by rewrite lookup_insert_ne.
  - destruct d; cbn; try done. by rewrite lookup_insert_ne.
Qed.


(** C5.  An instantiation whose name is neither a collected concept nor a
    collected schema is passed over: processing it returns the context it
    was given, and the SQL of a program is the SQL of the program without it. *)
Theorem unresolved_instantiation_noop (depth : nat) (decl : Instantiation) :
  (forall ctx,
     concepts ctx !! inst_conceptName decl = None ->
     schemas ctx !! inst_conceptName decl = None ->
     processInstantiation depth decl ctx = Ok ctx
     /\ processDeclaration depth (DInstantiation decl) ctx = Ok ctx)
  /\ (forall before after,
       Forall (fun d => ~ declares (inst_conceptName decl) d) (before ++ after) ->
       generate depth {| declarations := before ++ DInstantiation decl :: after |}
       = generate depth {| declarations := before ++ after |}).
Proof.
  assert (forall ctx,
     concepts ctx !! inst_conceptName decl = None ->
     schemas ctx !! inst_conceptName decl = None ->
     processInstantiation depth decl ctx = Ok ctx) as Hnoop.
  { intros ctx Hc Hs. unfold processInstantiation. by rewrite Hc, Hs. }
  split; [intros ctx Hc Hs; split; by apply Hnoop|].
  intros before after Hall. unfold generate, collectDefinitions. cbn [declarations].
  rewrite !fold_left_app. cbn [fold_left collectDefinition].
  rewrite <- fold_left_app.
  destruct (collect_lookups (inst_conceptName decl) (before ++ after) createContext Hall)
    as [Hc Hs]; [done | done |].
  set (ctx1 := fold_left collectDefinition (before ++ after) createContext) in *.
  rewrite !processDeclarations_app.
  destruct (processDeclarations depth before ctx1) as [ctx2|e] eqn:H2; [|done].
  cbn [mbind result_bind processDeclarations processDeclaration].
  apply Forall_app in Hall as [Hbefore _].
  destruct (processDeclarations_lookups _ _ _ _ _ Hbefore H2) as [Hc2 Hs2].
  rewrite Hnoop; [done | by rewrite Hc2 | by apply Hs2].
Qed.

(** [ghosts = Ghost;] alone compiles to the header. *)
Lemma unresolved_instantiation_noop_witness :
  generate 1 {| declarations := [DInstantiation Samples.ghostInstantiation] |}
  = Ok ("-- Generated SQL from Schema DSL" +:+ nl +:+ nl +:+ nl).
Proof.
  exact (eq_trans
           (proj2 (unresolved_instantiation_noop 1 Samples.ghostInstantiation) [] []
                  (Forall_nil_2 _))
           eq_refl).
Defined.

End ContextFacts.

(* ===================================================================== *)
(** ** Termination of generation                                          *)
(* ===================================================================== *)

Module TerminationFacts.
Import Js Ast Generator Spec MixinFacts ContextFacts.

Lemma fromProgram_keeps ast c c' :
  concepts c' = concepts c -> schemas c' = schemas c ->
  fromProgram ast c -> fromProgram ast c'.
Proof. unfold fromProgram. by intros -> ->. Qed.

Lemma topLevel_elem ast s : DSchema s ∈ declarations ast -> s ∈ topLevelSchemas ast.
Proof. intros H. apply list_elem_of_omap. by exists (DSchema s). Qed.

Lemma concept_elem ast c : DConcept c ∈ declarations ast -> c ∈ programConcepts ast.
Proof. intros H. apply list_elem_of_omap. by exists (DConcept c). Qed.

Lemma collect_fromProgram ast decls : forall ctx,
  (forall d, d ∈ decls -> d ∈ declarations ast) ->
  fromProgram ast ctx -> fromProgram ast (fold_left collectDefinition decls ctx).
Proof.
  induction decls as [|d rest IH]; intros ctx Hsub Hctx; [done|].
  cbn [fold_left]. apply IH; [intros d' Hd'; apply Hsub; by right|].
  assert (d ∈ declarations ast) as Hd by (apply Hsub; by left).
  destruct Hctx as [Hs Hc]. destruct d as [x|x|x|x|x|x|x]; cbn [collectDefinition]; try done.
  - split; [|done]. intros name schema. cbn. intros [[<- <-]|[_ H]]%lookup_insert_Some.
    + split; [by apply topLevel_elem | done].
    + by apply Hs.
  - split; [done|]. intros name concept. cbn. intros [[<- <-]|[_ H]]%lookup_insert_Some.
    + by apply concept_elem.
    + by eapply Hc.
Qed.

Lemma fromProgram_acyclic ast rank ctx :
  ProgramAcyclic ast rank -> fromProgram ast ctx -> Acyclic ctx rank.
Proof.
  intros Hacyclic [Hs _] name schema mixinName mixin Hl Hin Hl'.
  destruct (Hs _ _ Hl) as [Hschema <-]. destruct (Hs _ _ Hl') as [Hmixin <-].
  by apply Hacyclic.
Qed.

Lemma resolveMixins_program ast rank ctx schema depth :
  ProgramAcyclic ast rank -> fromProgram ast ctx ->
  schema ∈ programSchemas ast -> mixinDepth ast rank < depth ->
  exists items, resolveMixins depth schema ctx = Ok items.
Proof.
  intros Hacyclic Hctx Hschema Hdepth.
  apply (resolveMixins_returns ctx rank (fromProgram_acyclic _ _ _ Hacyclic Hctx)
           (mixinDepth ast rank)); [|done].
  intros name mixin Hin _. unfold mixinDepth.
  assert (rank name ≤ max_list (rank <$> flat_map schema_mixins (programSchemas ast)));
    [|lia].
  apply max_list_elem_of_le, list_elem_of_fmap_2, list_elem_of_In, in_flat_map.
  exists schema. split; by apply list_elem_of_In.
Qed.

Lemma generateConceptTables_returns ast rank depth schemaToTable conceptSchemas :
  ProgramAcyclic ast rank -> mixinDepth ast rank < depth ->
  (forall s, s ∈ conceptSchemas -> s ∈ programSchemas ast) ->
  forall ctx, fromProgram ast ctx ->
    exists ctx', generateConceptTables depth conceptSchemas schemaToTable ctx = Ok ctx'.
Proof.
  intros Hacyclic Hdepth. induction conceptSchemas as [|s rest IH]; intros Hsub ctx Hctx.
  - by eexists.
  - cbn [generateConceptTables]. destruct (schemaToTable !! schema_name s) as [mapping|].
    + unfold resolveSchema.
      destruct (resolveMixins_program ast rank ctx s depth) as [items ->];
        [done | done | apply Hsub; by left | done |].
      cbn [mbind result_bind]. apply IH; [intros s' Hs'; apply Hsub; by right|].
      match goal with |- fromProgram _ (generateTableSql ?r ctx) =>
        destruct (generateTableSql_keeps r ctx) as (Hc & Hs & _) end.
      by apply (fromProgram_keeps ast ctx).
    + apply IH; [intros s' Hs'; apply Hsub; by right | done].
Qed.

Lemma bindInstantiation_fromProgram ast concept decl ctx :
  fromProgram ast ctx -> fromProgram ast (bindInstantiation concept decl ctx).2.
Proof.
  intros Hctx. unfold bindInstantiation.
  match goal with |- context [bindTargets ?t ?s ?m ?c0] =>
    destruct (bindTargets_tables t s m c0) as [H1 H2] end.
  match type of H1 with context [bindTypeParams ?p ?a ?c0] =>
    destruct (bindTypeParams_tables p a c0) as [H3 H4] end.
  apply (fromProgram_keeps ast ctx); [by rewrite H1, H3 | by rewrite H2, H4 | done].
Qed.

Lemma processInstantiation_returns ast rank depth decl ctx :
  ProgramAcyclic ast rank -> mixinDepth ast rank < depth -> fromProgram ast ctx ->
  exists ctx', processInstantiation depth decl ctx = Ok ctx'.
Proof.
  intros Hacyclic Hdepth Hctx. unfold processInstantiation.
  destruct (concepts ctx !! inst_conceptName decl) as [concept|] eqn:Hc.
  - pose proof (bindInstantiation_fromProgram ast concept decl ctx Hctx) as Hb.
    destruct (bindInstantiation concept decl ctx) as [m c1]. cbn [snd] in Hb.
    apply (generateConceptTables_returns ast rank); [done | done | |].
    + intros s Hs. unfold programSchemas. apply elem_of_app. right.
      apply list_elem_of_In, in_flat_map. exists concept.
      split; apply list_elem_of_In; [by apply (proj2 Hctx _ _ Hc) | done].
    + destruct (fold_left_keeps (fun ctx e => generateEnumSql e ctx)
                  (fun c x => generateEnumSql_keeps x c) (conceptEnums concept) c1)
        as (H1 & H2 & _).
      by apply (fromProgram_keeps ast c1).
  - destruct (schemas ctx !! inst_conceptName decl) as [schema|] eqn:Hs; [|by eexists].
    destruct (inst_targets decl) as [|t ts]; [by eexists|].
    unfold resolveSchema.
    destruct (resolveMixins_program ast rank
                (set_tableToSchema (<[schema_name schema:=arg_tableName t]> (tableToSchema ctx)) ctx)
                schema depth) as [items ->]; [done | done | | done | by eexists].
    unfold programSchemas. apply elem_of_app. left. by apply (proj1 Hctx _ _ Hs).
Qed.

Lemma processDeclarations_returns ast rank depth decls :
  ProgramAcyclic ast rank -> mixinDepth ast rank < depth ->
  (forall d, d ∈ decls -> d ∈ declarations ast) ->
  forall ctx, fromProgram ast ctx ->
    exists ctx', processDeclarations depth decls ctx = Ok ctx'.
Proof.
  intros Hacyclic Hdepth. induction decls as [|d rest IH]; intros Hsub ctx Hctx.
  - by eexists.
  - cbn [processDeclarations].
    assert (exists c1, processDeclaration depth d ctx = Ok c1 /\ fromProgram ast c1)
      as (c1 & -> & Hc1).
    { assert (d ∈ declarations ast) as Hd by (apply Hsub; by left).
      destruct d as [x|x|x|x|x|x|x]; cbn [processDeclaration].
      - by eexists.
      - by eexists.
      - eexists. split; [done|]. destruct Hctx as [Hs Hc]. split; [|done].
        intros name schema. cbn. intros [[<- <-]|[_ H]]%lookup_insert_Some.
        + split; [by apply topLevel_elem | done].
        + by apply Hs.
      - by eexists.
      - eexists. split; [done|]. unfold processEnum.
        destruct (generateEnumSql_keeps x ctx) as (H1 & H2 & _).
        by apply (fromProgram_keeps ast ctx).
      - destruct (processInstantiation_returns ast rank depth x ctx) as [c1 H];
          [done..|].
        exists c1. split; [done|].
        destruct (processInstantiation_tables _ _ _ _ H) as [H1 H2].
        by apply (fromProgram_keeps ast ctx).
      - by eexists. }
    cbn [mbind result_bind]. apply IH; [intros d' Hd'; apply Hsub; by right | done].
Qed.


(** C4, amended.  When no top-level schema of a program reaches itself
    through mixins (the mixin references go down along a rank), generation
    returns its SQL, and mixin resolution returns for every schema of the
    program, as soon as the stack has room for [mixinDepth] calls: more
    than the highest rank among the mixins named in the program. *)
Theorem acyclic_programs_generate (ast : GSQLProgram) (rank : string -> nat)
  (Hacyclic : ProgramAcyclic ast rank) (depth : nat)
  (Hdepth : mixinDepth ast rank < depth) :
  (exists text, generate depth ast = Ok text)
  /\ (forall schema, schema ∈ programSchemas ast ->
        exists items,
          resolveMixins depth schema (collectDefinitions ast createContext) = Ok items).
Proof.
  assert (fromProgram ast (collectDefinitions ast createContext)) as Hctx.
  { apply collect_fromProgram; [done|]. split; intros name x H; cbn [createContext schemas concepts] in H;
      by rewrite lookup_empty in H. }
  split.
  - unfold generate.
    destruct (processDeclarations_returns ast rank depth (declarations ast) Hacyclic Hdepth)
      with (ctx := collectDefinitions ast createContext) as [ctx' ->]; [done | done |].
    by eexists.
  - intros schema Hschema. by apply (resolveMixins_program ast rank).
Qed.

Lemma usersProgram_acyclic : ProgramAcyclic Samples.usersProgram Samples.usersRank.
Proof.
  intros schema mixin Hs Hm Hin.
  change (topLevelSchemas Samples.usersProgram)
    with [Samples.timestamps; Samples.users] in Hs, Hm.
  apply elem_of_cons in Hs as [-> | Hs]; [by inversion Hin|].
  apply list_elem_of_singleton in Hs as ->.
  apply elem_of_cons in Hm as [-> | Hm]; [by vm_compute|].
  apply list_elem_of_singleton in Hm as ->. apply list_elem_of_singleton in Hin. done.
Qed.

Lemma acyclic_programs_generate_witness :
  (exists text, generate 2 Samples.usersProgram = Ok text)
  /\ (exists items,
        resolveMixins 2 Samples.users
          (collectDefinitions Samples.usersProgram createContext) = Ok items).
Proof.
  destruct (acyclic_programs_generate Samples.usersProgram Samples.usersRank
              usersProgram_acyclic 2 ltac:(vm_compute; lia)) as [Hgen Hres].
  split; [exact Hgen|]. apply Hres.
  change (programSchemas Samples.usersProgram) with [Samples.timestamps; Samples.users].
  apply list_elem_of_In. right. left. reflexivity.
Defined.

End TerminationFacts.

(* ===================================================================== *)
(** ** Template substitutions of an instantiation                         *)
(* ===================================================================== *)

Module InstantiationFacts.
Import Js Ast Generator Spec JsFacts GeneratorFacts MixinFacts ContextFacts.

Lemma findReplacement_mapSet_eq (k v : string) (m : list (string * string)) :
  findReplacement k (mapSet k v m) = Some v.
Proof.
  induction m as [|[k' v'] m IH]; cbn [mapSet findReplacement].
  - by destruct (decide (k = k)).
  - destruct (decide (k' = k)) as [->|Hne]; cbn [findReplacement].
    + by destruct (decide (k = k)).
    + by destruct (decide (k' = k)).
Qed.

Lemma findReplacement_mapSet_ne (k k' v : string) (m : list (string * string)) :
  k <> k' -> findReplacement k (mapSet k' v m) = findReplacement k m.
Proof.
  intros Hne. induction m as [|[k0 v0] m IH]; cbn [mapSet findReplacement].
  - by destruct (decide (k' = k)).
  - destruct (decide (k0 = k')) as [->|Hne0]; cbn [findReplacement].
    + by destruct (decide (k' = k)).
    + by destruct (decide (k0 = k)).
Qed.

(** Parameters of other names, or left without an argument, do not touch
    the entry of [param]. *)
Lemma bindTypeParams_other (param : string) (typeParams : list string) :
  forall typeArgs ctx,
    (forall j, typeParams !! j = Some param -> typeArgs !! j = None) ->
    findReplacement param (templateSubs (bindTypeParams typeParams typeArgs ctx))
    = findReplacement param (templateSubs ctx).
Proof.
  induction typeParams as [|p ps IH]; intros typeArgs ctx Hfree; [done|].
  cbn [bindTypeParams]. destruct typeArgs as [|a args].
  - apply IH. intros j _. apply lookup_nil.
  - cbn [tail]. rewrite IH; [|intros j Hj; apply (Hfree (S j) Hj)].
    destruct (truthy p); [|done]. cbn.
    apply findReplacement_mapSet_ne. intros <-. by specialize (Hfree 0 eq_refl).
Qed.

Lemma bindTypeParams_bound (param : string) (arg : TypeArg) (typeParams : list string) :
  forall typeArgs ctx i,
    typeParams !! i = Some param -> typeArgs !! i = Some arg -> truthy param = true ->
    (forall j, i < j -> typeParams !! j = Some param -> typeArgs !! j = None) ->
    findReplacement param (templateSubs (bindTypeParams typeParams typeArgs ctx))
    = Some (default (toSnakeCase param) (arg_alias arg)).
Proof.
  induction typeParams as [|p ps IH]; intros typeArgs ctx i Hp Ha Ht Hlater; [done|].
  destruct typeArgs as [|a args]; [by rewrite lookup_nil in Ha|].
  cbn [bindTypeParams tail]. destruct i as [|i].
  - injection Hp as ->. injection Ha as ->. rewrite Ht.
    rewrite bindTypeParams_other; [cbn; apply findReplacement_mapSet_eq|].
    intros j Hj. apply (Hlater (S j)); [lia | done].
  - apply (IH args _ i); [done | done | done |].
    intros j Hij Hj. apply (Hlater (S j)); [lia | done].
Qed.

Lemma bindTargets_other (param : string) (targets : list InstantiationTarget) :
  forall conceptSchemas m ctx,
    (forall k schema t, conceptSchemas !! k = Some schema -> targets !! k = Some t ->
       schema_name schema <> param) ->
    findReplacement param (templateSubs (bindTargets targets conceptSchemas m ctx).2)
    = findReplacement param (templateSubs ctx).
Proof.
  induction targets as [|t ts IH]; intros conceptSchemas m ctx Hfree; [done|].
  destruct conceptSchemas as [|s ss]; [done|]. cbn [bindTargets].
  rewrite IH; [|intros k schema t' Hs Ht; apply (Hfree (S k) schema t' Hs Ht)].
  specialize (Hfree 0 s t eq_refl eq_refl).
  destruct (arg_alias t) as [alias|]; [destruct (truthy alias)|]; cbn;
    by apply findReplacement_mapSet_ne.
Qed.

Lemma matchTemplate_shape (param suffix : string) :
  truthy param = true ->
  allChars (fun c => negb (code c =? 125)%nat) param = true ->
  allChars (fun c => negb (isLineTerminator c)) suffix = true ->
  matchTemplate ("{" +:+ param +:+ "}" +:+ suffix) = Some (param, suffix).
Proof.
  intros Ht Hp Hs.
  change ("{" +:+ param +:+ "}" +:+ suffix) with (String "{" (param +:+ "}" +:+ suffix)).
  cbn [matchTemplate]. change (code "{" =? 123)%nat with true. cbn iota.
  rewrite (takeWhile_app_stop _ param ("}" +:+ suffix) Hp); [|done].
  rewrite drop_append. change ("}" +:+ suffix) with (String "}" suffix). cbn iota.
  by rewrite Ht, Hs.
Qed.

Lemma word_not_brace (c : ascii) : isWord c = true -> negb (code c =? 125)%nat = true.
Proof. each_char c. Qed.

Lemma word_not_terminator (c : ascii) : isWord c = true -> negb (isLineTerminator c) = true.
Proof. each_char c. Qed.

Lemma allChars_impl (p q : ascii -> bool) (s : string) :
  (forall c, p c = true -> q c = true) -> allChars p s = true -> allChars q s = true.
Proof.
  intros Hpq. induction s as [|c s IH]; [done|]. cbn [allChars].
  intros [Hc Hs]%andb_prop. by rewrite (Hpq c Hc), IH.
Qed.

Lemma expandTemplate_subs (name param suffix : string) (ctx : GeneratorContext) :
  matchTemplate name = Some (param, suffix) ->
  expandTemplate name ctx
  = default (toSnakeCase param) (findReplacement param (templateSubs ctx)) +:+ suffix.
Proof. intros H. unfold expandTemplate. by rewrite H. Qed.


(** C7, as it is stated, does not hold for every concept instantiation: in
    [concept Tagging<Target> { schema Target { {Target}_id integer; } }]
    instantiated as [tags = Tagging<posts[post]>;] the parameter [Target]
    is zipped against an argument with the alias [post], and yet the
    substitution for [Target] is [target] and the column is [target_id]:
    the loop over the member schemas binds the schema name [Target] after
    the loop over the type parameters. *)
Lemma alias_lost_to_member_schema :
  concept_typeParams Samples.tagging !! 0 = Some "Target"
  /\ arg_alias <$> inst_typeArgs Samples.tags !! 0 = Some (Some "post")
  /\ findReplacement "Target"
       (templateSubs (bindInstantiation Samples.tagging Samples.tags createContext).2)
     = Some "target"
  /\ expandTemplate "{Target}_id"
       (bindInstantiation Samples.tagging Samples.tags createContext).2
     <> "post_id"
  /\ generate 1 Samples.taggingProgram
     = Ok ("-- Generated SQL from Schema DSL" +:+ nl +:+ nl
           +:+ "CREATE TABLE tags (" +:+ nl
           +:+ "    target_id INTEGER" +:+ nl
           +:+ ");" +:+ nl).
Proof. repeat split; try (vm_compute; reflexivity). vm_compute. discriminate. Qed.

(** C7, amended.  A type parameter zipped against a type argument gets the
    alias of the argument, or else its own name in snake case, as its
    substitution, provided the key is not bound again afterwards: by a
    later type parameter of the same name that has an argument, or by a
    member schema of the same name that has a target.  These are the
    substitutions in force when the tables of the instantiation are
    generated, so that [{Param}suffix] expands to the value followed by
    the suffix. *)
Theorem type_parameter_substitution (concept : ConceptDecl) (decl : Instantiation)
  (ctx : GeneratorContext) (i : nat) (param : string) (arg : TypeArg)
  (Hparam : concept_typeParams concept !! i = Some param)
  (Harg : inst_typeArgs decl !! i = Some arg)
  (Hident : Lexer.isIdentifier param = true)
  (Hlater : forall j, i < j -> concept_typeParams concept !! j = Some param ->
                      inst_typeArgs decl !! j = None)
  (Hmember : forall k schema t,
      conceptSchemas concept !! k = Some schema -> inst_targets decl !! k = Some t ->
      schema_name schema <> param) :
  let value := default (toSnakeCase param) (arg_alias arg) in
  let bound := (bindInstantiation concept decl ctx).2 in
  findReplacement param (templateSubs bound) = Some value
  /\ (forall depth ctx',
       concepts ctx !! inst_conceptName decl = Some concept ->
       processInstantiation depth decl ctx = Ok ctx' ->
       templateSubs ctx' = templateSubs bound)
  /\ (forall ctx' suffix,
       templateSubs ctx' = templateSubs bound -> allChars isWord suffix = true ->
       expandTemplate ("{" +:+ param +:+ "}" +:+ suffix) ctx' = value +:+ suffix).
Proof.
  intros value bound. destruct (identifier_word param Hident) as [Ht Hw].
  assert (findReplacement param (templateSubs bound) = Some value) as Hfound.
  { unfold bound, bindInstantiation. rewrite bindTargets_other; [|done].
    by apply (bindTypeParams_bound param arg _ _ _ i). }
  split; [done|]. split.
  - intros depth ctx' Hc H. by apply (processInstantiation_concept_subs depth).
  - intros ctx' suffix Hsubs Hsuffix.
    rewrite (expandTemplate_subs _ param suffix).
    + by rewrite Hsubs, Hfound.
    + apply matchTemplate_shape; [done | |].
      * by apply (allChars_impl isWord _ _ word_not_brace).
      * by apply (allChars_impl isWord _ _ word_not_terminator).
Qed.

(** The two instantiations of the specification: [Target] bound to
    [exams[examLOL]] gives [examLOL_id], [Author] bound to [authors] gives
    [author_id]. *)
Lemma type_parameter_substitution_witness :
  expandTemplate "{Target}_id"
    (bindInstantiation Samples.announcing Samples.examAnnouncements
                       Samples.announcingContext).2
  = "examLOL_id"
  /\ expandTemplate "{Author}_id"
       (bindInstantiation Samples.authoring Samples.books createContext).2
     = "author_id".
Proof.
  split.
  - apply (proj2 (proj2 (type_parameter_substitution Samples.announcing
             Samples.examAnnouncements Samples.announcingContext 0 "Target"
             (Samples.target "exams" (Some "examLOL")) eq_refl eq_refl eq_refl
             ltac:(intros [|[|j]]; [lia | done | done])
             ltac:(intros [|[|k]] schema t; [intros [= <-] | done | done]; done)))
           _ "_id"); reflexivity.
  - apply (proj2 (proj2 (type_parameter_substitution Samples.authoring
             Samples.books createContext 0 "Author"
             (Samples.target "authors" None) eq_refl eq_refl eq_refl
             ltac:(intros [|[|j]]; [lia | done | done])
             ltac:(intros [|[|k]] schema t; [intros [= <-] | done | done]; done)))
           _ "_id"); reflexivity.
Defined.



End InstantiationFacts.

(* ===================================================================== *)
(** ** Per-instance indexes                                               *)
(* ===================================================================== *)

Module IndexFacts.
Import Js Ast Generator JsFacts GeneratorFacts.

Lemma identStart_not_brace (c : ascii) :
  Lexer.isIdentStart c = true -> (code c =? 123)%nat = false.
Proof. each_char c. Qed.

Lemma expandTemplate_identifier (name : string) (ctx : GeneratorContext) :
  Lexer.isIdentifier name = true -> expandTemplate name ctx = name.
Proof.
  unfold Lexer.isIdentifier, Lexer.execIdentifier, expandTemplate.
  destruct name as [|c rest]; [done|].
  destruct (Lexer.isIdentStart c) eqn:Hc; [|done]. intros _.
  cbn [matchTemplate]. by rewrite (identStart_not_brace c Hc).
Qed.

Lemma expandTemplate_identifiers (names : list string) (ctx : GeneratorContext) :
  Forall (fun name => Lexer.isIdentifier name = true) names ->
  map (fun c => expandTemplate c ctx) names = names.
Proof.
  induction 1 as [|name names Hn _ IH]; [done|].
  cbn [map]. by rewrite expandTemplate_identifier, IH.
Qed.

(** C1.  The statement of a per-instance index never has a [WHERE] part:
    [processPerInstanceIndex] hands [generateIndexSql] an index without the
    [where] of the declaration, and [generateIndexSql] renders none.  For a
    declaration with identifiers as columns the statement is
    [CREATE [UNIQUE] INDEX idx_<table>_<cols> ON <table> [USING <method>] (<cols>);]
    whatever the declaration carries as [where]; on the program of the test
    "generates per-instance index with WHERE clause" the SQL has no [WHERE].
    The statements do come last: the section of the per-instance indexes
    closes the assembled sections. *)
Theorem per_instance_index_without_where :
  (forall decl ctx,
     Forall (fun name => Lexer.isIdentifier name = true) (pii_columns decl) ->
     perInstanceIndexSql (processPerInstanceIndex decl ctx)
     = perInstanceIndexSql ctx ++
       ["CREATE " +:+ match pii_unique decl with Some true => "UNIQUE " | _ => EmptyString end
        +:+ "INDEX "
        +:+ ("idx_" +:+ pii_tableName decl +:+ "_" +:+ join "_" (pii_columns decl))
        +:+ " ON " +:+ pii_tableName decl +:+ " "
        +:+ match pii_using decl with
            | Some u => if truthy u then "USING " +:+ u +:+ " " else EmptyString
            | None => EmptyString
            end
        +:+ "(" +:+ join ", " (pii_columns decl) +:+ ");"])
  /\ pii_where Samples.questionsIndex = Some "deleted_at is null"
  /\ generate 1 Samples.questionsProgram
     = Ok ("-- Generated SQL from Schema DSL" +:+ nl +:+ nl
           +:+ "CREATE TABLE questions (" +:+ nl
           +:+ "    id SERIAL PRIMARY KEY," +:+ nl
           +:+ "    assessment_id INTEGER," +:+ nl
           +:+ "    position INTEGER," +:+ nl
           +:+ "    deleted_at TIMESTAMPTZ" +:+ nl
           +:+ ");" +:+ nl +:+ nl
           +:+ "CREATE UNIQUE INDEX idx_questions_assessment_id_position ON questions "
           +:+ "(assessment_id, position);" +:+ nl)
  /\ (forall text, generate 1 Samples.questionsProgram = Ok text ->
        includes "WHERE" text = false)
  /\ (forall ctx, perInstanceIndexSql ctx <> [] ->
        exists front,
          sections ctx = front ++ [join (nl +:+ nl) (perInstanceIndexSql ctx)]).
Proof.
  split; [|split; [reflexivity | split; [vm_compute; reflexivity | split]]].
  3:{ intros ctx Hne. unfold sections.
      destruct (decide (0 < length (perInstanceIndexSql ctx))) as [_|Hlen].
      - rewrite !app_assoc. by eexists.
      - destruct (perInstanceIndexSql ctx); [done | cbn in Hlen; lia]. }
  - intros decl ctx Hcols. unfold processPerInstanceIndex, generateIndexSql.
    cbn [perInstanceIndexSql set_perInstanceIndexSql idx_columns idx_unique idx_using].
    by rewrite (expandTemplate_identifiers _ _ Hcols).
  - intros text H. vm_compute in H. injection H as <-. vm_compute. reflexivity.
Qed.

End IndexFacts.

(* ===================================================================== *)
(** ** The entry point                                                    *)
(* ===================================================================== *)

Module CompilerFacts.
Import Js Ast Compiler.

(** The outcome of [parse] does not depend on what earlier calls left in the
    parser instance: the token vector is set, and the errors reset, before
    the parser runs. *)
Lemma parse_stateless (E : Engine) (source : string) (p1 p2 : ParserInstance) :
  (parse E source p1).1 = (parse E source p2).1.
Proof.
  unfold parse. destruct (decide _); [done|].
  unfold setInput, runProgram. cbn [input parserErrors].
  destruct (program E (Lexer.tokens (Lexer.tokenize source))) as [cst errs].
  by destruct (decide _).
Qed.

Lemma compile_of_parse (E : Engine) (source : string) (p1 p2 : ParserInstance) :
  (compile E source p1).1 = (compile E source p2).1.
Proof.
  pose proof (parse_stateless E source p1 p2) as H. unfold compile.
  destruct (parse E source p1) as [r1 q1], (parse E source p2) as [r2 q2].
  cbn [fst] in H. subst r2.
  destruct (decide _); [done|].
  destruct (pr_ast r1) as [program|]; [|done].
  by destruct (Generator.generate (stackDepth E) program).
Qed.

(** C3.  When the text parses without errors and the generation throws,
    [compile] returns a failure that carries the parsed program and exactly
    one error, without location, whose message is
    ["Code generation failed: "] followed by the text of what was thrown. *)
Theorem generation_failure_reported (E : Engine) (source : string)
  (p p' : ParserInstance) (program : GSQLProgram) (error : Thrown)
  (Hparse : parse E source p = ({| pr_ast := Some program; pr_errors := [] |}, p'))
  (Hthrow : Generator.generate (stackDepth E) program = Throw error) :
  compile E source p
  = ({| success := false;
        sql := None;
        errors := [{| message := "Code generation failed: " +:+ thrownMessage error;
                      location := None;
                      severity := "error" |}];
        ast := Some program |}, p').
Proof.
  unfold compile. rewrite Hparse. cbn [pr_errors pr_ast length].
  destruct (decide (0 < 0)); [lia|]. by rewrite Hthrow.
Qed.

Lemma generation_failure_reported_witness :
  compile Samples.cyclicEngine Samples.cyclicSource Samples.freshParser
  = ({| success := false;
        sql := None;
        errors := [{| message := "Code generation failed: Maximum call stack size exceeded";
                      location := None;
                      severity := "error" |}];
        ast := Some Samples.cyclicProgram |},
     (parse Samples.cyclicEngine Samples.cyclicSource Samples.freshParser).2).
Proof.
  apply (generation_failure_reported Samples.cyclicEngine Samples.cyclicSource
           Samples.freshParser
           (parse Samples.cyclicEngine Samples.cyclicSource Samples.freshParser).2
           Samples.cyclicProgram stackOverflow).
  - rewrite (surjective_pairing (parse _ _ _)) at 1.
    apply (f_equal (fun r =>
             (r, (parse Samples.cyclicEngine Samples.cyclicSource Samples.freshParser).2))).
    vm_compute. reflexivity.
  - apply MixinFacts.cyclic_generate.
Defined.

End CompilerFacts.

(* ===================================================================== *)
(** ** Keywords and identifiers in the lexer                              *)
(* ===================================================================== *)

Module LexerFacts.
Import Js Lexer Spec JsFacts.

Lemma length_takeWhile_le (p : ascii -> bool) (s : string) :
  String.length (takeWhile p s) <= String.length s.
Proof.
  induction s as [|c s IH]; [done|]. cbn [takeWhile].
  destruct (p c); cbn [String.length]; lia.
Qed.

Lemma length_drop (n : nat) (s : string) :
  String.length (drop n s) = String.length s - n.
Proof.
  revert s. induction n as [|n IH]; intros s; cbn [drop]; [lia|].
  destruct s as [|c s]; [done|]. cbn [String.length]. by rewrite IH.
Qed.

Lemma length_take (n : nat) (s : string) :
  String.length (take n s) = n `min` String.length s.
Proof.
  revert s. induction n as [|n IH]; intros s; cbn [take]; [done|].
  destruct s as [|c s]; [done|]. cbn [String.length]. by rewrite IH.
Qed.

Lemma take_all (n : nat) (s : string) : String.length s <= n -> take n s = s.
Proof.
  revert s. induction n as [|n IH]; intros s Hn.
  - destruct s; [done | cbn in Hn; lia].
  - destruct s as [|c s]; [done|]. cbn [take]. rewrite IH; [done | cbn in Hn; lia].
Qed.

Lemma length_mapChars (f : ascii -> ascii) (s : string) :
  String.length (mapChars f s) = String.length s.
Proof. induction s as [|c s IH]; [done|]. cbn. by rewrite IH. Qed.

Lemma startsWith_length (t s : string) :
  startsWith t s = true -> String.length t <= String.length s.
Proof.
  revert s. induction t as [|a t IH]; intros s; [cbn; lia|].
  destruct s as [|b s]; [done|]. cbn [startsWith String.length].
  intros [_ H]%andb_prop. specialize (IH s H). lia.
Qed.

Lemma exec_exact_le (text s : string) (n : nat) :
  exec (Exact text) s = Some n -> n <= String.length s.
Proof.
  cbn [exec]. destruct (startsWith text s) eqn:H; [|done].
  intros [= <-]. by apply startsWith_length.
Qed.

Lemma execNoCase_le (text s : string) (n : nat) :
  execNoCase text s = Some n -> n <= String.length s.
Proof.
  unfold execNoCase. destruct (String.eqb _ _) eqn:H; [|done]. intros [= <-].
  apply String.eqb_eq in H. apply (f_equal String.length) in H.
  unfold toLowerCase in H. rewrite !length_mapChars, length_take in H. lia.
Qed.

Lemma execWhiteSpace_le (s : string) (n : nat) :
  execWhiteSpace s = Some n -> n <= String.length s.
Proof.
  unfold execWhiteSpace. destruct (truthy _); [|done]. intros [= <-].
  apply length_takeWhile_le.
Qed.

Lemma execDoublePrecision_le (s : string) (n : nat) :
  execDoublePrecision s = Some n -> n <= String.length s.
Proof.
  unfold execDoublePrecision.
  destruct (execNoCase "double" s) as [a|] eqn:Ha; [|done].
  destruct (execWhiteSpace (drop a s)) as [b|] eqn:Hb; [|done].
  destruct (execNoCase "precision" (drop (a + b) s)) as [c|] eqn:Hc; [|done].
  intros [= <-].
  apply execNoCase_le in Ha, Hc. apply execWhiteSpace_le in Hb.
  rewrite length_drop in Hb, Hc. 
  lia.
Qed.

Lemma execBooleanLiteral_le (s : string) (n : nat) :
  execBooleanLiteral s = Some n -> n <= String.length s.
Proof.
  unfold execBooleanLiteral.
  destruct (startsWith "true" s) eqn:Ht; [intros [= <-]; by apply (startsWith_length "true")|].
  destruct (startsWith "false" s) eqn:Hf; [intros [= <-]; by apply (startsWith_length "false")|].
  done.
Qed.

(** Where an identifier starts, none of these characters stands. *)
Lemma identStart_facts (c : ascii) :
  isIdentStart c = true ->
  isSpace c = false /\ isDigit c = false
  /\ Ascii.eqb "/" c = false /\ Ascii.eqb "-" c = false /\ Ascii.eqb ":" c = false
  /\ (code c =? 39)%nat = false /\ (code c =? 123)%nat = false.
Proof. each_char c. Qed.

Lemma blind_whitespace : Blind WhiteSpace.
Proof.
  intros c rest Hc. destruct (identStart_facts c Hc) as (H & _).
  cbn [exec pattern WhiteSpace]. unfold execWhiteSpace. cbn [takeWhile]. by rewrite H.
Qed.

Lemma blind_lineComment : Blind LineComment.
Proof.
  intros c rest Hc. destruct (identStart_facts c Hc) as (_ & _ & H & _).
  cbn [exec pattern LineComment]. unfold execLineComment. cbn [startsWith]. by rewrite H.
Qed.

Lemma blind_blockComment : Blind BlockComment.
Proof.
  intros c rest Hc. destruct (identStart_facts c Hc) as (_ & _ & H & _).
  cbn [exec pattern BlockComment]. unfold execBlockComment. cbn [startsWith]. by rewrite H.
Qed.

Lemma blind_arrow : Blind Arrow.
Proof.
  intros c rest Hc. destruct (identStart_facts c Hc) as (_ & _ & _ & H & _).
  cbn [exec pattern Arrow startsWith]. by rewrite H.
Qed.

Lemma blind_doubleColon : Blind DoubleColon.
Proof.
  intros c rest Hc. destruct (identStart_facts c Hc) as (_ & _ & _ & _ & H & _).
  cbn [exec pattern DoubleColon startsWith]. by rewrite H.
Qed.

Lemma blind_stringLiteral : Blind StringLiteral.
Proof.
  intros c rest Hc. destruct (identStart_facts c Hc) as (_ & _ & _ & _ & _ & H & _).
  cbn [exec pattern StringLiteral]. unfold execStringLiteral. by rewrite H.
Qed.

Lemma blind_numberLiteral : Blind NumberLiteral.
Proof.
  intros c rest Hc. destruct (identStart_facts c Hc) as (_ & Hd & _ & Hm & _).
  cbn [exec pattern NumberLiteral]. unfold execNumberLiteral.
  cbn [startsWith]. rewrite Hm. cbn [andb drop takeWhile]. by rewrite Hd.
Qed.

Lemma blind_templateIdentifier : Blind TemplateIdentifier.
Proof.
  intros c rest Hc. destruct (identStart_facts c Hc) as (_ & _ & _ & _ & _ & _ & H).
  cbn [exec pattern TemplateIdentifier]. unfold execTemplateIdentifier. by rewrite H.
Qed.

Lemma guarded_exact (n text : string) :
  Guarded {| name := n; pattern := Exact text; longer_alt := Some Identifier;
             skipped := false |}.
Proof. repeat split. intros s k. apply exec_exact_le. Qed.

Lemma guarded_nocase (n text : string) :
  Guarded {| name := n; pattern := NoCase text; longer_alt := Some Identifier;
             skipped := false |}.
Proof. repeat split. intros s k. apply execNoCase_le. Qed.

Lemma guarded_doublePrecision : Guarded DoublePrecision.
Proof. repeat split. intros s k. apply execDoublePrecision_le. Qed.

Lemma guarded_booleanLiteral : Guarded BooleanLiteral.
Proof. repeat split. intros s k. apply execBooleanLiteral_le. Qed.

Lemma allTokens_split : allTokens = beforeIdentifier ++ Identifier :: skipn 72 allTokens.
Proof. reflexivity. Qed.

Lemma beforeIdentifier_kinds : Forall (fun t => Blind t \/ Guarded t) beforeIdentifier.
Proof.
  unfold beforeIdentifier. cbn [firstn allTokens].
  repeat (apply Forall_cons; split;
    [first [ right; apply guarded_exact | right; apply guarded_nocase
           | right; apply guarded_doublePrecision | right; apply guarded_booleanLiteral
           | left; apply blind_whitespace | left; apply blind_lineComment
           | left; apply blind_blockComment | left; apply blind_arrow
           | left; apply blind_doubleColon | left; apply blind_stringLiteral
           | left; apply blind_numberLiteral | left; apply blind_templateIdentifier ] |]).
  apply Forall_nil_2.
Qed.

Lemma execIdentifier_word (w : string) :
  isIdentifier w = true -> exec (pattern Identifier) w = Some (String.length w).
Proof.
  unfold isIdentifier. cbn [exec pattern Identifier].
  destruct (execIdentifier w) as [n|]; [|done]. by intros ->%Nat.eqb_eq.
Qed.

(** On an identifier word the first match covers the word: it is the
    identifier itself, unless a guarded pattern matches the whole word. *)
Lemma matchAt_word (w : string) (front rest : list TokenType) :
  isIdentifier w = true ->
  Forall (fun t => Blind t \/ Guarded t) front ->
  exists tokType,
    matchAt (front ++ Identifier :: rest) w = Some (tokType, String.length w)
    /\ skipped tokType = false
    /\ (tokType = Identifier
        \/ (tokType ∈ front /\ longer_alt tokType = Some Identifier
            /\ exec (pattern tokType) w = Some (String.length w))).
Proof.
  intros Hw Hfront. pose proof (execIdentifier_word w Hw) as Hid.
  induction Hfront as [|t front Ht _ IH].
  - exists Identifier. cbn [app matchAt]. rewrite Hid. cbn [longer_alt Identifier].
    split; [done|]. split; [done | by left].
  - cbn [app matchAt]. destruct (exec (pattern t) w) as [n|] eqn:Hn.
    + destruct Ht as [Hblind | (Halt & Hskip & Hle)].
      * unfold isIdentifier, execIdentifier in Hw. destruct w as [|c w']; [done|].
        destruct (isIdentStart c) eqn:Hc; [|done]. by rewrite (Hblind c w' Hc) in Hn.
      * rewrite Halt, Hid. specialize (Hle w n Hn).
        destruct (n <? String.length w)%nat eqn:Hlt.
        -- exists Identifier. split; [done|]. split; [done | by left].
        -- apply Nat.ltb_ge in Hlt. assert (n = String.length w) as -> by lia.
           exists t. split; [done|]. split; [done|]. right.
           split; [by left|]. by split.
    + destruct IH as (tokType & Hm & Hs & Hk). exists tokType.
      split; [done|]. split; [done|].
      destruct Hk as [-> | (Hin & Halt & He)]; [by left|].
      right. split; [by right|]. by split.
Qed.

Lemma scan_skip_all (toks : list TokenType) (text : string) :
  forall skip offset, String.length text <= skip -> scan toks skip offset text = ([], []).
Proof.
  induction text as [|c text IH]; intros skip offset Hs; [done|].
  cbn [String.length] in Hs. destruct skip as [|skip]; [lia|].
  cbn [scan]. apply IH. lia.
Qed.

(** An identifier word is one token, the first match at its head. *)
Lemma tokenize_word (w : string) (tokType : TokenType) :
  isIdentifier w = true ->
  matchAt allTokens w = Some (tokType, String.length w) ->
  skipped tokType = false ->
  tokenize w
  = {| tokens := [{| image := w; startOffset := 0; tokenType := tokType |}];
       errors := [] |}.
Proof.
  intros Hw Hm Hs. unfold tokenize. destruct w as [|c rest]; [done|].
  cbn [scan]. rewrite Hm. cbn [String.length]. rewrite Nat.sub_succ, Nat.sub_0_r.
  rewrite scan_skip_all by done. rewrite Hs.
  change (take (S (String.length rest)) (String c rest))
    with (String c (take (String.length rest) rest)).
  by rewrite take_all.
Qed.

(** A word the identifier pattern matches as a whole is lexed as one token
    that spells all of it: a plain [Identifier], or the reserved token whose
    pattern matches the whole word. *)
Lemma identifier_word_one_token (w : string) :
  isIdentifier w = true ->
  exists tokType,
    tokenize w
    = {| tokens := [{| image := w; startOffset := 0; tokenType := tokType |}];
         errors := [] |}
    /\ (tokType = Identifier
        \/ (tokType ∈ allTokens /\ longer_alt tokType = Some Identifier
            /\ exec (pattern tokType) w = Some (String.length w))).
Proof.
  intros Hword.
  destruct (matchAt_word w beforeIdentifier (skipn 72 allTokens) Hword
              beforeIdentifier_kinds) as (tokType & Hm & Hs & Hk).
  rewrite <- allTokens_split in Hm.
  exists tokType. split; [by apply tokenize_word|].
  destruct Hk as [-> | (Hin & Ha & He)]; [by left | right].
  split; [|by split]. rewrite allTokens_split. apply elem_of_app. by left.
Qed.

(** Words that are reserved as a whole keep their own token, though a
    shorter keyword is a prefix of them. *)
Example reserved_words_lex_as_themselves :
  map (fun t => name (tokenType t))
      (tokens (tokenize "function ondelete timestamp TIMESTAMPTZ jsonb"))
  = ["Function"; "Ondelete"; "Timestamp"; "Timestamptz"; "Jsonb"].
Proof. vm_compute. reflexivity. Qed.

Example longer_words_lex_as_identifiers :
  map (fun t => (name (tokenType t), image t))
      (tokens (tokenize "functional ondeleted timestamps TEXTual nullable truex"))
  = [("Identifier", "functional"); ("Identifier", "ondeleted");
     ("Identifier", "timestamps"); ("Identifier", "TEXTual");
     ("Identifier", "nullable"); ("Identifier", "truex")].
Proof. vm_compute. reflexivity. Qed.

End LexerFacts.

(* ===================================================================== *)
(** ** The scan: where the tokens lie                                     *)
(* ===================================================================== *)

Module ScanFacts.
Import Js Lexer Spec LexerNotions JsFacts LexerFacts.

Lemma bounded_exact (nm text : string) (alt : option TokenType) (sk : bool) :
  truthy text = true ->
  Bounded {| name := nm; pattern := Exact text; longer_alt := alt; skipped := sk |}.
Proof.
  intros Ht s n H. split; [|by apply (exec_exact_le text)].
  cbn [exec pattern] in H. destruct (startsWith text s); [|done].
  apply (inj Some) in H; subst n. destruct text; [done | cbn; lia].
Qed.

Lemma bounded_nocase (nm text : string) (alt : option TokenType) (sk : bool) :
  truthy text = true ->
  Bounded {| name := nm; pattern := NoCase text; longer_alt := alt; skipped := sk |}.
Proof.
  intros Ht s n H. cbn [exec pattern] in H. split; [|by apply (execNoCase_le text)].
  unfold execNoCase in H. destruct (String.eqb _ _); [|done].
  apply (inj Some) in H; subst n. destruct text; [done | cbn; lia].
Qed.

Lemma bounded_whiteSpace : Bounded WhiteSpace.
Proof.
  intros s n H. split; [|by apply execWhiteSpace_le].
  cbn [exec pattern WhiteSpace] in H. unfold execWhiteSpace in H.
  destruct (takeWhile isSpace s); [done|]. cbn [truthy] in H.
  apply (inj Some) in H; subst n. cbn. lia.
Qed.

Lemma bounded_lineComment : Bounded LineComment.
Proof.
  intros s n H. cbn [exec pattern LineComment] in H. unfold execLineComment in H.
  destruct (startsWith "//" s) eqn:Hs; [|done]. apply (inj Some) in H; subst n.
  split; [lia|]. apply startsWith_length in Hs.
  pose proof (length_takeWhile_le (fun c => negb (code c =? 10)%nat) (drop 2 s)) as Hl.
  rewrite length_drop in Hl. cbn in Hs. lia.
Qed.

Lemma indexOf_le (needle s : string) (i : nat) :
  indexOf needle s = Some i -> i + String.length needle <= String.length s.
Proof.
  revert i. induction s as [|c s IH]; intros i.
  - cbn [indexOf]. destruct (startsWith needle EmptyString) eqn:H; [|done].
    intros [= <-]. by apply startsWith_length in H.
  - cbn [indexOf]. destruct (startsWith needle (String c s)) eqn:H.
    + intros [= <-]. by apply startsWith_length in H.
    + destruct (indexOf needle s) as [j|]; [|done]. intros [= <-].
      specialize (IH j eq_refl). cbn [String.length]. lia.
Qed.

Lemma bounded_blockComment : Bounded BlockComment.
Proof.
  intros s n H. cbn [exec pattern BlockComment] in H. unfold execBlockComment in H.
  destruct (startsWith "/*" s) eqn:Hs; [|done].
  destruct (indexOf "*/" (drop 2 s)) as [i|] eqn:Hi; [|done].
  apply (inj Some) in H; subst n.
  split; [lia|]. apply indexOf_le in Hi. rewrite length_drop in Hi.
  apply startsWith_length in Hs. cbn in Hs, Hi. lia.
Qed.

Lemma execIdentifier_bounds (s : string) (n : nat) :
  execIdentifier s = Some n -> 0 < n <= String.length s.
Proof.
  unfold execIdentifier. destruct s as [|c rest]; [done|].
  destruct (isIdentStart c); [|done]. intros [= <-]. cbn [String.length].
  pose proof (length_takeWhile_le isWord rest). lia.
Qed.

Lemma bounded_identifier : Bounded Identifier.
Proof. intros s n. apply execIdentifier_bounds. Qed.

Lemma bounded_templateIdentifier : Bounded TemplateIdentifier.
Proof.
  intros s n H. cbn [exec pattern TemplateIdentifier] in H.
  unfold execTemplateIdentifier in H. destruct s as [|b rest]; [done|].
  destruct (code b =? 123)%nat; [|done].
  destruct (execIdentifier rest) as [k|] eqn:Hk; [|done].
  destruct (startsWith "}" (drop k rest)) eqn:Hb; [|done].
  apply (inj Some) in H; subst n.
  apply startsWith_length in Hb. rewrite length_drop in Hb. cbn in Hb.
  cbn [String.length]. lia.
Qed.

Lemma execStringBody_fuel (m : nat) :
  forall s k n, String.length s <= m ->
    execStringBody k s = Some n -> k < n <= k + String.length s.
Proof.
  induction m as [|m IH]; intros s k n Hm; (destruct s as [|c s]; [done|]);
    cbn [String.length] in *; [lia|].
  cbn [execStringBody].
  destruct (code c =? 39)%nat; [intros [= <-]; lia|].
  destruct (code c =? 92)%nat.
  - destruct s as [|d s]; [done|]. destruct (isLineTerminator d); [done|].
    cbn [String.length] in *. intros H. apply IH in H; lia.
  - intros H. apply IH in H; lia.
Qed.

Lemma bounded_stringLiteral : Bounded StringLiteral.
Proof.
  intros s n H. cbn [exec pattern StringLiteral] in H. unfold execStringLiteral in H.
  destruct s as [|q rest]; [done|]. destruct (code q =? 39)%nat; [|done].
  apply (execStringBody_fuel (String.length rest)) in H; [|done].
  cbn [String.length]. lia.
Qed.

Lemma bounded_numberLiteral : Bounded NumberLiteral.
Proof.
  intros s n H. cbn [exec pattern NumberLiteral] in H. unfold execNumberLiteral in H.
  set (sign := if startsWith "-" s then 1 else 0) in *.
  assert (sign <= String.length s) as Hsign.
  { subst sign. destruct (startsWith "-" s) eqn:Hm; [|lia].
    by apply startsWith_length in Hm. }
  set (int := takeWhile isDigit (drop sign s)) in *.
  pose proof (length_takeWhile_le isDigit (drop sign s)) as Hint.
  fold int in Hint. rewrite length_drop in Hint.
  destruct int as [|d int'] eqn:Eint; [done|]. cbn [truthy] in H.
  rewrite <- Eint in *. assert (0 < String.length int) by (rewrite Eint; cbn; lia).
  set (rest := drop (sign + String.length int) s) in *.
  destruct (startsWith "." rest && truthy (takeWhile isDigit (drop 1 rest))) eqn:Hf.
  - apply (inj Some) in H; subst n. apply andb_prop in Hf as [Hdot _].
    pose proof (length_takeWhile_le isDigit (drop 1 rest)) as Hfrac.
    apply startsWith_length in Hdot. subst rest.
    rewrite !length_drop in Hfrac. rewrite length_drop in Hdot. cbn in Hdot. lia.
  - apply (inj Some) in H; subst n. lia.
Qed.

Lemma bounded_doublePrecision : Bounded DoublePrecision.
Proof.
  intros s n H. split; [|by apply execDoublePrecision_le].
  cbn [exec pattern DoublePrecision] in H. unfold execDoublePrecision in H.
  destruct (execNoCase "double" s) as [a|] eqn:Ha; [|done].
  destruct (execWhiteSpace (drop a s)) as [b|]; [|done].
  destruct (execNoCase "precision" (drop (a + b) s)) as [c|]; [|done].
  apply (inj Some) in H; subst n. unfold execNoCase in Ha.
  destruct (String.eqb _ _); [|done].
  apply (inj Some) in Ha; subst a. cbn. lia.
Qed.

Lemma bounded_booleanLiteral : Bounded BooleanLiteral.
Proof.
  intros s n H. split; [|by apply execBooleanLiteral_le].
  cbn [exec pattern BooleanLiteral] in H. unfold execBooleanLiteral in H.
  destruct (startsWith "true" s); [apply (inj Some) in H; subst n; lia|].
  destruct (startsWith "false" s); [apply (inj Some) in H; subst n; lia | done].
Qed.

Lemma allTokens_bounded : Forall Bounded allTokens.
Proof.
  unfold allTokens.
  repeat (apply Forall_cons; split;
    [first [ by apply bounded_exact | by apply bounded_nocase
           | apply bounded_whiteSpace | apply bounded_lineComment
           | apply bounded_blockComment | apply bounded_identifier
           | apply bounded_templateIdentifier | apply bounded_stringLiteral
           | apply bounded_numberLiteral | apply bounded_doublePrecision
           | apply bounded_booleanLiteral ] |]).
  apply Forall_nil_2.
Qed.

(** The alternative of every pattern of the token array is the identifier. *)
Lemma allTokens_alternatives :
  Forall (fun t => longer_alt t = None \/ longer_alt t = Some Identifier) allTokens.
Proof.
  unfold allTokens.
  repeat (apply Forall_cons; split; [first [by left | by right]|]). apply Forall_nil_2.
Qed.

Lemma identifier_in_allTokens : Identifier ∈ allTokens.
Proof. rewrite allTokens_split. apply elem_of_app. right. by left. Qed.

(** What [matchAt] returns over the token array: a kind of the array and a
    length within the text. *)
Lemma matchAt_allTokens (toks : list TokenType) (text : string) (tokType : TokenType) (n : nat) :
  toks ⊆ allTokens ->
  matchAt toks text = Some (tokType, n) ->
  tokType ∈ allTokens /\ 0 < n <= String.length text.
Proof.
  induction toks as [|t toks IH]; intros Hsub; [done|]. cbn [matchAt].
  assert (t ∈ allTokens) as Ht by (apply Hsub; by left).
  assert (toks ⊆ allTokens) as Hrest by (intros x Hx; apply Hsub; by right).
  pose proof (proj1 (Forall_forall _ _) allTokens_bounded t Ht) as Hb.
  pose proof (proj1 (Forall_forall _ _) allTokens_alternatives t Ht) as Ha.
  destruct (exec (pattern t) text) as [k|] eqn:Hk; [|by apply IH].
  specialize (Hb text k Hk).
  destruct Ha as [-> | ->]; [by intros [= <- <-]|].
  destruct (exec (pattern Identifier) text) as [m|] eqn:Hm; [|by intros [= <- <-]].
  destruct (k <? m)%nat; intros [= <- <-]; [|done].
  split; [apply identifier_in_allTokens | by apply bounded_identifier].
Qed.

Lemma placed_shift (offset skip : nat) (c : ascii) (rest : string) (tok : IToken) (skip' : nat) :
  skip' <= S skip ->
  Placed (S offset) skip rest tok -> Placed offset skip' (String c rest) tok.
Proof.
  intros Hs [H1 H2 H3 H4 H5 H6]. split; try done.
  - lia.
  - cbn [String.length]. lia.
  - replace (startOffset tok - offset) with (S (startOffset tok - S offset)) by lia.
    exact H6.
Qed.

Lemma scan_placed (text : string) :
  forall skip offset tok,
    tok ∈ (scan allTokens skip offset text).1 -> Placed offset skip text tok.
Proof.
  induction text as [|c rest IH]; intros skip offset tok; cbn [scan]; [by intros ?%elem_of_nil|].
  destruct skip as [|skip].
  - destruct (matchAt allTokens (String c rest)) as [[tokType n]|] eqn:Hm.
    + destruct (matchAt_allTokens allTokens _ _ _ (reflexivity _) Hm) as [Hin Hn].
      destruct (scan allTokens (n - 1) (S offset) rest) as [toks bad] eqn:Hscan.
      cbn [fst].
      assert (forall t, t ∈ toks -> Placed offset 0 (String c rest) t) as Hrest.
      { intros t Ht. apply (placed_shift offset (n - 1)); [lia|].
        apply IH. by rewrite Hscan. }
      destruct (skipped tokType) eqn:Hsk; [apply Hrest|].
      intros [-> | Ht]%elem_of_cons; [|by apply Hrest].
      assert (String.length (take n (String c rest)) = n) as Hlen
        by (rewrite length_take; lia).
      split; cbn [image startOffset tokenType]; rewrite ?Hlen; try done; try lia.
      by rewrite Nat.sub_diag.
    + destruct (scan allTokens 0 (S offset) rest) as [toks bad] eqn:Hscan. cbn [fst].
      intros Ht. apply (placed_shift offset 0); [lia|]. apply IH. by rewrite Hscan.
  - intros Ht. apply (placed_shift offset skip); [lia|]. by apply IH.
Qed.

Lemma inOrder_cons (tok : IToken) (toks : list IToken) :
  (forall t, t ∈ toks -> startOffset tok + String.length (image tok) <= startOffset t) ->
  InOrder toks -> InOrder (tok :: toks).
Proof.
  intros Hhead Hrest i j t1 t2 Hij Hi Hj. destruct j as [|j]; [lia|].
  cbn in Hj. destruct i as [|i].
  - cbn in Hi. injection Hi as <-. apply Hhead. by eapply list_elem_of_lookup_2.
  - cbn in Hi. apply (Hrest i j); [lia | done..].
Qed.

Lemma scan_inOrder (text : string) :
  forall skip offset, InOrder (scan allTokens skip offset text).1.
Proof.
  induction text as [|c rest IH]; intros skip offset; cbn [scan].
  { intros i j t1 t2 _ Hi. cbn in Hi. by rewrite lookup_nil in Hi. }
  destruct skip as [|skip]; [|apply IH].
  destruct (matchAt allTokens (String c rest)) as [[tokType n]|] eqn:Hm.
  - destruct (matchAt_allTokens allTokens _ _ _ (reflexivity _) Hm) as [Hin Hn].
    pose proof (IH (n - 1) (S offset)) as Hord.
    pose proof (fun t => scan_placed rest (n - 1) (S offset) t) as Hpl.
    destruct (scan allTokens (n - 1) (S offset) rest) as [toks bad]. cbn [fst] in *.
    destruct (skipped tokType); [done|]. apply inOrder_cons; [|done].
    intros t Ht. cbn [image startOffset]. rewrite length_take.
    pose proof (placed_start _ _ _ _ (Hpl t Ht)). lia.
  - pose proof (IH 0 (S offset)) as Hord.
    by destruct (scan allTokens 0 (S offset) rest) as [toks bad].
Qed.

Lemma tokenize_tokens (input : string) :
  tokens (tokenize input) = (scan allTokens 0 0 input).1.
Proof. unfold tokenize. by destruct (scan allTokens 0 0 input). Qed.

Lemma serial_in_allTokens : Serial ∈ allTokens.
Proof. apply list_elem_of_In. unfold allTokens. cbn [In]. do 47 right. by left. Qed.

(** X1.  The tokens [tokenize] returns tile the input: the text of a token
    is not empty and is the piece of the input that starts at its offset,
    and the tokens come in the order of the input, none reaching into the
    next. *)
Theorem tokens_tile_the_input (input : string) :
  (forall tok, tok ∈ tokens (tokenize input) ->
     image tok <> EmptyString
     /\ take (String.length (image tok)) (drop (startOffset tok) input) = image tok)
  /\ (forall i j t1 t2, i < j ->
        tokens (tokenize input) !! i = Some t1 -> tokens (tokenize input) !! j = Some t2 ->
        startOffset t1 + String.length (image t1) <= startOffset t2).
Proof.
  rewrite tokenize_tokens. split.
  - intros tok [_ _ Hne _ _ Hsl]%scan_placed. rewrite Nat.sub_0_r in Hsl.
    split; [|done]. intros E. rewrite E in Hne. cbn in Hne. lia.
  - apply scan_inOrder.
Qed.

(** In [id serial] the token [serial] is the six characters at offset 3, and
    [id] ends before it starts. *)
Lemma tokens_tile_the_input_witness :
  take 6 (drop 3 "id serial") = "serial" /\ 0 + 2 <= 3.
Proof.
  destruct (tokens_tile_the_input "id serial") as [Hslice Horder]. split.
  - refine (proj2 (Hslice {| image := "serial"; startOffset := 3; tokenType := Serial |} _)).
    apply list_elem_of_In. right. left. reflexivity.
  - apply (Horder 0 1 {| image := "id"; startOffset := 0; tokenType := Identifier |}
                      {| image := "serial"; startOffset := 3; tokenType := Serial |});
      [lia | reflexivity | reflexivity].
Defined.

(** X2.  Whitespace and comments never reach the output of [tokenize]: the
    kind of every token is one of the token array, and is not called
    [WhiteSpace], [LineComment] or [BlockComment]. *)
Theorem comments_are_not_tokens (input : string) (tok : IToken) :
  tok ∈ tokens (tokenize input) ->
  tokenType tok ∈ allTokens
  /\ name (tokenType tok) ∉ ["WhiteSpace"; "LineComment"; "BlockComment"].
Proof.
  rewrite tokenize_tokens. intros [Hin Hkept _ _ _ _]%scan_placed. split; [done|].
  assert (Forall (fun t => skipped t = false ->
                         name t ∉ ["WhiteSpace"; "LineComment"; "BlockComment"])
                 allTokens) as Hall.
  { unfold allTokens.
    repeat (apply Forall_cons; split;
            [first [by intros [=]
                   | intros _ H; cbn [name] in H;
                     repeat (apply elem_of_cons in H as [H|H]; [discriminate H|]);
                     by apply elem_of_nil in H]|]).
    apply Forall_nil_2. }
  exact (proj1 (Forall_forall _ _) Hall _ Hin Hkept).
Qed.

(** A comment line and then [id]: the one token is the identifier. *)
Lemma comments_are_not_tokens_witness :
  Identifier ∈ allTokens
  /\ "Identifier" ∉ ["WhiteSpace"; "LineComment"; "BlockComment"].
Proof.
  apply (comments_are_not_tokens ("// key" +:+ nl +:+ "id")
           {| image := "id"; startOffset := 7; tokenType := Identifier |}).
  apply list_elem_of_In. left. reflexivity.
Defined.

End ScanFacts.

(* ===================================================================== *)
(** ** Letter case in keywords and data types                             *)
(* ===================================================================== *)

Module CaseFacts.
Import Js Lexer Spec LexerNotions JsFacts LexerFacts ScanFacts.

Lemma mapChars_take (f : ascii -> ascii) (n : nat) (s : string) :
  mapChars f (take n s) = take n (mapChars f s).
Proof.
  revert s. induction n as [|n IH]; intros [|c s]; try done.
  cbn [take mapChars]. by rewrite IH.
Qed.

Lemma mapChars_drop (f : ascii -> ascii) (n : nat) (s : string) :
  mapChars f (drop n s) = drop n (mapChars f s).
Proof. revert s. induction n as [|n IH]; intros [|c s]; try done. cbn [drop mapChars]. apply IH. Qed.

Lemma toLowerChar_idem (c : ascii) : toLowerChar (toLowerChar c) = toLowerChar c.
Proof. each_char c. Qed.

Lemma toLowerCase_idem (s : string) : toLowerCase (toLowerCase s) = toLowerCase s.
Proof.
  induction s as [|c s IH]; [done|]. unfold toLowerCase in *. cbn [mapChars].
  by rewrite toLowerChar_idem, IH.
Qed.

Lemma startsWith_mapChars (f : ascii -> ascii) (t s : string) :
  startsWith t s = true -> startsWith (mapChars f t) (mapChars f s) = true.
Proof.
  revert s. induction t as [|a t IH]; intros [|b s]; try done.
  cbn [startsWith mapChars]. intros [->%Ascii.eqb_eq H]%andb_prop.
  by rewrite Ascii.eqb_refl, IH.
Qed.

Lemma execNoCase_fold (text w : string) :
  execNoCase text (toLowerCase w) = execNoCase text w.
Proof.
  unfold execNoCase.
  replace (take (String.length text) (toLowerCase w))
    with (toLowerCase (take (String.length text) w)) by apply mapChars_take.
  by rewrite toLowerCase_idem.
Qed.

Lemma takeWhile_mapChars (p : ascii -> bool) (f : ascii -> ascii) (s : string) :
  (forall c, p (f c) = p c) ->
  String.length (takeWhile p (mapChars f s)) = String.length (takeWhile p s).
Proof.
  intros Hp. induction s as [|c s IH]; [done|]. cbn [mapChars takeWhile].
  rewrite Hp. destruct (p c); [|done]. cbn [String.length]. by rewrite IH.
Qed.

Lemma isSpace_lower (c : ascii) : isSpace (toLowerChar c) = isSpace c.
Proof. each_char c. Qed.

Lemma isWord_lower (c : ascii) : isWord (toLowerChar c) = isWord c.
Proof. each_char c. Qed.

Lemma isIdentStart_lower (c : ascii) : isIdentStart (toLowerChar c) = isIdentStart c.
Proof. each_char c. Qed.

Lemma truthy_length (s : string) : truthy s = (0 <? String.length s)%nat.
Proof. by destruct s. Qed.

Lemma execWhiteSpace_fold (s : string) :
  execWhiteSpace (toLowerCase s) = execWhiteSpace s.
Proof.
  unfold execWhiteSpace, toLowerCase. rewrite !truthy_length.
  by rewrite (takeWhile_mapChars isSpace toLowerChar s isSpace_lower).
Qed.

Lemma execDoublePrecision_fold (s : string) :
  execDoublePrecision (toLowerCase s) = execDoublePrecision s.
Proof.
  unfold execDoublePrecision. rewrite execNoCase_fold.
  destruct (execNoCase "double" s) as [n|]; [|done].
  unfold toLowerCase at 1. rewrite <- mapChars_drop. fold (toLowerCase (drop n s)).
  rewrite execWhiteSpace_fold. destruct (execWhiteSpace (drop n s)) as [k|]; [|done].
  unfold toLowerCase at 1. rewrite <- mapChars_drop. fold (toLowerCase (drop (n + k) s)).
  by rewrite execNoCase_fold.
Qed.

Lemma execIdentifier_fold (s : string) :
  execIdentifier (toLowerCase s) = execIdentifier s.
Proof.
  destruct s as [|c s]; [done|]. unfold toLowerCase. cbn [mapChars execIdentifier].
  rewrite isIdentStart_lower. destruct (isIdentStart c); [|done].
  by rewrite (takeWhile_mapChars isWord toLowerChar s isWord_lower).
Qed.

Lemma isIdentifier_fold (s : string) : isIdentifier (toLowerCase s) = isIdentifier s.
Proof.
  unfold isIdentifier. rewrite execIdentifier_fold. unfold toLowerCase.
  by rewrite length_mapChars.
Qed.

Lemma folds_exact (nm text : string) (alt : option TokenType) (sk : bool) :
  Folds {| name := nm; pattern := Exact text; longer_alt := alt; skipped := sk |}.
Proof.
  intros w n. unfold foldedMatch. cbn [exec pattern].
  destruct (startsWith text w) eqn:H; [|done]. intros [= <-].
  unfold toLowerCase. by rewrite (startsWith_mapChars _ _ _ H).
Qed.

Lemma folds_nocase (nm text : string) (alt : option TokenType) (sk : bool) :
  Folds {| name := nm; pattern := NoCase text; longer_alt := alt; skipped := sk |}.
Proof. intros w n. unfold foldedMatch. cbn [exec pattern]. by rewrite execNoCase_fold. Qed.

Lemma folds_doublePrecision : Folds DoublePrecision.
Proof.
  intros w n. unfold foldedMatch. cbn [exec pattern DoublePrecision].
  by rewrite execDoublePrecision_fold.
Qed.

Lemma folds_booleanLiteral : Folds BooleanLiteral.
Proof.
  intros w n. unfold foldedMatch. cbn [exec pattern BooleanLiteral].
  unfold execBooleanLiteral.
  destruct (startsWith "true" w) eqn:Ht.
  { intros [= <-].
    by rewrite (startsWith_mapChars toLowerChar "true" w Ht
                : startsWith "true" (toLowerCase w) = true). }
  destruct (startsWith "false" w) eqn:Hf; [|done]. intros [= <-].
  rewrite (startsWith_mapChars toLowerChar "false" w Hf
           : startsWith "false" (toLowerCase w) = true).
  destruct (startsWith "true" (toLowerCase w)) eqn:Ht'; [|done].
  exfalso. destruct w as [|c w]; [done|]. unfold toLowerCase in Ht'.
  cbn [startsWith mapChars] in Hf, Ht'.
  apply andb_prop in Hf as [<-%Ascii.eqb_eq _]. by vm_compute in Ht'.
Qed.

Lemma folds_identifier : Folds Identifier.
Proof.
  intros w n. unfold foldedMatch. cbn [exec pattern Identifier].
  by rewrite execIdentifier_fold.
Qed.

Lemma allTokens_folds : Forall (fun t => Blind t \/ Folds t) allTokens.
Proof.
  unfold allTokens.
  repeat (apply Forall_cons; split;
    [first [ right; apply folds_exact | right; apply folds_nocase
           | right; apply folds_doublePrecision | right; apply folds_booleanLiteral
           | right; apply folds_identifier
           | left; apply blind_whitespace | left; apply blind_lineComment
           | left; apply blind_blockComment | left; apply blind_stringLiteral
           | left; apply blind_numberLiteral | left; apply blind_templateIdentifier ] |]).
  apply Forall_nil_2.
Qed.

Lemma allTokens_names : NoDup (name <$> allTokens).
Proof. apply (bool_decide_unpack _). vm_compute. exact I. Qed.

Lemma allTokens_by_name (t1 t2 : TokenType) :
  t1 ∈ allTokens -> t2 ∈ allTokens -> name t1 = name t2 -> t1 = t2.
Proof.
  intros [i Hi]%list_elem_of_lookup_1 [j Hj]%list_elem_of_lookup_1 Hn.
  assert (i = j) as ->; [|congruence].
  apply (NoDup_lookup _ i j (name t1) allTokens_names); rewrite list_lookup_fmap.
  - by rewrite Hi.
  - by rewrite Hj, Hn.
Qed.

Lemma lexesAs_tokenize (tokType : TokenType) (w : string) :
  tokType ∈ allTokens ->
  lexesAs (name tokType) w = true ->
  tokenize w
  = {| tokens := [{| image := w; startOffset := 0; tokenType := tokType |}];
       errors := [] |}.
Proof.
  intros Hin. unfold lexesAs.
  pose proof (scan_placed w 0 0) as Hkind. rewrite <- tokenize_tokens in Hkind.
  destruct (tokenize w) as [[|tok [|]] [|]]; try done.
  intros [[Hi%String.eqb_eq Ho%Nat.eqb_eq]%andb_prop Hn%String.eqb_eq]%andb_prop.
  destruct (Hkind tok) as [Htok _ _ _ _ _]; [by left|].
  pose proof (allTokens_by_name _ _ Htok Hin Hn) as Ht.
  destruct tok as [im off ty]. cbn in *. by subst.
Qed.

(** A pattern without a folded match on the lower-cased word does not match
    the word. *)
Lemma folded_none (tokType : TokenType) (c : ascii) (rest : string) :
  Blind tokType \/ Folds tokType ->
  isIdentStart c = true ->
  foldedMatch tokType (toLowerCase (String c rest)) = None ->
  exec (pattern tokType) (String c rest) = None.
Proof.
  intros [Hb | Hf] Hc Hn; [by apply Hb|].
  destruct (exec (pattern tokType) (String c rest)) as [n|] eqn:He; [|done].
  apply Hf in He. congruence.
Qed.

(** The first pattern with a folded match is where the matching of the word
    itself starts. *)
Lemma matchAt_firstFolded (toks : list TokenType) (c : ascii) (rest : string)
    (nm : string) (n : nat) :
  Forall (fun t => Blind t \/ Folds t) toks ->
  isIdentStart c = true ->
  firstFolded toks (toLowerCase (String c rest)) = Some (nm, n) ->
  exists tokType others,
    tokType ∈ toks /\ name tokType = nm
    /\ matchAt toks (String c rest) = matchAt (tokType :: others) (String c rest).
Proof.
  intros Hall Hc. induction Hall as [|t toks Ht _ IH]; [done|]. cbn [firstFolded].
  destruct (foldedMatch t (toLowerCase (String c rest))) as [k|] eqn:Hk.
  - intros [= <- <-]. exists t, toks. split; [by left | done].
  - intros H. destruct (IH H) as (tokType & others & Hin & Hnm & Hm).
    exists tokType, others. split; [by right|]. split; [done|].
    rewrite <- Hm. cbn [matchAt]. by rewrite (folded_none t c rest Ht Hc Hk).
Qed.

Lemma length_toLowerCase (s : string) : String.length (toLowerCase s) = String.length s.
Proof. apply length_mapChars. Qed.

Lemma identifier_head (w : string) :
  isIdentifier w = true -> exists c rest, w = String c rest /\ isIdentStart c = true.
Proof.
  unfold isIdentifier, execIdentifier. destruct w as [|c rest]; [done|].
  destruct (isIdentStart c) eqn:Hc; [|done]. by exists c, rest.
Qed.

Lemma execNoCase_whole (text w : string) :
  toLowerCase w = toLowerCase text -> execNoCase text w = Some (String.length w).
Proof.
  intros Hw. pose proof (f_equal String.length Hw) as Hl.
  rewrite !length_toLowerCase in Hl. unfold execNoCase.
  rewrite take_all by lia. rewrite Hw, String.eqb_refl. by rewrite Hl.
Qed.

Lemma startsWith_whole (t s : string) :
  startsWith t s = true -> String.length t = String.length s -> s = t.
Proof.
  revert s. induction t as [|a t IH]; intros [|b s]; try done.
  cbn [startsWith String.length]. intros [->%Ascii.eqb_eq H]%andb_prop [= Hl].
  by rewrite (IH s H Hl).
Qed.

(** X3.  Data type names (and [null]) are recognised in any letter case: a
    word that spells, in whatever mix of upper and lower case, the text of a
    pattern written with the [i] flag is lexed as one token of that kind. *)
Theorem data_types_ignore_case (tokType : TokenType) (text w : string) :
  tokType ∈ allTokens ->
  pattern tokType = NoCase text ->
  toLowerCase w = toLowerCase text ->
  tokenize w
  = {| tokens := [{| image := w; startOffset := 0; tokenType := tokType |}];
       errors := [] |}.
Proof.
  intros Hin Hp Hw.
  assert (Forall (fun t => forall text, pattern t = NoCase text ->
                    isIdentifier (toLowerCase text) && firstWhole (name t) (toLowerCase text)
                    && negb (skipped t) = true) allTokens) as Hall.
  { unfold allTokens.
    repeat (apply Forall_cons; split;
            [first [by intros ? [=] | intros ? [= <-]; vm_compute; reflexivity]|]).
    apply Forall_nil_2. }
  pose proof (proj1 (Forall_forall _ _) Hall tokType Hin text Hp) as Hv. clear Hall.
  apply andb_prop in Hv as [[Hid Hfirst]%andb_prop Hsk%negb_true_iff].
  rewrite <- Hw, isIdentifier_fold in Hid. rewrite <- Hw in Hfirst.
  destruct (identifier_head w Hid) as (c & rest & -> & Hc).
  unfold firstWhole in Hfirst.
  destruct (firstFolded allTokens (toLowerCase (String c rest))) as [[nm n]|] eqn:Hff; [|done].
  apply andb_prop in Hfirst as [Hnm%String.eqb_eq _].
  destruct (matchAt_firstFolded allTokens c rest nm n allTokens_folds Hc Hff)
    as (t & others & Ht & Hname & Hm).
  assert (t = tokType) as -> by (apply allTokens_by_name; [done.. | congruence]).
  apply tokenize_word; [done | | done]. rewrite Hm. cbn [matchAt].
  rewrite Hp. cbn [exec]. rewrite (execNoCase_whole text _ Hw).
  destruct (proj1 (Forall_forall _ _) allTokens_alternatives tokType Hin) as [-> | ->]; [done|].
  destruct (exec (pattern Identifier) (String c rest)) as [m|] eqn:He; [|done].
  apply bounded_identifier in He.
  by destruct (Nat.ltb_spec (String.length (String c rest)) m); [lia|].
Qed.

Lemma timestamptz_in_allTokens : Timestamptz ∈ allTokens.
Proof. apply list_elem_of_In. unfold allTokens. cbn [In]. do 44 right. by left. Qed.

(** [TimeStampTZ] is the data type. *)
Lemma data_types_ignore_case_witness :
  tokenize "TimeStampTZ"
  = {| tokens := [{| image := "TimeStampTZ"; startOffset := 0; tokenType := Timestamptz |}];
       errors := [] |}.
Proof.
  exact (data_types_ignore_case Timestamptz "timestamptz" "TimeStampTZ"
           timestamptz_in_allTokens eq_refl eq_refl).
Defined.

(** X4.  Keywords are recognised in one spelling only: a word that spells
    the text of a keyword pattern (written without the [i] flag) is lexed as
    one token, the keyword when the letters are in the case of the pattern,
    and a plain identifier in every other mix of upper and lower case. *)
Theorem keywords_are_case_sensitive (tokType : TokenType) (text w : string) :
  tokType ∈ allTokens ->
  pattern tokType = Exact text ->
  longer_alt tokType = Some Identifier ->
  toLowerCase w = toLowerCase text ->
  tokenize w
  = {| tokens := [{| image := w; startOffset := 0;
                     tokenType := if String.eqb w text then tokType else Identifier |}];
       errors := [] |}.
Proof.
  intros Hin Hp Ha Hw.
  assert (Forall (fun t => forall text, pattern t = Exact text ->
                    longer_alt t = Some Identifier ->
                    isIdentifier (toLowerCase text)
                    && onlyWhole (name t) beforeIdentifier (toLowerCase text)
                    && lexesAs (name t) text = true) allTokens) as Hall.
  { unfold allTokens.
    repeat (apply Forall_cons; split;
            [first [by intros ? [=] | by intros ? _ [=]
                   | intros ? [= <-] _; vm_compute; reflexivity]|]).
    apply Forall_nil_2. }
  pose proof (proj1 (Forall_forall _ _) Hall tokType Hin text Hp Ha) as Hv. clear Hall.
  apply andb_prop in Hv as [[Hid Honly]%andb_prop Hself].
  destruct (String.eqb_spec w text) as [-> | Hne]; [by apply lexesAs_tokenize|].
  rewrite <- Hw, isIdentifier_fold in Hid. rewrite <- Hw in Honly.
  destruct (matchAt_word w beforeIdentifier (skipn 72 allTokens) Hid beforeIdentifier_kinds)
    as (t & Hm & Hsk & Hk).
  rewrite <- allTokens_split in Hm.
  destruct Hk as [-> | (Hfront & _ & He)]; [by apply tokenize_word|].
  exfalso. apply Hne.
  assert (t ∈ allTokens) as Ht
    by (rewrite allTokens_split; apply elem_of_app; by left).
  destruct (identifier_head w Hid) as (c & rest & -> & Hc).
  destruct (proj1 (Forall_forall _ _) allTokens_folds t Ht) as [Hb | Hf];
    [by rewrite (Hb c rest Hc) in He|].
  pose proof (Hf _ _ He) as Hfold.
  unfold onlyWhole in Honly. rewrite forallb_forall in Honly.
  specialize (Honly t (proj1 (list_elem_of_In _ _) Hfront)). rewrite Hfold in Honly.
  rewrite length_toLowerCase, Nat.eqb_refl in Honly. cbn [negb orb] in Honly.
  apply String.eqb_eq in Honly.
  assert (t = tokType) as -> by by apply allTokens_by_name.
  rewrite Hp in He. cbn [exec] in He.
  destruct (startsWith text (String c rest)) eqn:Hs; [|done].
  injection He as He. by apply startsWith_whole.
Qed.

Lemma schema_in_allTokens : Schema ∈ allTokens.
Proof. apply list_elem_of_In. unfold allTokens. cbn [In]. do 6 right. by left. Qed.

(** [schema] is the keyword, [SCHEMA] a name. *)
Lemma keywords_are_case_sensitive_witness :
  tokenize "schema"
  = {| tokens := [{| image := "schema"; startOffset := 0; tokenType := Schema |}];
       errors := [] |}
  /\ tokenize "SCHEMA"
     = {| tokens := [{| image := "SCHEMA"; startOffset := 0; tokenType := Identifier |}];
          errors := [] |}.
Proof.
  split.
  - exact (keywords_are_case_sensitive Schema "schema" "schema"
             schema_in_allTokens eq_refl eq_refl eq_refl).
  - exact (keywords_are_case_sensitive Schema "schema" "SCHEMA"
             schema_in_allTokens eq_refl eq_refl eq_refl).
Defined.

End CaseFacts.

(* ===================================================================== *)
(** ** A keyword at the head of a longer word, anywhere in the input      *)
(* ===================================================================== *)

Module PositionFacts.
Import Js Lexer Spec LexerNotions JsFacts GeneratorFacts LexerFacts ScanFacts CaseFacts.

Lemma scan_prefix (toks : list TokenType) (pre rest : string) :
  forall skip offset,
    standsAt toks skip pre rest = true ->
    exists before bad,
      scan toks skip offset (pre +:+ rest)
      = (before ++ (scan toks 0 (offset + String.length pre) rest).1,
         bad ++ (scan toks 0 (offset + String.length pre) rest).2)
      /\ Forall (fun tok => startOffset tok < offset + String.length pre) before.
Proof.
  induction pre as [|c pre IH]; intros skip offset Hs.
  - cbn [standsAt] in Hs. apply Nat.eqb_eq in Hs. subst skip. exists [], [].
    rewrite append_empty. cbn [String.length app]. rewrite Nat.add_0_r.
    split; [by destruct (scan toks 0 offset rest) | apply Forall_nil_2].
  - rewrite append_cons. cbn [standsAt scan String.length] in *.
    replace (offset + S (String.length pre)) with (S offset + String.length pre) by lia.
    destruct skip as [|skip]; [|by apply IH].
    rewrite append_cons in Hs.
    destruct (matchAt toks (String c (pre +:+ rest))) as [[tokType n]|].
    + destruct (IH (n - 1) (S offset) Hs) as (before & bad & -> & Hbefore).
      destruct (skipped tokType).
      * by exists before, bad.
      * eexists (_ :: before), bad. split; [done|].
        apply Forall_cons. split; [cbn; lia | done].
    + destruct (IH 0 (S offset) Hs) as (before & bad & -> & Hbefore).
      by exists before, (offset :: bad).
Qed.

Lemma scan_skip_app (toks : list TokenType) (s post : string) :
  forall offset,
    scan toks (String.length s) offset (s +:+ post)
    = scan toks 0 (offset + String.length s) post.
Proof.
  induction s as [|c s IH]; intros offset.
  - rewrite append_empty. cbn [String.length]. by rewrite Nat.add_0_r.
  - rewrite append_cons. cbn [String.length scan]. rewrite IH. f_equal. lia.
Qed.

Lemma take_append (s t : string) : take (String.length s) (s +:+ t) = s.
Proof.
  induction s as [|c s IH]; [by destruct t|].
  rewrite append_cons. cbn [String.length take]. by rewrite IH.
Qed.

Lemma take_append_le (n : nat) (s t : string) :
  n <= String.length s -> take n (s +:+ t) = take n s.
Proof.
  revert s. induction n as [|n IH]; intros s Hn; [done|].
  destruct s as [|c s]; [cbn in Hn; lia|]. rewrite append_cons. cbn [take].
  rewrite IH; [done | cbn in Hn; lia].
Qed.

Lemma wordEnds_stop (post : string) :
  wordEnds post = true ->
  match post with String c _ => isWord c = false | EmptyString => True end.
Proof. destruct post as [|c post]; [done|]. cbn. by intros ->%negb_true_iff. Qed.

Lemma execIdentifier_app (w post : string) :
  isIdentifier w = true -> wordEnds post = true ->
  exec (pattern Identifier) (w +:+ post) = Some (String.length w).
Proof.
  intros Hw Hpost. pose proof Hw as [_ Hword]%identifier_word.
  destruct (identifier_head w Hw) as (c & rest & -> & Hc).
  cbn [allChars] in Hword. apply andb_prop in Hword as [_ Hrest].
  rewrite append_cons. cbn [exec pattern Identifier]. unfold execIdentifier. rewrite Hc.
  by rewrite (takeWhile_app_stop isWord rest post Hrest (wordEnds_stop post Hpost)).
Qed.

Lemma startsWith_word (text : string) :
  forall w post,
    allChars isWord text = true -> wordEnds post = true ->
    startsWith text (w +:+ post) = true -> startsWith text w = true.
Proof.
  induction text as [|a text IH]; intros w post Ht Hp Hs; [done|].
  cbn [allChars] in Ht. apply andb_prop in Ht as [Ha Ht].
  destruct w as [|b w].
  - rewrite append_empty in Hs. destruct post as [|d post]; [done|].
    cbn [startsWith] in Hs. apply andb_prop in Hs as [<-%Ascii.eqb_eq _].
    cbn [wordEnds] in Hp. by rewrite Ha in Hp.
  - rewrite append_cons in Hs. cbn [startsWith] in *.
    apply andb_prop in Hs as [-> Hs]. by rewrite (IH w post Ht Hp Hs).
Qed.

Lemma startsWith_append (text w post : string) :
  startsWith text w = true -> startsWith text (w +:+ post) = true.
Proof.
  revert w. induction text as [|a text IH]; intros [|b w] Hs; try done.
  rewrite append_cons. cbn [startsWith] in *.
  apply andb_prop in Hs as [-> Hs]. by rewrite IH.
Qed.

Lemma noCase_word (text : string) :
  forall w post,
    allChars isWord text = true -> wordEnds post = true ->
    toLowerCase text = toLowerCase (take (String.length text) (w +:+ post)) ->
    String.length text <= String.length w.
Proof.
  induction text as [|a text IH]; intros w post Ht Hp He; [cbn; lia|].
  cbn [allChars] in Ht. apply andb_prop in Ht as [Ha Ht].
  destruct w as [|b w].
  - exfalso. rewrite append_empty in He. destruct post as [|d post]; [done|].
    cbn [String.length take] in He. unfold toLowerCase in He. cbn [mapChars] in He.
    injection He as Hc _. cbn [wordEnds] in Hp. apply negb_true_iff in Hp.
    by rewrite <- (isWord_lower d), <- Hc, isWord_lower, Ha in Hp.
  - rewrite append_cons in He. cbn [String.length take] in *.
    unfold toLowerCase in He. cbn [mapChars] in He. injection He as _ He.
    specialize (IH w post Ht Hp He). lia.
Qed.

Lemma worded_exact (nm text : string) (sk : bool) :
  allChars isWord text = true ->
  Worded {| name := nm; pattern := Exact text; longer_alt := Some Identifier;
            skipped := sk |}.
Proof.
  intros Ht. split; [done|]. intros w post n Hw Hp. cbn [exec pattern].
  destruct (startsWith text (w +:+ post)) eqn:Hs; [|done]. intros [= <-]. left.
  rewrite (startsWith_word text w post Ht Hp Hs).
  split; [|done]. by apply startsWith_length, (startsWith_word text w post).
Qed.

Lemma worded_nocase (nm text : string) (sk : bool) :
  allChars isWord text = true ->
  Worded {| name := nm; pattern := NoCase text; longer_alt := Some Identifier;
            skipped := sk |}.
Proof.
  intros Ht. split; [done|]. intros w post n Hw Hp. cbn [exec pattern]. unfold execNoCase.
  destruct (String.eqb_spec (toLowerCase text)
              (toLowerCase (take (String.length text) (w +:+ post)))) as [He|]; [|done].
  intros [= <-]. left. pose proof (noCase_word text w post Ht Hp He) as Hle.
  split; [done|]. rewrite take_append_le in He by done. by rewrite <- He, String.eqb_refl.
Qed.

Lemma worded_booleanLiteral : Worded BooleanLiteral.
Proof.
  split; [done|]. intros w post n Hw Hp. cbn [exec pattern BooleanLiteral].
  unfold execBooleanLiteral. intros H. left.
  destruct (startsWith "true" (w +:+ post)) eqn:Ht.
  { injection H as <-. apply (startsWith_word "true" w post eq_refl Hp) in Ht. rewrite Ht.
    split; [by apply (startsWith_length "true") | done]. }
  destruct (startsWith "false" (w +:+ post)) eqn:Hf; [|done]. injection H as <-.
  apply (startsWith_word "false" w post eq_refl Hp) in Hf. rewrite Hf.
  destruct (startsWith "true" w) eqn:Ht'.
  { by rewrite (startsWith_append "true" w post Ht') in Ht. }
  split; [by apply (startsWith_length "false") | done].
Qed.

Lemma word_not_space (c : ascii) : isWord c = true -> isSpace c = false.
Proof. each_char c. Qed.

Lemma drop_word (n : nat) (w post : string) :
  allChars isWord w = true -> n < String.length w ->
  exists c rest, drop n (w +:+ post) = String c rest /\ isWord c = true.
Proof.
  revert w. induction n as [|n IH]; intros [|c w] Hw Hn; cbn [String.length] in Hn; try lia;
    cbn [allChars] in Hw; apply andb_prop in Hw as [Hc Hw]; rewrite append_cons.
  - by exists c, (w +:+ post).
  - cbn [drop]. apply IH; [done | lia].
Qed.

Lemma worded_doublePrecision : Worded DoublePrecision.
Proof.
  split; [done|]. intros w post n Hw Hp. cbn [exec pattern DoublePrecision].
  unfold execDoublePrecision.
  destruct (execNoCase "double" (w +:+ post)) as [a|] eqn:Ha; [|done].
  destruct (execWhiteSpace (drop a (w +:+ post))) as [b|] eqn:Hb; [|done].
  intros _. right. unfold execNoCase in Ha.
  destruct (String.eqb_spec (toLowerCase "double")
              (toLowerCase (take (String.length "double") (w +:+ post)))) as [He|]; [|done].
  apply (inj Some) in Ha. subst a.
  pose proof (noCase_word "double" w post eq_refl Hp He) as Hle.
  destruct (decide (String.length "double" < String.length w)) as [Hlt|Hge].
  - exfalso. destruct (drop_word _ w post Hw Hlt) as (c & rest & Hd & Hc).
    rewrite Hd in Hb. unfold execWhiteSpace in Hb. cbn [takeWhile] in Hb.
    by rewrite (word_not_space c Hc) in Hb.
  - rewrite take_append_le in He by done. rewrite take_all in He by lia. done.
Qed.

Lemma beforeIdentifier_worded : Forall (fun t => Blind t \/ Worded t) beforeIdentifier.
Proof.
  unfold beforeIdentifier. cbn [firstn allTokens].
  repeat (apply Forall_cons; split;
    [first [ right; apply worded_exact; reflexivity
           | right; apply worded_nocase; reflexivity
           | right; apply worded_doublePrecision | right; apply worded_booleanLiteral
           | left; apply blind_whitespace | left; apply blind_lineComment
           | left; apply blind_blockComment | left; apply blind_arrow
           | left; apply blind_doubleColon | left; apply blind_stringLiteral
           | left; apply blind_numberLiteral | left; apply blind_templateIdentifier ] |]).
  apply Forall_nil_2.
Qed.

(** Where a word that is no reserved word stands, with the end of the word
    behind it, the first match is the identifier, over the whole word. *)
Lemma matchAt_word_at (w post : string) (front rest : list TokenType) :
  isIdentifier w = true -> wordEnds post = true ->
  toLowerCase w <> "double" ->
  Forall (fun t => Blind t \/ Worded t) front ->
  Forall (fun t => longer_alt t = Some Identifier ->
                   exec (pattern t) w <> Some (String.length w)) front ->
  matchAt (front ++ Identifier :: rest) (w +:+ post) = Some (Identifier, String.length w).
Proof.
  intros Hw Hp Hnd Hfront Hfree. pose proof (execIdentifier_app w post Hw Hp) as Hid.
  pose proof Hw as [_ Hword]%identifier_word.
  induction Hfront as [|t front Ht _ IH].
  - cbn [app matchAt]. by rewrite Hid.
  - apply Forall_cons in Hfree as [Hfree1 Hfree]. cbn [app matchAt].
    destruct (exec (pattern t) (w +:+ post)) as [n|] eqn:Hn; [|by apply IH].
    destruct Ht as [Hblind | [Halt Hworded]].
    + destruct (identifier_head w Hw) as (c & w' & -> & Hc).
      rewrite append_cons in Hn. by rewrite (Hblind c _ Hc) in Hn.
    + rewrite Halt, Hid.
      destruct (Hworded w post n Hword Hp Hn) as [[Hle He] | Hd]; [|done].
      destruct (Nat.ltb_spec n (String.length w)) as [_ | Hge]; [done|].
      exfalso. apply (Hfree1 Halt). rewrite He. f_equal. lia.
Qed.

(** No keyword and no data type matches a proper prefix of [double]. *)
Lemma prefix_not_double (keyword : TokenType) (w : string) (n : nat) :
  keyword ∈ allTokens -> longer_alt keyword = Some Identifier ->
  isIdentifier w = true ->
  exec (pattern keyword) w = Some n -> n < String.length w ->
  toLowerCase w <> "double".
Proof.
  intros Hin Halt Hw Hn Hlt Hd.
  destruct (identifier_head w Hw) as (c & w' & -> & Hc).
  destruct (proj1 (Forall_forall _ _) allTokens_folds keyword Hin) as [Hb | Hf];
    [by rewrite (Hb c w' Hc) in Hn|].
  apply Hf in Hn. rewrite Hd in Hn.
  rewrite <- (length_toLowerCase (String c w')), Hd in Hlt.
  assert (forallb (fun t => match longer_alt t, foldedMatch t "double" with
                            | Some _, Some k => (6 <=? k)%nat
                            | _, _ => true
                            end) allTokens = true) as Hall by (vm_compute; reflexivity).
  rewrite forallb_forall in Hall.
  specialize (Hall keyword (proj1 (list_elem_of_In _ _) Hin)).
  rewrite Halt, Hn in Hall. apply Nat.leb_le in Hall. cbn in Hlt. lia.
Qed.

Lemma unreserved_word (w : string) :
  isReservedWord w = false ->
  Forall (fun t => longer_alt t = Some Identifier ->
                   exec (pattern t) w <> Some (String.length w)) beforeIdentifier.
Proof.
  intros Hres. apply Forall_forall. intros t Ht Halt He.
  apply not_true_iff_false in Hres. apply Hres.
  unfold isReservedWord. apply existsb_exists. exists t. split.
  - apply list_elem_of_In. rewrite allTokens_split. apply elem_of_app. by left.
  - rewrite Halt, He. apply Nat.eqb_refl.
Qed.

(** C9.  Let a keyword or a data type (any pattern with
    [longer_alt: Identifier]) match a proper prefix of a word that is a
    valid identifier: the identifier pattern matches the whole word, and the
    word is not itself reserved.  Wherever the word stands in the input,
    with the scanning loop standing at its head and the word ending where
    [post] begins, it is lexed as a single plain [Identifier] token that
    spells all of it, and the next token is the first of [post]: not the
    keyword followed by a remainder. *)
Theorem keyword_prefix_is_identifier (keyword : TokenType) (pre w post : string)
  (Hkeyword : keyword ∈ allTokens)
  (Halt : longer_alt keyword = Some Identifier)
  (Hprefix : exists n, exec (pattern keyword) w = Some n /\ n < String.length w)
  (Hvalid : validIdentifier w = true)
  (Hend : wordEnds post = true)
  (Hstart : standsAt allTokens 0 pre (w +:+ post) = true) :
  exists before,
    tokens (tokenize (pre +:+ w +:+ post))
    = before
      ++ {| image := w; startOffset := String.length pre; tokenType := Identifier |}
      :: (scan allTokens 0 (String.length pre + String.length w) post).1
    /\ Forall (fun tok => startOffset tok < String.length pre) before.
Proof.
  apply andb_prop in Hvalid as [Hword Hres%negb_true_iff].
  destruct Hprefix as (n & Hn & Hlt).
  pose proof (prefix_not_double keyword w n Hkeyword Halt Hword Hn Hlt) as Hnd.
  pose proof (matchAt_word_at w post beforeIdentifier (skipn 72 allTokens) Hword Hend Hnd
                beforeIdentifier_worded (unreserved_word w Hres)) as Hm.
  rewrite <- allTokens_split in Hm.
  destruct (scan_prefix allTokens pre (w +:+ post) 0 0 Hstart) as (before & bad & Hs & Hb).
  exists before. split; [|done]. rewrite tokenize_tokens, Hs. cbn [fst Nat.add]. f_equal.
  destruct (identifier_head w Hword) as (c & w' & -> & Hc).
  rewrite append_cons in *. cbn [scan]. rewrite Hm. cbn [String.length skipped Identifier].
  rewrite Nat.sub_succ, Nat.sub_0_r, scan_skip_app.
  replace (S (String.length pre) + String.length w')
    with (String.length pre + S (String.length w')) by lia.
  destruct (scan allTokens 0 _ post) as [toks bad']. cbn [fst]. f_equal. f_equal.
  change (take (S (String.length w')) (String c (w' +:+ post)))
    with (String c (take (String.length w') (w' +:+ post))).
  by rewrite take_append.
Qed.

Lemma index_in_allTokens : Index ∈ allTokens.
Proof.
  apply list_elem_of_In. unfold allTokens. cbn [In].
  repeat (first [left; reflexivity | right]).
Qed.

(** In [index indexer(id);] the second word is one identifier at offset 6,
    not [index] and [er]. *)
Lemma keyword_prefix_is_identifier_witness :
  exists before,
    tokens (tokenize ("index " +:+ "indexer" +:+ "(id);"))
    = before
      ++ {| image := "indexer"; startOffset := 6; tokenType := Identifier |}
      :: (scan allTokens 0 (6 + 7) "(id);").1
    /\ Forall (fun tok => startOffset tok < 6) before.
Proof.
  apply (keyword_prefix_is_identifier Index "index " "indexer" "(id);" index_in_allTokens).
  - reflexivity.
  - exists 5. split; [reflexivity | cbn; lia].
  - vm_compute. reflexivity.
  - reflexivity.
  - vm_compute. reflexivity.
Defined.

(** Without a keyword in front the word alone does not decide: [double] is a
    valid identifier, and with [precision] behind it one token with it. *)
Example double_precision_is_one_token :
  validIdentifier "double" = true
  /\ map (fun t => (name (tokenType t), image t))
         (tokens (tokenize "double precision doubled"))
     = [("DoublePrecision", "double precision"); ("Identifier", "doubled")].
Proof. split; vm_compute; reflexivity. Qed.

End PositionFacts.

(* ===================================================================== *)
(** ** Table and column names in snake case                              *)
(* ===================================================================== *)

Module SnakeCaseFacts.
Import Js Ast Generator GeneratorNotions JsFacts GeneratorFacts.

Lemma isUpper_lower (c : ascii) : isUpper (toLowerChar c) = false.
Proof. each_char c. Qed.

Lemma toLowerChar_keeps (c : ascii) : isUpper c = false -> toLowerChar c = c.
Proof. unfold toLowerChar. by intros ->. Qed.

Lemma toLowerCase_lower (s : string) : allChars (fun c => negb (isUpper c)) (toLowerCase s) = true.
Proof.
  induction s as [|c s IH]; [done|]. unfold toLowerCase in *.
  cbn [mapChars allChars]. by rewrite isUpper_lower, IH.
Qed.

Lemma toLowerCase_keeps (s : string) :
  allChars (fun c => negb (isUpper c)) s = true -> toLowerCase s = s.
Proof.
  induction s as [|c s IH]; [done|]. cbn [allChars].
  intros [Hc%negb_true_iff Hs]%andb_prop. unfold toLowerCase in *. cbn [mapChars].
  by rewrite (toLowerChar_keeps c Hc), IH.
Qed.

Lemma replaceCaps_keeps (s : string) :
  allChars (fun c => negb (isUpper c)) s = true -> replaceCaps 0 s = s.
Proof.
  induction s as [|c s IH]; [done|]. cbn [allChars].
  intros [Hc%negb_true_iff Hs]%andb_prop. cbn [replaceCaps].
  unfold matchCaps. cbn [takeWhile]. rewrite Hc. cbn [String.length drop Nat.leb andb].
  by rewrite IH.
Qed.

Lemma replaceCamel_keeps (s : string) :
  allChars (fun c => negb (isUpper c)) s = true -> replaceCamel 0 s = s.
Proof.
  induction s as [|c s IH]; [done|]. cbn [allChars].
  intros [Hc Hs]%andb_prop. cbn [replaceCamel]. destruct s as [|u s']; [done|].
  pose proof Hs as Hs'. cbn [allChars] in Hs'. apply andb_prop in Hs' as [Hu%negb_true_iff _].
  rewrite Hu, andb_false_r. by rewrite IH.
Qed.

(** X5.  [toSnakeCase] returns a name without upper-case letters, and leaves
    such a name as it is: applying it twice is applying it once. *)
Theorem toSnakeCase_idempotent (str : string) :
  allChars (fun c => negb (isUpper c)) (toSnakeCase str) = true
  /\ toSnakeCase (toSnakeCase str) = toSnakeCase str.
Proof.
  assert (allChars (fun c => negb (isUpper c)) (toSnakeCase str) = true) as Hl
    by apply toLowerCase_lower.
  split; [done|]. unfold toSnakeCase at 1.
  by rewrite (replaceCaps_keeps _ Hl), (replaceCamel_keeps _ Hl), (toLowerCase_keeps _ Hl).
Qed.

(** *** Only underscores are added *)

Lemma withoutUnderscores_app (s t : string) :
  withoutUnderscores (s +:+ t) = withoutUnderscores s +:+ withoutUnderscores t.
Proof.
  induction s as [|c s IH]; [done|]. rewrite append_cons. cbn [withoutUnderscores].
  destruct (code c =? 95)%nat; [done|]. by rewrite append_cons, IH.
Qed.

Lemma take_drop_append (n : nat) (s : string) : take n s +:+ drop n s = s.
Proof.
  revert s. induction n as [|n IH]; intros [|c s]; try done.
  cbn [take drop]. by rewrite append_cons, IH.
Qed.

Lemma underscore_lower (c : ascii) : (code (toLowerChar c) =? 95)%nat = (code c =? 95)%nat.
Proof. each_char c. Qed.

Lemma withoutUnderscores_lower (s : string) :
  withoutUnderscores (toLowerCase s) = toLowerCase (withoutUnderscores s).
Proof.
  induction s as [|c s IH]; [done|]. unfold toLowerCase in *.
  cbn [mapChars withoutUnderscores]. rewrite underscore_lower.
  destruct (code c =? 95)%nat; [done|]. cbn [mapChars]. by rewrite IH.
Qed.

Lemma upper_not_underscore (c : ascii) : isUpper c = true -> (code c =? 95)%nat = false.
Proof. each_char c. Qed.

Lemma replaceCamel_letters (s : string) :
  forall k, withoutUnderscores (replaceCamel k s) = withoutUnderscores (drop k s).
Proof.
  induction s as [|c s IH]; intros k; [by destruct k|].
  destruct k as [|k]; cbn [replaceCamel drop]; [|apply IH].
  destruct s as [|u s']; [done|].
  destruct ((isLower c || isDigit c) && isUpper u) eqn:Hm.
  - apply andb_prop in Hm as [_ Hu]. cbn [withoutUnderscores].
    change (code "_" =? 95)%nat with true. cbn iota.
    rewrite (upper_not_underscore u Hu). by rewrite (IH 1).
  - cbn [withoutUnderscores]. by rewrite (IH 0).
Qed.

Lemma takeWhile_take (p : ascii -> bool) (s : string) :
  takeWhile p s = take (String.length (takeWhile p s)) s.
Proof.
  induction s as [|c s IH]; [done|]. cbn [takeWhile]. destruct (p c); [|done].
  cbn [String.length take]. by rewrite <- IH.
Qed.

Lemma matchCaps_pieces (s g1 g2 : string) (n : nat) :
  matchCaps s = Some (g1, g2, n) -> 0 < n /\ g1 +:+ g2 = take n s.
Proof.
  unfold matchCaps. set (run := takeWhile isUpper s).
  destruct (drop (String.length run) s) as [|l rest] eqn:Hd; [done|].
  destruct ((2 <=? String.length run)%nat && isLower l); [|done]. intros [= <- <- <-].
  split; [lia|]. rewrite <- append_assoc, take_drop_append.
  assert (s = run +:+ String l rest) as Hs.
  { rewrite <- Hd. subst run. rewrite (takeWhile_take isUpper s) at 1. by rewrite take_drop_append. }
  clearbody run. rewrite Hs. clear Hs Hd.
  induction run as [|c r IH]; [done|]. cbn [String.length Nat.add]. rewrite !append_cons.
  cbn [take]. by rewrite <- IH.
Qed.

Lemma replaceCaps_letters (s : string) :
  forall k, withoutUnderscores (replaceCaps k s) = withoutUnderscores (drop k s).
Proof.
  induction s as [|c s IH]; intros k; [by destruct k|].
  destruct k as [|k]; cbn [replaceCaps drop]; [|apply IH].
  destruct (matchCaps (String c s)) as [[[g1 g2] n]|] eqn:Hm.
  - apply matchCaps_pieces in Hm as [Hn Hg].
    rewrite !withoutUnderscores_app, (IH (n - 1)).
    change (withoutUnderscores "_") with EmptyString. rewrite append_empty.
    rewrite <- append_assoc, <- withoutUnderscores_app, Hg.
    destruct n as [|n]; [lia|]. cbn [take]. rewrite Nat.sub_succ, Nat.sub_0_r.
    rewrite <- withoutUnderscores_app. by rewrite append_cons, take_drop_append.
  - cbn [withoutUnderscores]. by rewrite (IH 0).
Qed.

(** X6.  [toSnakeCase] only adds underscores and lowers letters: without the
    underscores, its result is the lower-cased input without its
    underscores. *)
Theorem toSnakeCase_keeps_letters (str : string) :
  withoutUnderscores (toSnakeCase str) = withoutUnderscores (toLowerCase str).
Proof.
  unfold toSnakeCase. rewrite !withoutUnderscores_lower.
  rewrite (replaceCamel_letters _ 0). cbn [drop].
  by rewrite (replaceCaps_letters _ 0).
Qed.

End SnakeCaseFacts.

(* ===================================================================== *)
(** ** Check expressions                                                 *)
(* ===================================================================== *)

Module CheckFacts.
Import Js Ast Generator GeneratorNotions JsFacts GeneratorFacts.

Lemma replaceLiteral_absent (pat rep : string) (s : string) :
  startsWith "{" pat = true ->
  allChars notBrace s = true ->
  forall before, replaceLiteral pat rep before 0 s = s.
Proof.
  intros Hpat. induction s as [|c s IH]; [done|]. cbn [allChars].
  intros [Hc%negb_true_iff Hs]%andb_prop before. cbn [replaceLiteral].
  replace (startsWith pat (String c s)) with false.
  - rewrite andb_false_r. by rewrite IH.
  - destruct pat as [|p pat]; [done|]. cbn [startsWith] in *.
    apply andb_prop in Hpat as [<-%Ascii.eqb_eq _].
    destruct (Ascii.eqb_spec "{" c) as [<- | _]; [by vm_compute in Hc | done].
Qed.

(** X7.  A check expression without an opening brace has no template
    parameter to expand: whatever the substitutions of the context, only the
    type casts are formatted. *)
Theorem check_without_braces (expr : string) (ctx : GeneratorContext) :
  allChars notBrace expr = true ->
  expandCheckExpression expr ctx = formatTypeCast expr.
Proof.
  intros Hexpr. unfold expandCheckExpression. f_equal.
  induction (templateSubs ctx) as [|[param value] entries IH]; [done|].
  cbn [fold_left]. by rewrite replaceLiteral_absent.
Qed.

(** [price::numeric > 0] with a substitution for [Target] at hand. *)
Lemma check_without_braces_witness :
  expandCheckExpression "price::numeric > 0" Inputs.postContext
  = formatTypeCast "price::numeric > 0".
Proof. apply (check_without_braces "price::numeric > 0" Inputs.postContext). reflexivity. Defined.

Lemma replaceLiteral_passes (pat rep : string) (s1 s2 : string) :
  forall before, exists before',
    replaceLiteral pat rep before (String.length s1) (s1 +:+ s2)
    = replaceLiteral pat rep before' 0 s2.
Proof.
  induction s1 as [|c s1 IH]; intros before; [by exists before|].
  rewrite append_cons. cbn [String.length replaceLiteral]. apply IH.
Qed.

Lemma substitution_plain (matched before after rep : string) :
  allChars plain rep = true -> substitution matched before after rep = rep.
Proof.
  induction rep as [|c rep IH]; [done|]. cbn [allChars].
  intros [[_ Hc%negb_true_iff]%andb_prop Hrep]%andb_prop. cbn [substitution].
  destruct rep as [|d rep']; [done|]. rewrite Hc. by rewrite IH.
Qed.

Lemma word_not_closing (c : ascii) : isWord c = true -> Ascii.eqb "}" c = false.
Proof. each_char c. Qed.

Lemma word_not_closing' (c : ascii) : isWord c = true -> Ascii.eqb c "}" = false.
Proof. each_char c. Qed.

Lemma word_notBrace (c : ascii) : isWord c = true -> notBrace c = true.
Proof. each_char c. Qed.

Lemma startsWith_key (key param rest : string) :
  allChars isWord key = true -> allChars isWord param = true ->
  startsWith (key +:+ "}") (param +:+ "}" +:+ rest) = true -> key = param.
Proof.
  revert param. induction key as [|a key IH]; intros [|c param] Hk Hp; cbn [allChars] in *.
  - done.
  - apply andb_prop in Hp as [Hc _]. rewrite append_empty, append_cons.
    cbn [startsWith]. by rewrite (word_not_closing c Hc).
  - apply andb_prop in Hk as [Ha _]. rewrite append_empty, append_cons.
    change ("}" +:+ rest) with (String "}" rest).
    cbn [startsWith]. by rewrite (word_not_closing' a Ha).
  - apply andb_prop in Hk as [_ Hk]. apply andb_prop in Hp as [_ Hp].
    rewrite !append_cons. cbn [startsWith].
    intros [->%Ascii.eqb_eq H]%andb_prop. by rewrite (IH param Hk Hp H).
Qed.

Lemma allChars_app (p : ascii -> bool) (s t : string) :
  allChars p (s +:+ t) = allChars p s && allChars p t.
Proof.
  induction s as [|c s IH]; [done|]. rewrite append_cons. cbn [allChars].
  by rewrite IH, andb_assoc.
Qed.

Lemma allChars_weaken (p q : ascii -> bool) (s : string) :
  (forall c, p c = true -> q c = true) -> allChars p s = true -> allChars q s = true.
Proof.
  intros Hpq. induction s as [|c s IH]; [done|]. cbn [allChars].
  intros [Hc Hs]%andb_prop. by rewrite (Hpq c Hc), IH.
Qed.

(** One pass of the loop of [expandCheckExpression] over an expression with
    one template parameter. *)
Lemma replaceLiteral_parameter (key value pre param post : string) :
  allChars isWord key = true -> allChars isWord param = true ->
  allChars notBrace pre = true -> allChars notBrace post = true ->
  (key = param -> allChars plain value = true) ->
  forall before,
    replaceLiteral ("{" +:+ key +:+ "}") value before 0
                   (pre +:+ ("{" +:+ param +:+ "}") +:+ post)
    = pre +:+ (if decide (key = param) then value else "{" +:+ param +:+ "}") +:+ post.
Proof.
  intros Hkey Hparam Hpre Hpost Hvalue.
  replace (pre +:+ ("{" +:+ param +:+ "}") +:+ post)
    with (pre +:+ "{" +:+ param +:+ "}" +:+ post)
    by (change (("{" +:+ param +:+ "}") +:+ post) with (String "{" ((param +:+ "}") +:+ post));
        by rewrite append_assoc).
  assert (startsWith "{" ("{" +:+ key +:+ "}") = true) as Hpat by done.
  induction pre as [|c pre IH]; intros before.
  - rewrite !append_empty.
    change ("{" +:+ param +:+ "}" +:+ post) with (String "{" (param +:+ "}" +:+ post)).
    cbn [replaceLiteral]. change (truthy ("{" +:+ key +:+ "}")) with true. cbn [andb].
    change (startsWith ("{" +:+ key +:+ "}") (String "{" (param +:+ "}" +:+ post)))
      with (startsWith (key +:+ "}") (param +:+ "}" +:+ post)).
    destruct (decide (key = param)) as [-> | Hne].
    + rewrite <- (append_assoc param "}" post), startsWith_app.
      rewrite (substitution_plain _ _ _ _ (Hvalue eq_refl)).
      f_equal.
      replace (String.length ("{" +:+ param +:+ "}") - 1)
        with (String.length (param +:+ "}"))
        by (change ("{" +:+ param +:+ "}") with (String "{" (param +:+ "}"));
            cbn [String.length]; lia).
      destruct (replaceLiteral_passes ("{" +:+ param +:+ "}") value (param +:+ "}") post
                  (before +:+ "{")) as [before' ->].
      by apply replaceLiteral_absent.
    + destruct (startsWith (key +:+ "}") (param +:+ "}" +:+ post)) eqn:Hs.
      { by apply startsWith_key in Hs. }
      change (("{" +:+ param +:+ "}") +:+ post) with (String "{" ((param +:+ "}") +:+ post)).
      f_equal. rewrite append_assoc. apply replaceLiteral_absent; [done|].
      rewrite !allChars_app, Hpost.
      by rewrite (allChars_weaken isWord notBrace param word_notBrace Hparam).
  - cbn [allChars] in Hpre. apply andb_prop in Hpre as [Hc Hpre].
    rewrite !(append_cons c pre). cbn [replaceLiteral].
    replace (startsWith ("{" +:+ key +:+ "}") (String c (pre +:+ "{" +:+ param +:+ "}" +:+ post)))
      with false.
    + rewrite andb_false_r. f_equal. by apply IH.
    + change ("{" +:+ key +:+ "}") with (String "{" (key +:+ "}")). cbn [startsWith].
      destruct (Ascii.eqb_spec "{" c) as [<- | _]; [by vm_compute in Hc | done].
Qed.

(** X8.  In a check expression with one template parameter [{param}], and
    no other brace, the parameter is replaced by the value the substitutions
    hold for it (the first one, when it has several), and is left as it
    stands when they hold none; the keys are words, and the value has neither
    an opening brace nor a dollar sign. *)
Theorem check_template_parameter (pre param post : string) (ctx : GeneratorContext) :
  allChars notBrace pre = true -> allChars isWord param = true ->
  allChars notBrace post = true ->
  Forall (fun entry => allChars isWord entry.1 = true) (templateSubs ctx) ->
  (forall value, findReplacement param (templateSubs ctx) = Some value ->
                 allChars plain value = true) ->
  expandCheckExpression (pre +:+ ("{" +:+ param +:+ "}") +:+ post) ctx
  = formatTypeCast
      (pre +:+ default ("{" +:+ param +:+ "}") (findReplacement param (templateSubs ctx))
           +:+ post).
Proof.
  intros Hpre Hparam Hpost Hkeys Hvalue. unfold expandCheckExpression. f_equal.
  induction Hkeys as [|[key value] entries Hkey _ IH]; [done|].
  cbn [fold_left findReplacement fst] in *.
  rewrite (replaceLiteral_parameter key value pre param post); try done.
  - destruct (decide (key = param)) as [-> | Hne]; [|by apply IH].
    cbn [default from_option id].
    assert (allChars notBrace (pre +:+ value +:+ post) = true) as Hfree.
    { rewrite !allChars_app, Hpre, Hpost.
      rewrite (allChars_weaken plain notBrace value); [done | | by apply Hvalue].
      intros c [H _]%andb_prop. exact H. }
    clear IH Hvalue. revert Hfree. generalize (pre +:+ value +:+ post). intros s Hs.
    induction entries as [|[k v] entries IH]; [done|]. cbn [fold_left].
    rewrite replaceLiteral_absent; done.
  - intros ->. apply Hvalue. by destruct (decide (param = param)).
Qed.

(** [{Target}_id > 0] where [Target] stands for [post]. *)
Lemma check_template_parameter_witness :
  expandCheckExpression "{Target}_id > 0" Inputs.postContext = formatTypeCast "post_id > 0".
Proof.
  apply (check_template_parameter EmptyString "Target" "_id > 0" Inputs.postContext).
  - reflexivity.
  - reflexivity.
  - reflexivity.
  - apply Forall_cons. split; [reflexivity | apply Forall_nil_2].
  - intros value Hvalue. apply (inj Some) in Hvalue. subst value. reflexivity.
Defined.

End CheckFacts.

(* ===================================================================== *)
(** ** The order of the constraints of a column                          *)
(* ===================================================================== *)

Module ColumnFacts.
Import Js Ast Generator GeneratorNotions JsFacts GeneratorFacts.










End ColumnFacts.

(* ===================================================================== *)
(** ** What the generated statements are                                 *)
(* ===================================================================== *)

Module OutputFacts.
Import Js Ast Generator Spec GeneratorNotions JsFacts GeneratorFacts MixinFacts ContextFacts.

Lemma sameOutput_refl c : sameOutput c c.
Proof. by repeat split. Qed.

Lemma sameOutput_trans c1 c2 c3 : sameOutput c1 c2 -> sameOutput c2 c3 -> sameOutput c1 c3.
Proof.
  intros (?&?&?&?&?&?&?&?&?) (?&?&?&?&?&?&?&?&?). repeat split; congruence.
Qed.

Lemma collectDefinition_sameOutput c d : sameOutput c (collectDefinition c d).
Proof. by destruct d. Qed.

Lemma collectDefinitions_sameOutput ast c : sameOutput c (collectDefinitions ast c).
Proof.
  unfold collectDefinitions. generalize (declarations ast). intros l. revert c.
  induction l as [|d l IH]; intros c; [apply sameOutput_refl|]. cbn [fold_left].
  eapply sameOutput_trans; [apply collectDefinition_sameOutput | apply IH].
Qed.

Lemma bindTypeParams_sameOutput typeParams :
  forall typeArgs c, sameOutput c (bindTypeParams typeParams typeArgs c).
Proof.
  induction typeParams as [|p ps IH]; intros typeArgs c; [apply sameOutput_refl|].
  cbn [bindTypeParams]. destruct typeArgs as [|a args]; [apply IH|].
  destruct (truthy p); [|apply IH].
  eapply sameOutput_trans; [|apply IH]. done.
Qed.

Lemma bindTargets_sameOutput targets :
  forall conceptSchemas m c, sameOutput c (bindTargets targets conceptSchemas m c).2.
Proof.
  induction targets as [|t ts IH]; intros conceptSchemas m c; [apply sameOutput_refl|].
  destruct conceptSchemas as [|s ss]; [apply sameOutput_refl|]. cbn [bindTargets].
  eapply sameOutput_trans; [|apply IH].
  by destruct (arg_alias t) as [alias|]; [destruct (truthy alias)|].
Qed.

Lemma bindInstantiation_sameOutput concept decl c :
  sameOutput c (bindInstantiation concept decl c).2.
Proof.
  unfold bindInstantiation.
  eapply sameOutput_trans; [|apply bindTargets_sameOutput].
  eapply sameOutput_trans; [|apply bindTypeParams_sameOutput]. done.
Qed.

(** *** Templates alone *)

Lemma assemble_empty (ctx : GeneratorContext) :
  sameOutput createContext ctx ->
  assemble ctx = "-- Generated SQL from Schema DSL" +:+ nl +:+ nl +:+ nl.
Proof.
  intros (He & Ht & _ & _ & Hx & Hf & Hp & _). unfold assemble, sections, tableWithIndexes.
  by rewrite He, Ht, Hx, Hf, Hp.
Qed.

Lemma templates_sameOutput depth decls :
  forallb isTemplate decls = true ->
  forall c, exists c', processDeclarations depth decls c = Ok c' /\ sameOutput c c'.
Proof.
  induction decls as [|d rest IH]; intros Hall c.
  - exists c. split; [done | apply sameOutput_refl].
  - cbn [forallb] in Hall. apply andb_prop in Hall as [Hd Hrest].
    cbn [processDeclarations].
    destruct d as [x|x|x|x|x|x|x]; try done; cbn [processDeclaration mbind result_bind].
    + destruct (IH Hrest (processStandaloneSchema x c)) as (c' & -> & Hc').
      exists c'. split; [done|]. eapply sameOutput_trans; [|exact Hc']. done.
    + apply (IH Hrest).
Qed.

(** X10.  A program that declares schemas and concepts and nothing else
    generates no statement: the output is the header line and two empty
    lines. *)
Theorem templates_alone_generate_nothing (depth : nat) (ast : GSQLProgram) :
  forallb isTemplate (declarations ast) = true ->
  generate depth ast = Ok ("-- Generated SQL from Schema DSL" +:+ nl +:+ nl +:+ nl).
Proof.
  intros Hall. unfold generate.
  destruct (templates_sameOutput depth _ Hall (collectDefinitions ast createContext))
    as (c' & -> & Hc'). cbn [mbind result_bind]. f_equal. apply assemble_empty.
  eapply sameOutput_trans; [apply collectDefinitions_sameOutput | exact Hc'].
Qed.

(** A schema and a concept, never instantiated. *)
Lemma templates_alone_generate_nothing_witness :
  generate 1 {| declarations := [DSchema Samples.timestamps; DConcept Samples.announcing] |}
  = Ok ("-- Generated SQL from Schema DSL" +:+ nl +:+ nl +:+ nl).
Proof.
  apply (templates_alone_generate_nothing 1
           {| declarations := [DSchema Samples.timestamps; DConcept Samples.announcing] |}).
  reflexivity.
Defined.



Lemma createdOnce_fields c c' :
  enumSql c' = enumSql c -> tableSql c' = tableSql c ->
  generatedEnums c' = generatedEnums c -> generatedTables c' = generatedTables c ->
  CreatedOnce c -> CreatedOnce c'.
Proof. intros He Ht Hge Hgt [Htab Hen]. unfold CreatedOnce. by rewrite He, Ht, Hge, Hgt. Qed.

Lemma createdOnce_same c c' : sameOutput c c' -> CreatedOnce c -> CreatedOnce c'.
Proof. intros (He & Ht & _ & _ & _ & _ & _ & Hge & Hgt). by apply createdOnce_fields. Qed.

Lemma generateEnumSql_createdOnce e c : CreatedOnce c -> CreatedOnce (generateEnumSql e c).
Proof.
  intros [Htab (enums & Hnd & Hsql & Hgen)]. unfold generateEnumSql.
  destruct (decide (enum_name e ∈ generatedEnums c)) as [|Hnew]; [by split; [|exists enums]|].
  split; [done|].
  exists (enums ++ [(enum_name e, join ", " (map (fun v => "'" +:+ v +:+ "'") (enum_values e)))]).
  cbn [enumSql set_enumSql set_enums set_generatedEnums generatedEnums].
  rewrite !fmap_app. cbn [fmap list_fmap fst]. split; [|split].
  - apply NoDup_app. split; [done|]. split; [|apply NoDup_singleton].
    intros name Hin ->%list_elem_of_singleton. by apply Hnew, Hgen.
  - by rewrite Hsql.
  - intros name. rewrite elem_of_app, list_elem_of_singleton, elem_of_union, elem_of_singleton.
    rewrite Hgen. tauto.
Qed.

(** The pushes of indexes and triggers leave the record of tables alone. *)
Lemma generateTableSql_generated (resolved : ResolvedSchema) (ctx : GeneratorContext) :
  rs_tableName resolved ∉ generatedTables ctx ->
  generatedTables (generateTableSql resolved ctx)
  = {[rs_tableName resolved]} ∪ generatedTables ctx
  /\ enumSql (generateTableSql resolved ctx) = enumSql ctx
  /\ generatedEnums (generateTableSql resolved ctx) = generatedEnums ctx.
Proof.
  intros Hnew. unfold generateTableSql. destruct (decide _) as [|_]; [done|].
  set (ctx1 := set_tableSql _ _).
  set (P := fun c : GeneratorContext =>
              generatedTables c = {[rs_tableName resolved]} ∪ generatedTables ctx
              /\ enumSql c = enumSql ctx /\ generatedEnums c = generatedEnums ctx).
  assert (forall l c, P c -> P (fold_left (fun ctx trigger =>
            set_triggerSql (triggerSql ctx ++
              [generateTriggerSql (rs_tableName resolved) trigger ctx]) ctx) l c)) as Htrg.
  { intros l. induction l as [|t l IH]; intros c Hc; [done|]. cbn [fold_left]. by apply IH. }
  assert (forall l c, P c -> P (fold_left (fun ctx index =>
            set_indexSql (indexSql ctx ++
              [generateIndexSql (rs_tableName resolved) index ctx]) ctx) l c)) as Hidx.
  { intros l. induction l as [|t l IH]; intros c Hc; [done|]. cbn [fold_left]. by apply IH. }
  by apply Htrg, Hidx.
Qed.

Lemma generateTableSql_createdOnce r c : CreatedOnce c -> CreatedOnce (generateTableSql r c).
Proof.
  intros Hc. destruct (decide (rs_tableName r ∈ generatedTables c)) as [Hold | Hnew].
  { unfold generateTableSql. by destruct (decide _). }
  destruct Hc as [(tables & Hnd & Hsql & Hgen) (enums & Hen)].
  destruct (generateTableSql_generated r c Hnew) as (Hg & He & Hge).
  split; [|exists enums; by rewrite He, Hge].
  eexists (tables ++ [(rs_tableName r, _)]).
  rewrite (generateTableSql_tableSql r c Hnew), Hg, !fmap_app.
  cbn [fmap list_fmap fst]. split; [|split].
  - apply NoDup_app. split; [done|]. split; [|apply NoDup_singleton].
    intros name Hin ->%list_elem_of_singleton. by apply Hnew, Hgen.
  - rewrite Hsql. reflexivity.
  - intros name. rewrite elem_of_app, list_elem_of_singleton, elem_of_union, elem_of_singleton.
    rewrite Hgen. tauto.
Qed.

Lemma generateConceptTables_createdOnce depth conceptSchemas schemaToTable :
  forall c c', generateConceptTables depth conceptSchemas schemaToTable c = Ok c' ->
               CreatedOnce c -> CreatedOnce c'.
Proof.
  induction conceptSchemas as [|s rest IH]; intros c c' H Hc.
  - by injection H as <-.
  - cbn [generateConceptTables] in H. destruct (schemaToTable !! schema_name s).
    + destruct (resolveSchema depth s p.1 c) as [r|e]; [|done]. cbn in H.
      apply (IH _ _ H). by apply generateTableSql_createdOnce.
    + by apply (IH _ _ H).
Qed.

Lemma processInstantiation_createdOnce depth decl c c' :
  processInstantiation depth decl c = Ok c' -> CreatedOnce c -> CreatedOnce c'.
Proof.
  unfold processInstantiation. intros H Hc.
  destruct (concepts c !! inst_conceptName decl) as [concept|].
  - pose proof (bindInstantiation_sameOutput concept decl c) as Hb.
    destruct (bindInstantiation concept decl c) as [m c1]. cbn [snd] in Hb.
    apply (generateConceptTables_createdOnce _ _ _ _ _ H).
    apply (createdOnce_same c c1 Hb) in Hc. clear H Hb. revert Hc. generalize c1.
    induction (conceptEnums concept) as [|e es IH]; intros c2 Hc2; [done|].
    cbn [fold_left]. apply IH. by apply generateEnumSql_createdOnce.
  - destruct (schemas c !! inst_conceptName decl) as [schema|]; [|by injection H as <-].
    destruct (inst_targets decl) as [|t ts]; [by injection H as <-|].
    destruct (resolveSchema _ _ _ _) as [r|e]; [|done]. cbn in H. injection H as <-.
    apply generateTableSql_createdOnce. by apply (createdOnce_same c).
Qed.

Lemma processDeclarations_createdOnce depth decls :
  forall c c', processDeclarations depth decls c = Ok c' -> CreatedOnce c -> CreatedOnce c'.
Proof.
  induction decls as [|d rest IH]; intros c c' H Hc; [by injection H as <-|].
  cbn [processDeclarations] in H.
  destruct (processDeclaration depth d c) as [c1|e] eqn:H1; [|done]. cbn in H.
  apply (IH _ _ H). clear H IH.
  destruct d as [x|x|x|x|x|x|x]; cbn [processDeclaration] in H1;
    try (injection H1 as <-).
  - by apply (createdOnce_fields c).
  - by apply (createdOnce_fields c).
  - by apply (createdOnce_fields c).
  - done.
  - by apply generateEnumSql_createdOnce.
  - by apply (processInstantiation_createdOnce _ _ _ _ H1).
  - by apply (createdOnce_fields c).
Qed.

(** X11.  No table and no enum is created twice: at the end of the second
    pass the table statements are [CREATE TABLE] statements for pairwise
    different names, exactly the names recorded in [generatedTables], and the
    enum statements are [CREATE TYPE] blocks for pairwise different names,
    exactly those recorded in [generatedEnums]. *)
Theorem tables_and_enums_created_once (depth : nat) (ast : GSQLProgram)
    (ctx : GeneratorContext) :
  processDeclarations depth (declarations ast) (collectDefinitions ast createContext) = Ok ctx ->
  (exists tables : list (string * string),
     NoDup tables.*1 /\ tableSql ctx = createTable <$> tables
     /\ forall name, name ∈ tables.*1 <-> name ∈ generatedTables ctx)
  /\ (exists enums : list (string * string),
        NoDup enums.*1 /\ enumSql ctx = createType <$> enums
        /\ forall name, name ∈ enums.*1 <-> name ∈ generatedEnums ctx).
Proof.
  intros H.
  apply (processDeclarations_createdOnce _ _ _ _ H).
  apply (createdOnce_same createContext); [apply collectDefinitions_sameOutput|].
  split; exists []; split; try apply NoDup_nil_2; split; try done;
    intros name; cbn; by rewrite elem_of_nil, elem_of_empty.
Qed.

(** The second pass over [Samples.usersProgram]. *)
Lemma tables_and_enums_created_once_witness :
  (exists tables : list (string * string),
     NoDup tables.*1 /\ tableSql Inputs.usersFinal = createTable <$> tables
     /\ forall name, name ∈ tables.*1 <-> name ∈ generatedTables Inputs.usersFinal)
  /\ (exists enums : list (string * string),
        NoDup enums.*1 /\ enumSql Inputs.usersFinal = createType <$> enums
        /\ forall name, name ∈ enums.*1 <-> name ∈ generatedEnums Inputs.usersFinal).
Proof.
  apply (tables_and_enums_created_once 2 Samples.usersProgram Inputs.usersFinal).
  vm_compute. reflexivity.
Defined.

End OutputFacts.

(* ===================================================================== *)
(** ** The order of the declarations                                     *)
(* ===================================================================== *)

Module OrderFacts.
Import Js Ast Generator Spec GeneratorNotions JsFacts GeneratorFacts MixinFacts ContextFacts.

Lemma set_schemas_id (c : GeneratorContext) : set_schemas (schemas c) c = c.
Proof. by destruct c. Qed.

Lemma collectDefinition_commute (name : string) (decl other : TopLevelDeclaration)
    (c : GeneratorContext) :
  declares name decl -> ~ declares name other ->
  collectDefinition (collectDefinition c decl) other
  = collectDefinition (collectDefinition c other) decl.
Proof.
  intros Hd Ho.
  destruct decl as [x|x|x|x|x|x|x]; try done;
    destruct other as [y|y|y|y|y|y|y]; try done; cbn in Hd, Ho;
    unfold collectDefinition, set_schemas, set_concepts, set_enums; cbn; f_equal;
    apply insert_insert_ne; congruence.
Qed.

Lemma collect_commute (name : string) (decl : TopLevelDeclaration)
    (decls : list TopLevelDeclaration) :
  declares name decl -> Forall (fun d => ~ declares name d) decls ->
  forall c, fold_left collectDefinition decls (collectDefinition c decl)
            = collectDefinition (fold_left collectDefinition decls c) decl.
Proof.
  intros Hd Hall. induction Hall as [|d rest Ho _ IH]; intros c; [done|].
  cbn [fold_left]. by rewrite (collectDefinition_commute name decl d c Hd Ho), IH.
Qed.

Lemma collect_collected (name : string) (decl : TopLevelDeclaration)
    (decls : list TopLevelDeclaration) :
  declares name decl -> Forall (fun d => ~ declares name d) decls ->
  forall c, collected decl c -> collected decl (fold_left collectDefinition decls c).
Proof.
  intros Hd Hall. induction Hall as [|d rest Ho _ IH]; intros c Hc; [done|].
  cbn [fold_left]. apply IH.
  destruct decl as [x|x|x|x|x|x|x]; try done;
    destruct d as [y|y|y|y|y|y|y]; try done; cbn in *;
    rewrite lookup_insert_ne; congruence.
Qed.

Lemma processDeclaration_collected (depth : nat) (name : string)
    (decl other : TopLevelDeclaration) (c c' : GeneratorContext) :
  declares name decl -> ~ declares name other ->
  processDeclaration depth other c = Ok c' ->
  collected decl c -> collected decl c'.
Proof.
  intros Hd Ho H Hc.
  assert (concepts c' = concepts c
          /\ schemas c' !! name = schemas c !! name) as [Hcon Hsch].
  { destruct other as [y|y|y|y|y|y|y]; cbn [processDeclaration] in H;
      try (injection H as <-); try done.
    - cbn. split; [done|]. by rewrite lookup_insert_ne.
    - unfold processEnum. by destruct (generateEnumSql_keeps y c) as (-> & -> & _).
    - by destruct (processInstantiation_tables _ _ _ _ H) as [-> ->]. }
  destruct decl as [x|x|x|x|x|x|x]; try done; cbn in *; congruence.
Qed.

Lemma processDeclarations_collected (depth : nat) (name : string)
    (decl : TopLevelDeclaration) (decls : list TopLevelDeclaration) :
  declares name decl -> Forall (fun d => ~ declares name d) decls ->
  forall c c', processDeclarations depth decls c = Ok c' ->
               collected decl c -> collected decl c'.
Proof.
  intros Hd Hall. induction Hall as [|d rest Ho _ IH]; intros c c' H Hc.
  - by injection H as <-.
  - cbn [processDeclarations] in H.
    destruct (processDeclaration depth d c) as [c1|e] eqn:H1; [|done]. cbn in H.
    apply (IH _ _ H). by apply (processDeclaration_collected depth name decl d c).
Qed.

(** In the second pass a collected template declaration changes nothing. *)
Lemma processDeclaration_idle (depth : nat) (decl : TopLevelDeclaration)
    (c : GeneratorContext) :
  collected decl c -> processDeclaration depth decl c = Ok c.
Proof.
  destruct decl as [x|x|x|x|x|x|x]; try done. cbn. intros H.
  unfold processStandaloneSchema. by rewrite (insert_id _ _ _ H), set_schemas_id.
Qed.

(** X12.  Where a schema or a concept is declared does not matter, as long as
    no other declaration of the program gives the same name to a schema or a
    concept: moving the declaration to the head of the program leaves the
    result of [generate] as it is, be it a text or an error. *)
Theorem template_declarations_are_hoisted (depth : nat) (name : string)
    (decl : TopLevelDeclaration) (before after : list TopLevelDeclaration) :
  declares name decl ->
  Forall (fun d => ~ declares name d) (before ++ after) ->
  generate depth {| declarations := before ++ decl :: after |}
  = generate depth {| declarations := decl :: before ++ after |}.
Proof.
  intros Hd Hall. pose proof Hall as [Hbefore Hafter]%Forall_app.
  unfold generate, collectDefinitions. cbn [declarations].
  assert (fold_left collectDefinition (before ++ decl :: after) createContext
          = fold_left collectDefinition (decl :: before ++ after) createContext) as ->.
  { rewrite fold_left_app. cbn [fold_left].
    rewrite (collect_commute name decl after Hd Hafter), <- fold_left_app.
    by rewrite (collect_commute name decl (before ++ after) Hd Hall). }
  cbn [fold_left].
  set (ctx0 := fold_left collectDefinition (before ++ after) _).
  assert (collected decl ctx0) as H0.
  { apply (collect_collected name decl); [done | done |].
    destruct decl as [x|x|x|x|x|x|x]; try done; cbn; by rewrite lookup_insert_eq. }
  cbn [processDeclarations]. rewrite (processDeclaration_idle depth decl ctx0 H0).
  cbn [mbind result_bind]. rewrite !processDeclarations_app.
  destruct (processDeclarations depth before ctx0) as [c1|e] eqn:H1; [|done].
  cbn [mbind result_bind processDeclarations].
  rewrite (processDeclaration_idle depth decl c1); [done|].
  by apply (processDeclarations_collected depth name decl before Hd Hbefore ctx0).
Qed.

(** [notes = Notes;] in front of [schema Notes] and behind it. *)
Lemma template_declarations_are_hoisted_witness :
  generate 1 {| declarations := [DInstantiation Samples.notesInstantiation] ++
                                  DSchema Samples.notes :: [] |}
  = generate 1 {| declarations := DSchema Samples.notes ::
                                    [DInstantiation Samples.notesInstantiation] ++ [] |}.
Proof.
  apply (template_declarations_are_hoisted 1 "Notes" (DSchema Samples.notes)
           [DInstantiation Samples.notesInstantiation] []).
  - reflexivity.
  - apply Forall_cons. split; [intros H; exact H | apply Forall_nil_2].
Defined.


Section Preamble.
Variables (x f : list string).

Lemma generateEnumSql_preamble e c :
  generateEnumSql e (withPreamble x f c) = withPreamble x f (generateEnumSql e c).
Proof. unfold generateEnumSql. cbn [withPreamble set_functionSql set_extensionSql generatedEnums]. by destruct (decide _). Qed.

Lemma bindTypeParams_preamble typeParams :
  forall typeArgs c,
    bindTypeParams typeParams typeArgs (withPreamble x f c)
    = withPreamble x f (bindTypeParams typeParams typeArgs c).
Proof.
  induction typeParams as [|p ps IH]; intros typeArgs c; [done|].
  cbn [bindTypeParams]. destruct typeArgs as [|a args]; [apply IH|].
  destruct (truthy p); [|apply IH]. by rewrite <- IH.
Qed.

Lemma bindTargets_preamble targets :
  forall conceptSchemas m c,
    bindTargets targets conceptSchemas m (withPreamble x f c)
    = ((bindTargets targets conceptSchemas m c).1,
       withPreamble x f (bindTargets targets conceptSchemas m c).2).
Proof.
  induction targets as [|t ts IH]; intros conceptSchemas m c; [done|].
  destruct conceptSchemas as [|s ss]; [done|]. cbn [bindTargets].
  destruct (arg_alias t) as [alias|]; [destruct (truthy alias)|]; by rewrite <- IH.
Qed.

Lemma expandCheckExpression_preamble expr c :
  expandCheckExpression expr (withPreamble x f c) = expandCheckExpression expr c.
Proof. done. Qed.

Lemma generateColumnSql_preamble col c :
  generateColumnSql col (withPreamble x f c) = generateColumnSql col c.
Proof.
  unfold generateColumnSql.
  replace (expandTemplate (col_name col) (withPreamble x f c))
    with (expandTemplate (col_name col) c) by done.
  assert (forall cs acc, fold_left (pushConstraint col (withPreamble x f c)) cs acc
                         = fold_left (pushConstraint col c) cs acc) as ->; [|done].
  induction cs as [|k cs IH]; intros acc; [done|]. cbn [fold_left]. by rewrite IH.
Qed.

Lemma generateCheckSql_preamble tableName check c :
  generateCheckSql tableName check (withPreamble x f c) = generateCheckSql tableName check c.
Proof. done. Qed.

Lemma generateIndexSql_preamble tableName index c :
  generateIndexSql tableName index (withPreamble x f c) = generateIndexSql tableName index c.
Proof. done. Qed.

Lemma pushIndexes_preamble tableName indexes :
  forall c,
    fold_left (fun ctx index =>
      set_indexSql (indexSql ctx ++ [generateIndexSql tableName index ctx]) ctx)
      indexes (withPreamble x f c)
    = withPreamble x f
        (fold_left (fun ctx index =>
           set_indexSql (indexSql ctx ++ [generateIndexSql tableName index ctx]) ctx)
           indexes c).
Proof. induction indexes as [|i l IH]; intros c; [done|]. cbn [fold_left]. by rewrite <- IH. Qed.

Lemma pushTriggers_preamble tableName triggers :
  forall c,
    fold_left (fun ctx trigger =>
      set_triggerSql (triggerSql ctx ++ [generateTriggerSql tableName trigger ctx]) ctx)
      triggers (withPreamble x f c)
    = withPreamble x f
        (fold_left (fun ctx trigger =>
           set_triggerSql (triggerSql ctx ++ [generateTriggerSql tableName trigger ctx]) ctx)
           triggers c).
Proof. induction triggers as [|t l IH]; intros c; [done|]. cbn [fold_left]. by rewrite <- IH. Qed.

Lemma generateTableSql_preamble r c :
  generateTableSql r (withPreamble x f c) = withPreamble x f (generateTableSql r c).
Proof.
  unfold generateTableSql.
  cbn [withPreamble set_functionSql set_extensionSql generatedTables].
  destruct (decide _); [done|].
  by rewrite <- pushTriggers_preamble, <- pushIndexes_preamble.
Qed.

Lemma resolveSchema_preamble depth schema tableName c :
  resolveSchema depth schema tableName (withPreamble x f c)
  = resolveSchema depth schema tableName c.
Proof. unfold resolveSchema. by rewrite (resolveMixins_ext (withPreamble x f c) c). Qed.

Lemma generateConceptTables_preamble depth conceptSchemas schemaToTable :
  forall c,
    generateConceptTables depth conceptSchemas schemaToTable (withPreamble x f c)
    = (c' ← generateConceptTables depth conceptSchemas schemaToTable c;
       Ok (withPreamble x f c')).
Proof.
  induction conceptSchemas as [|s rest IH]; intros c; [done|].
  cbn [generateConceptTables]. destruct (schemaToTable !! schema_name s); [|apply IH].
  rewrite resolveSchema_preamble. destruct (resolveSchema depth s p.1 c) as [r|e]; [|done].
  cbn [mbind result_bind]. by rewrite generateTableSql_preamble, IH.
Qed.

End Preamble.

(** Processing a declaration that is no extension and no function neither
    reads nor changes the extension and function statements. *)
Lemma processDeclaration_preamble (depth : nat) (decl : TopLevelDeclaration)
    (x f : list string) (c : GeneratorContext) :
  isPreamble decl = false ->
  processDeclaration depth decl (withPreamble x f c)
  = (c' ← processDeclaration depth decl c; Ok (withPreamble x f c')).
Proof.
  intros Hd. destruct decl as [d|d|d|d|d|d|d]; try done; cbn [processDeclaration].
  - cbn. unfold processEnum. by rewrite generateEnumSql_preamble.
  - unfold processInstantiation.
    replace (concepts (withPreamble x f c)) with (concepts c) by done.
    replace (schemas (withPreamble x f c)) with (schemas c) by done.
    destruct (concepts c !! inst_conceptName d) as [concept|].
    + unfold bindInstantiation.
      replace (set_templateSubs [] (withPreamble x f c))
        with (withPreamble x f (set_templateSubs [] c)) by done.
      rewrite bindTypeParams_preamble, bindTargets_preamble.
      destruct (bindTargets _ _ _ _) as [m c1]. cbn [fst snd].
      assert (forall es c2,
                fold_left (fun ctx e => generateEnumSql e ctx) es (withPreamble x f c2)
                = withPreamble x f (fold_left (fun ctx e => generateEnumSql e ctx) es c2))
        as ->.
      { induction es as [|e es IH]; intros c2; [done|]. cbn [fold_left].
        by rewrite generateEnumSql_preamble, IH. }
      apply generateConceptTables_preamble.
    + destruct (schemas c !! inst_conceptName d) as [schema|]; [|done].
      destruct (inst_targets d) as [|t ts]; [done|].
      replace (set_tableToSchema _ (withPreamble x f c))
        with (withPreamble x f
                (set_tableToSchema (<[schema_name schema:=arg_tableName t]> (tableToSchema c)) c))
        by done.
      rewrite resolveSchema_preamble. destruct (resolveSchema _ _ _ _) as [r|e]; [|done].
      cbn. by rewrite generateTableSql_preamble.
Qed.

Lemma processDeclaration_withPreamble (depth : nat) (decl : TopLevelDeclaration) :
  isPreamble decl = true ->
  exists x f, forall c',
    processDeclaration depth decl c'
    = Ok (withPreamble (extensionSql c' ++ x) (functionSql c' ++ f) c').
Proof.
  destruct decl as [d|d|d|d|d|d|d]; try done; intros _.
  - eexists _, []. intros c'. rewrite (app_nil_r (functionSql c')). by destruct c'.
  - eexists [], _. intros c'. rewrite (app_nil_r (extensionSql c')). by destruct c'.
Qed.

Lemma withPreamble_id (c : GeneratorContext) :
  withPreamble (extensionSql c) (functionSql c) c = c.
Proof. by destruct c. Qed.

Lemma processDeclaration_keeps_preamble (depth : nat) (decl : TopLevelDeclaration)
    (c c' : GeneratorContext) :
  isPreamble decl = false ->
  processDeclaration depth decl c = Ok c' ->
  extensionSql c' = extensionSql c /\ functionSql c' = functionSql c.
Proof.
  intros Hd H.
  pose proof (processDeclaration_preamble depth decl (extensionSql c) (functionSql c) c Hd)
    as Hframe.
  rewrite withPreamble_id, H in Hframe. cbn in Hframe. injection Hframe as ->. done.
Qed.

(** X13.  An extension or a function declaration and its neighbour of another
    kind can change places in the program: extensions and functions are
    written to sections of their own, which nothing else reads or writes, so
    the result of [generate] is the same. *)
Theorem preamble_declarations_commute (depth : nat) (preamble other : TopLevelDeclaration)
    (before after : list TopLevelDeclaration) :
  isPreamble preamble = true -> isPreamble other = false ->
  generate depth {| declarations := before ++ preamble :: other :: after |}
  = generate depth {| declarations := before ++ other :: preamble :: after |}.
Proof.
  intros Hp Ho. unfold generate, collectDefinitions. cbn [declarations].
  assert (forall c, fold_left collectDefinition (before ++ preamble :: other :: after) c
                    = fold_left collectDefinition (before ++ other :: preamble :: after) c) as ->.
  { intros c. rewrite !fold_left_app. cbn [fold_left]. by destruct preamble. }
  set (ctx0 := fold_left collectDefinition _ _). rewrite !processDeclarations_app.
  destruct (processDeclarations depth before ctx0) as [c1|e]; [|done].
  cbn [mbind result_bind processDeclarations].
  destruct (processDeclaration_withPreamble depth preamble Hp) as (x & f & Hpre).
  rewrite Hpre. cbn [mbind result_bind].
  rewrite (processDeclaration_preamble depth other _ _ c1 Ho).
  destruct (processDeclaration depth other c1) as [c2|e] eqn:H2; [|done].
  cbn [mbind result_bind]. rewrite Hpre. cbn [mbind result_bind].
  by destruct (processDeclaration_keeps_preamble depth other c1 c2 Ho H2) as [-> ->].
Qed.

(** [extension citext;] in front of [schema Timestamps] and behind it. *)
Lemma preamble_declarations_commute_witness :
  generate 1 {| declarations :=
                  [] ++ DExtension {| ext_name := "citext" |}
                     :: DSchema Samples.timestamps :: [] |}
  = generate 1 {| declarations :=
                    [] ++ DSchema Samples.timestamps
                       :: DExtension {| ext_name := "citext" |} :: [] |}.
Proof.
  apply (preamble_declarations_commute 1 (DExtension {| ext_name := "citext" |})
           (DSchema Samples.timestamps) [] []).
  - reflexivity.
  - reflexivity.
Defined.

End OrderFacts.

(* ===================================================================== *)
(** ** Arguments of an instantiation beyond the declared ones            *)
(* ===================================================================== *)

Module ArgumentFacts.
Import Js Ast Generator Spec GeneratorNotions JsFacts GeneratorFacts MixinFacts ContextFacts.

Lemma bindTypeParams_surplus (typeParams : list string) :
  forall typeArgs ctx,
    bindTypeParams typeParams (firstn (length typeParams) typeArgs) ctx
    = bindTypeParams typeParams typeArgs ctx.
Proof.
  induction typeParams as [|p ps IH]; intros typeArgs ctx; [done|].
  destruct typeArgs as [|a args]; [done|]. cbn [length firstn bindTypeParams tail].
  by rewrite IH.
Qed.

Lemma bindTargets_surplus (conceptSchemas : list SchemaDecl) :
  forall targets m ctx,
    bindTargets (firstn (length conceptSchemas) targets) conceptSchemas m ctx
    = bindTargets targets conceptSchemas m ctx.
Proof.
  induction conceptSchemas as [|s ss IH]; intros targets m ctx.
  - cbn [length firstn]. by destruct targets.
  - destruct targets as [|t ts]; [done|]. cbn [length firstn bindTargets]. by rewrite IH.
Qed.

(** X14.  An instantiation with more targets or type arguments than there is
    use for raises no error; the surplus is ignored.  For a concept, only as
    many targets as the concept has schemas and as many type arguments as it
    has parameters count; for a schema (or an unknown name), only the first
    target counts, and no type argument. *)
Theorem surplus_arguments_are_ignored (depth : nat) (decl : Instantiation)
    (ctx : GeneratorContext) :
  (forall concept,
     concepts ctx !! inst_conceptName decl = Some concept ->
     processInstantiation depth decl ctx
     = processInstantiation depth
         (withArguments decl
            (firstn (length (conceptSchemas concept)) (inst_targets decl))
            (firstn (length (concept_typeParams concept)) (inst_typeArgs decl)))
         ctx)
  /\ (concepts ctx !! inst_conceptName decl = None ->
      processInstantiation depth decl ctx
      = processInstantiation depth (withArguments decl (firstn 1 (inst_targets decl)) []) ctx).
Proof.
  split.
  - intros concept Hc. unfold processInstantiation, bindInstantiation.
    cbn [withArguments inst_conceptName inst_targets inst_typeArgs]. rewrite Hc.
    by rewrite bindTypeParams_surplus, bindTargets_surplus.
  - intros Hc. unfold processInstantiation.
    cbn [withArguments inst_conceptName inst_targets]. rewrite Hc.
    destruct (schemas ctx !! inst_conceptName decl); [|done].
    by destruct (inst_targets decl).
Qed.

(** [a, b = Announcing<exams[exam], quizzes>;] is [a = Announcing<exams[exam]>;]. *)
Lemma surplus_arguments_are_ignored_witness :
  processInstantiation 1 Inputs.crowded Samples.announcingContext
  = processInstantiation 1
      (withArguments Inputs.crowded
         [Samples.target "a" None] [Samples.target "exams" (Some "exam")])
      Samples.announcingContext.
Proof.
  apply (proj1 (surplus_arguments_are_ignored 1 Inputs.crowded Samples.announcingContext)
           Samples.announcing).
  reflexivity.
Defined.

End ArgumentFacts.

(* ===================================================================== *)
(** ** What parse and compile return                                     *)
(* ===================================================================== *)

Module ResultFacts.
Import Js Ast Generator Compiler JsFacts CompilerFacts.

Lemma nonempty_length {A} (l : list A) : 0 < length l <-> l <> [].
Proof. destruct l; cbn; [split; [lia | done] | split; [done | lia]]. Qed.

(** X15.  [parse] returns a tree or errors, never both and never neither: the
    tree is [null] exactly when the error list is not empty.  When the lexer
    reports errors, the parser is not run: the errors are the lexer's, in
    order, and the parser instance is left as it was. *)
Theorem parse_errors_or_tree (E : Engine) (source : string) (parserInstance : ParserInstance) :
  let result := (parse E source parserInstance).1 in
  (pr_ast result = None <-> pr_errors result <> [])
  /\ (Lexer.errors (Lexer.tokenize source) <> [] ->
      parse E source parserInstance
      = ({| pr_ast := None;
            pr_errors := map (lexErrorToCompileError E source)
                             (Lexer.errors (Lexer.tokenize source)) |},
         parserInstance)).
Proof.
  cbn zeta. unfold parse.
  destruct (decide (0 < length (map (lexErrorToCompileError E source)
                                    (Lexer.errors (Lexer.tokenize source))))) as [Hlex | Hlex].
  - cbn [fst pr_ast pr_errors]. split; [|done]. split; [intros _|done].
    by apply nonempty_length.
  - rewrite length_map in Hlex.
    assert (Lexer.errors (Lexer.tokenize source) = []) as ->
      by (destruct (Lexer.errors _); [done | cbn in Hlex; lia]).
    split; [|done]. cbn [map app].
    destruct (runProgram E _) as [cst p']. destruct (decide _) as [Herr | Herr]; cbn.
    + split; [intros _|done]. by apply nonempty_length.
    + split; [done|]. intros Hne. by apply nonempty_length in Hne.
Qed.

Lemma generate_truthy (depth : nat) (ast : GSQLProgram) (text : string) :
  generate depth ast = Ok text -> truthy text = true.
Proof.
  unfold generate. destruct (processDeclarations _ _ _) as [ctx|e]; [|done].
  cbn. by intros [= <-].
Qed.

(** What [compile] returns in [sql] is the text of a successful generation. *)
Lemma compile_sql (E : Engine) (source : string) (parserInstance : ParserInstance)
    (text : string) :
  sql (compile E source parserInstance).1 = Some text ->
  success (compile E source parserInstance).1 = true /\ truthy text = true.
Proof.
  unfold compile. destruct (parse E source parserInstance) as [parsed p'].
  destruct (decide _) as [Herr | Herr]; [done|].
  destruct (pr_ast parsed) as [program|]; [|done].
  destruct (generate (stackDepth E) program) as [text'|e] eqn:Hg; [|done].
  cbn. intros [= <-]. split; [done | by apply (generate_truthy _ _ _ Hg)].
Qed.

(** X16.  The fields of what [compile] returns agree: [success] is [true]
    exactly when there is no error, and exactly when [sql] is set, to a text
    that is not empty; and a successful result carries the tree. *)
Theorem compile_result_is_consistent (E : Engine) (source : string)
    (parserInstance : ParserInstance) :
  let result := (compile E source parserInstance).1 in
  (success result = true <-> errors result = [])
  /\ (success result = true <-> exists text, sql result = Some text /\ truthy text = true)
  /\ (success result = true -> exists program, ast result = Some program).
Proof.
  cbn zeta. unfold compile. destruct (parse E source parserInstance) as [parsed p'].
  destruct (decide (0 < length (pr_errors parsed))) as [Herr | Herr].
  - cbn. apply nonempty_length in Herr. repeat split; try done.
    by intros (text & ? & _).
  - destruct (pr_ast parsed) as [program|].
    + destruct (generate (stackDepth E) program) as [text|e] eqn:Hg; cbn.
      * repeat split; try done; [intros _ | by eexists].
        exists text. split; [done | by apply (generate_truthy _ _ _ Hg)].
      * repeat split; try done. by intros (text & ? & _).
    + cbn. repeat split; try done. by intros (text & ? & _).
Qed.

(** X17.  [compileToSQL] returns the [sql] of [compile] whenever that is set,
    and otherwise throws an [Error] whose message is [Compilation failed:]
    followed by the messages of all the errors, one per line. *)
Theorem compileToSQL_returns_or_throws (E : Engine) (source : string)
    (parserInstance : ParserInstance) :
  let result := (compile E source parserInstance).1 in
  (compileToSQL E source parserInstance).1
  = match sql result with
    | Some text => Ok text
    | None =>
      Throw (ErrorObject "Error"
               ("Compilation failed:" +:+ nl +:+ join nl (map message (errors result))))
    end.
Proof.
  cbn zeta. unfold compileToSQL.
  pose proof (compile_sql E source parserInstance) as Hsql.
  destruct (compile E source parserInstance) as [result p']. cbn [fst] in *.
  destruct (sql result) as [text|]; [|done].
  by destruct (Hsql text eq_refl) as [-> ->].
Qed.

End ResultFacts.

(* ===================================================================== *)
(** ** The command line                                                  *)
(* ===================================================================== *)

Module CliFacts.
Import Js Ast Compiler Cli CliNotions JsFacts.

Lemma parseArgsFrom_app (before after : list string) :
  forallb (fun arg => negb (isOutputFlag arg)) before = true ->
  forall options,
    parseArgsFrom (before ++ after) options
    = parseArgsFrom after (parseArgsFrom before options).
Proof.
  induction before as [|arg rest IH]; intros Hall options; [done|].
  cbn [forallb] in Hall. apply andb_prop in Hall as [Harg%negb_true_iff Hrest].
  unfold isOutputFlag in Harg. cbn [app parseArgsFrom]. rewrite Harg.
  destruct (negb (truthy arg)); [by apply IH|].
  destruct (String.eqb arg "-h" || String.eqb arg "--help"); [by apply IH|].
  destruct (String.eqb arg "--version"); [by apply IH|].
  destruct (String.eqb arg "-v" || String.eqb arg "--verbose"); [by apply IH|].
  destruct (negb (startsWith "-" arg)); by apply IH.
Qed.

Lemma parseArgsFrom_output (v : option string) (args : list string) :
  forallb (fun arg => negb (isOutputFlag arg)) args = true ->
  forall options,
    parseArgsFrom args (set_outputFile v options)
    = set_outputFile v (parseArgsFrom args options).
Proof.
  induction args as [|arg rest IH]; intros Hall options; [done|].
  cbn [forallb] in Hall. apply andb_prop in Hall as [Harg%negb_true_iff Hrest].
  unfold isOutputFlag in Harg. cbn [parseArgsFrom]. rewrite Harg.
  destruct (negb (truthy arg)); [by apply IH|].
  destruct (String.eqb arg "-h" || String.eqb arg "--help"); [by rewrite <- IH|].
  destruct (String.eqb arg "--version"); [by rewrite <- IH|].
  destruct (String.eqb arg "-v" || String.eqb arg "--verbose"); [by rewrite <- IH|].
  destruct (negb (startsWith "-" arg)); [|by apply IH].
  rewrite <- IH by done. f_equal. unfold positional. cbn [set_outputFile command inputFile].
  by destruct (negb (truthy (command options))), (negb (truthy (inputFile options))).
Qed.

Lemma set_outputFile_twice (v w : option string) (options : CLIOptions) :
  set_outputFile v (set_outputFile w options) = set_outputFile v options.
Proof. done. Qed.

(** X18.  [-o] and [--output] take the argument behind them, whatever it
    looks like: it becomes the output file even if it starts with a dash,
    and is never read as an option or as a positional argument.  An empty
    argument behind the flag, or none at all, leaves the output file as it
    was. *)
Theorem output_option_takes_the_next_argument (before after : list string)
    (flag file : string) :
  isOutputFlag flag = true ->
  forallb (fun arg => negb (isOutputFlag arg)) (before ++ after) = true ->
  parseArgs (before ++ [flag]) = parseArgs before
  /\ parseArgs (before ++ flag :: EmptyString :: after) = parseArgs (before ++ after)
  /\ (truthy file = true ->
      parseArgs (before ++ flag :: file :: after)
      = set_outputFile (Some file) (parseArgs (before ++ after))).
Proof.
  intros Hflag Hall. rewrite forallb_app in Hall. apply andb_prop in Hall as [Hb Ha].
  assert (truthy flag = true) as Ht.
  { unfold isOutputFlag in Hflag. destruct flag; [done | done]. }
  assert (forall rest options,
            parseArgsFrom (flag :: rest) options
            = match rest with
              | nextArg :: rest' =>
                parseArgsFrom rest'
                  (if truthy nextArg then set_outputFile (Some nextArg) options else options)
              | [] => options
              end) as Hstep.
  { intros rest options. cbn [parseArgsFrom]. rewrite Ht. cbn [negb].
    unfold isOutputFlag in Hflag.
    destruct (String.eqb_spec flag "-h") as [-> | _]; [done|].
    destruct (String.eqb_spec flag "--help") as [-> | _]; [done|].
    destruct (String.eqb_spec flag "--version") as [-> | _]; [done|].
    destruct (String.eqb_spec flag "-v") as [-> | _]; [done|].
    destruct (String.eqb_spec flag "--verbose") as [-> | _]; [done|].
    cbn [orb]. by rewrite Hflag. }
  unfold parseArgs. rewrite !parseArgsFrom_app by done. rewrite !Hstep.
  split; [done|]. split; [done|]. intros ->. by rewrite parseArgsFrom_output.
Qed.

(** [compile in.gsql -o --help] writes to a file called [--help]. *)
Lemma output_option_takes_the_next_argument_witness :
  parseArgs (["compile"; "in.gsql"] ++ ["-o"]) = parseArgs ["compile"; "in.gsql"]
  /\ parseArgs (["compile"; "in.gsql"] ++ "-o" :: EmptyString :: [])
     = parseArgs (["compile"; "in.gsql"] ++ [])
  /\ (truthy "--help" = true ->
      parseArgs (["compile"; "in.gsql"] ++ "-o" :: "--help" :: [])
      = set_outputFile (Some "--help") (parseArgs (["compile"; "in.gsql"] ++ []))).
Proof.
  apply (output_option_takes_the_next_argument ["compile"; "in.gsql"] [] "-o" "--help").
  - reflexivity.
  - reflexivity.
Defined.


(** The fields the positional arguments fill: only the first two count. *)
Lemma positional_full (arg : string) (options : CLIOptions) :
  truthy (command options) = true -> truthy (inputFile options) = true ->
  positional arg options = options.
Proof. unfold positional. by intros -> ->. Qed.

Lemma fold_positional_fields (args : list string) :
  forall o o',
    command o = command o' -> inputFile o = inputFile o' ->
    command (fold_left (fun o arg => positional arg o) args o)
    = command (fold_left (fun o arg => positional arg o) args o')
    /\ inputFile (fold_left (fun o arg => positional arg o) args o)
       = inputFile (fold_left (fun o arg => positional arg o) args o').
Proof.
  induction args as [|arg rest IH]; intros o o' Hc Hi; [done|].
  cbn [fold_left]. apply IH; unfold positional; rewrite Hc, Hi;
    by destruct (negb (truthy (command o'))), (negb (truthy (inputFile o'))).
Qed.

Lemma parseArgsFrom_flags (args : list string) :
  forallb (fun arg => negb (isOutputFlag arg)) args = true ->
  forall options,
    help (parseArgsFrom args options)
    = help options || existsb (fun arg => String.eqb arg "-h" || String.eqb arg "--help") args
    /\ version (parseArgsFrom args options)
       = version options || existsb (fun arg => String.eqb arg "--version") args
    /\ verbose (parseArgsFrom args options)
       = verbose options
         || existsb (fun arg => String.eqb arg "-v" || String.eqb arg "--verbose") args
    /\ outputFile (parseArgsFrom args options) = outputFile options
    /\ command (parseArgsFrom args options)
       = command (fold_left (fun o arg => positional arg o) (positionals args) options)
    /\ inputFile (parseArgsFrom args options)
       = inputFile (fold_left (fun o arg => positional arg o) (positionals args) options).
Proof.
  induction args as [|arg rest IH]; intros Hall options.
  { cbn. by rewrite !orb_false_r. }
  cbn [forallb] in Hall. apply andb_prop in Hall as [Harg%negb_true_iff Hrest].
  unfold isOutputFlag in Harg. specialize (IH Hrest).
  cbn [parseArgsFrom existsb positionals List.filter]. rewrite Harg.
  destruct arg as [|c arg']; [apply IH|]. cbn [truthy negb andb].
  set (arg := String c arg') in *.
  destruct (String.eqb_spec arg "-h") as [E | _].
  { rewrite E. cbn [orb startsWith Ascii.eqb negb andb]. 
    destruct (IH (set_help true options)) as (-> & -> & -> & -> & -> & ->).
    destruct (fold_positional_fields (positionals rest) (set_help true options) options
                eq_refl eq_refl) as [-> ->].
    cbn. by rewrite orb_true_r. }
  destruct (String.eqb_spec arg "--help") as [E | _].
  { rewrite E. cbn [orb].
    destruct (IH (set_help true options)) as (-> & -> & -> & -> & -> & ->).
    destruct (fold_positional_fields (positionals rest) (set_help true options) options
                eq_refl eq_refl) as [-> ->].
    cbn. by rewrite orb_true_r. }
  cbn [orb]. destruct (String.eqb_spec arg "--version") as [E | _].
  { rewrite E.
    destruct (IH (set_version true options)) as (-> & -> & -> & -> & -> & ->).
    destruct (fold_positional_fields (positionals rest) (set_version true options) options
                eq_refl eq_refl) as [-> ->].
    cbn. by rewrite orb_true_r. }
  destruct (String.eqb_spec arg "-v") as [E | _].
  { rewrite E. cbn [orb].
    destruct (IH (set_verbose true options)) as (-> & -> & -> & -> & -> & ->).
    destruct (fold_positional_fields (positionals rest) (set_verbose true options) options
                eq_refl eq_refl) as [-> ->].
    cbn. by rewrite orb_true_r. }
  destruct (String.eqb_spec arg "--verbose") as [E | _].
  { rewrite E. cbn [orb].
    destruct (IH (set_verbose true options)) as (-> & -> & -> & -> & -> & ->).
    destruct (fold_positional_fields (positionals rest) (set_verbose true options) options
                eq_refl eq_refl) as [-> ->].
    cbn. by rewrite orb_true_r. }
  cbn [orb]. destruct (startsWith "-" arg); cbn [negb]; [apply IH|].
  cbn [fold_left]. destruct (IH (positional arg options)) as (-> & -> & -> & -> & -> & ->).
  unfold positional.
  by destruct (negb (truthy (command options))), (negb (truthy (inputFile options))).
Qed.

Lemma positionals_truthy (args : list string) :
  Forall (fun arg => truthy arg = true) (positionals args).
Proof.
  apply Forall_forall. intros arg [_ [H _]%andb_prop]%list_elem_of_In%filter_In. done.
Qed.

Lemma fold_positional_full (args : list string) (options : CLIOptions) :
  truthy (command options) = true -> truthy (inputFile options) = true ->
  fold_left (fun o arg => positional arg o) args options = options.
Proof.
  intros Hc Hi. induction args as [|arg rest IH]; [done|].
  cbn [fold_left]. by rewrite positional_full.
Qed.

(** X19.  Away from [-o], the options can come in any order and any number of
    times: [help], [version] and [verbose] tell whether their flag occurs
    among the arguments, the command and the input file are the first and
    the second argument that is not empty and does not start with a dash,
    and further such arguments and unknown options are ignored. *)
Theorem options_in_any_order (args : list string) :
  forallb (fun arg => negb (isOutputFlag arg)) args = true ->
  help (parseArgs args)
  = existsb (fun arg => String.eqb arg "-h" || String.eqb arg "--help") args
  /\ version (parseArgs args) = existsb (fun arg => String.eqb arg "--version") args
  /\ verbose (parseArgs args)
     = existsb (fun arg => String.eqb arg "-v" || String.eqb arg "--verbose") args
  /\ outputFile (parseArgs args) = None
  /\ command (parseArgs args) = default EmptyString (positionals args !! 0)
  /\ inputFile (parseArgs args) = default EmptyString (positionals args !! 1).
Proof.
  intros Hall. unfold parseArgs.
  destruct (parseArgsFrom_flags args Hall
              {| command := EmptyString; inputFile := EmptyString; outputFile := None;
                 verbose := false; help := false; version := false |})
    as (-> & -> & -> & -> & -> & ->).
  repeat (split; [done|]).
  pose proof (positionals_truthy args) as Ht.
  destruct (positionals args) as [|a [|b rest]]; [done | done|].
  apply Forall_cons in Ht as [Ha [Hb _]%Forall_cons].
  cbn [fold_left]. rewrite fold_positional_full.
  - unfold positional. cbn. by rewrite Ha.
  - unfold positional. cbn. by rewrite Ha.
  - unfold positional. cbn. by rewrite Ha.
Qed.

(** [-v compile --color in.gsql extra]. *)
Lemma options_in_any_order_witness :
  verbose (parseArgs ["-v"; "compile"; "--color"; "in.gsql"; "extra"]) = true
  /\ command (parseArgs ["-v"; "compile"; "--color"; "in.gsql"; "extra"]) = "compile"
  /\ inputFile (parseArgs ["-v"; "compile"; "--color"; "in.gsql"; "extra"]) = "in.gsql".
Proof.
  destruct (options_in_any_order ["-v"; "compile"; "--color"; "in.gsql"; "extra"] eq_refl)
    as (_ & _ & Hverbose & _ & Hcommand & Hinput).
  split; [exact Hverbose | split; [exact Hcommand | exact Hinput]].
Defined.


Ltac absurd_effects H :=
  cbn [effects] in H;
  repeat (apply elem_of_cons in H as [H | H]; [discriminate H|]);
  by apply elem_of_nil in H.

(** X20.  [main] writes a file only when everything went well: if a run wrote
    [content] to [path], then the input file was read, its compilation
    succeeded with [content] as its SQL, [path] is the resolved argument of
    [-o], and the run ends without a call of [process.exit]. *)
Theorem output_is_written_only_on_success (E : Engine) (host : Host) (args : list string)
    (parserInstance : ParserInstance) (path content : string) :
  FileWritten path content ∈ effects (main E host args parserInstance) ->
  exists source out,
    readFileSync host (resolve host (inputFile (parseArgs args))) = Ok source
    /\ success (compile E source parserInstance).1 = true
    /\ sql (compile E source parserInstance).1 = Some content
    /\ outputFile (parseArgs args) = Some out
    /\ path = resolve host out
    /\ exitCode (main E host args parserInstance) = None.
Proof.
  unfold main. set (options := parseArgs args).
  destruct (help options); [intros H; absurd_effects H|].
  destruct (version options); [intros H; absurd_effects H|].
  destruct (negb (truthy (command options))); [intros H; absurd_effects H|].
  destruct (negb (String.eqb (command options) "compile")); [intros H; absurd_effects H|].
  destruct (negb (truthy (inputFile options))); [intros H; absurd_effects H|].
  destruct (negb (existsSync host _)); [intros H; absurd_effects H|].
  destruct (readFileSync host _) as [source|err]; [|intros H; absurd_effects H].
  set (announced := if verbose options then _ else _).
  assert (forall path content, FileWritten path content ∉ announced) as Hann.
  { intros p c H. subst announced. destruct (verbose options); absurd_effects H. }
  destruct (success (compile E source parserInstance).1) eqn:Hok; cbn [negb].
  2:{ cbn [effects]. intros [H | H]%elem_of_app; [by apply Hann in H|].
      apply list_elem_of_fmap in H as (error & [=] & _). }
  destruct (outputFile options) as [out|] eqn:Hout.
  2:{ cbn [effects]. intros [H | H]%elem_of_app; [by apply Hann in H | absurd_effects H]. }
  destruct (truthy out).
  2:{ cbn [effects]. intros [H | H]%elem_of_app; [by apply Hann in H | absurd_effects H]. }
  destruct (writeFileSync host _ _) as [[]|err].
  2:{ cbn [effects]. intros [H | H]%elem_of_app; [by apply Hann in H | absurd_effects H]. }
  cbn [effects exitCode]. intros [H | [H | H]%elem_of_app]%elem_of_app.
  - by apply Hann in H.
  - apply list_elem_of_singleton in H. injection H as -> ->.
    exists source, out. repeat split; try done.
    destruct (sql (compile E source parserInstance).1) as [text|] eqn:Hs; [done|].
    exfalso. revert Hok Hs. clear. unfold compile.
    destruct (parse E source parserInstance) as [parsed p'].
    destruct (decide _); [done|]. destruct (pr_ast parsed); [|done].
    by destruct (Generator.generate _ _).
  - destruct (verbose options); absurd_effects H.
Qed.

(** [gsql compile in.gsql -o out.sql] over a readable file. *)
Lemma output_is_written_only_on_success_witness :
  exists source out,
    readFileSync Inputs.usersHost
      (resolve Inputs.usersHost
         (inputFile (parseArgs ["compile"; "in.gsql"; "-o"; "out.sql"]))) = Ok source
    /\ success (compile Inputs.usersEngine source Samples.freshParser).1 = true
    /\ sql (compile Inputs.usersEngine source Samples.freshParser).1
       = Some (default EmptyString
                 (sql (compile Inputs.usersEngine Inputs.usersSource Samples.freshParser).1))
    /\ outputFile (parseArgs ["compile"; "in.gsql"; "-o"; "out.sql"]) = Some out
    /\ "/work/out.sql" = resolve Inputs.usersHost out
    /\ exitCode (main Inputs.usersEngine Inputs.usersHost
                   ["compile"; "in.gsql"; "-o"; "out.sql"] Samples.freshParser) = None.
Proof.
  apply (output_is_written_only_on_success Inputs.usersEngine Inputs.usersHost
           ["compile"; "in.gsql"; "-o"; "out.sql"] Samples.freshParser).
  apply list_elem_of_In. vm_compute. left. reflexivity.
Defined.

End CliFacts.
